(** * sniproxy: the connection state machine of [connection.c]

    A shallow embedding of [src/connection.c]: the connection records, the
    LRU queue that links them, and the functions that accept, watch, drive
    and close connections.  The C code mutates records through pointers and
    threads a global queue through every call, so the embedding is a small
    state-and-fault monad over an explicit store:

    - [heap] maps the address of a [struct Connection] to its contents,
    - [queue] is the [TAILQ] of linked records, head first,
    - [trace] logs the calls that leave the module ([close], [free], the
      listener's parser and the upstream lookup),
    - the results of system calls come from an environment [Env] that is
      indexed by a clock counting the calls made so far, so any sequence of
      results can be supplied.

    [syslog] output, [print_connections] and the address formatting helper
    are not part of the model. *)

From stdpp Require Import base option list gmap sets strings relations.
From Stdlib Require Import ZArith Lia.

Open Scope Z_scope.
Set Warnings "-clear-no-such-hyp".

(** ** Constants of the platform headers *)

(** [FD_SETSIZE] comes from <sys/select.h>, the error numbers from
    <errno.h>; [BUFFER_CAPACITY] is the capacity [new_buffer] gives a fresh
    buffer.  None of them is fixed by [connection.c]. *)
Class Platform := {
  FD_SETSIZE : Z;
  EAGAIN : Z;
  EWOULDBLOCK : Z;
  EINTR : Z;
  BUFFER_CAPACITY : nat
}.

(** The values on Linux with glibc, with a 4 KiB buffer. *)
Definition linux_glibc : Platform :=
  {| FD_SETSIZE := 1024; EAGAIN := 11; EWOULDBLOCK := 11; EINTR := 4;
     BUFFER_CAPACITY := 4096 |}.

(** ** Data model *)

Inductive State :=
  | NEW | ACCEPTED | CONNECTED | SERVER_CLOSED | CLIENT_CLOSED | CLOSED.

Global Instance State_eq_dec : EqDecision State.
Proof. solve_decision. Defined.

Definition sockaddr_storage := list Byte.byte.

(** Modelled from the spec: [struct Buffer] and its operations live in
    buffer.c, which is not in this file.  The spec describes a bounded byte
    FIFO with capacity [size] and fill [len]; [cap] is that capacity and
    [data] the queued bytes, oldest first. *)
Record Buffer := { cap : nat; data : list Byte.byte }.

(** Modelled from the spec: current fill of the FIFO. *)
Definition buffer_len (b : Buffer) : nat := length (data b).

(** Modelled from the spec: [room() = size - len]. *)
Definition buffer_room (b : Buffer) : nat := (cap b - buffer_len b)%nat.

(** Modelled from the spec: [peek(dst, n)] copies at most [min(n, len)]
    bytes out and consumes nothing; the buffer itself is not an output. *)
Definition buffer_peek (b : Buffer) (n : nat) : list Byte.byte :=
  take n (data b).

(** Modelled from the spec: a fresh buffer is empty. *)
Definition new_buffer `{Platform} : Buffer :=
  {| cap := BUFFER_CAPACITY; data := [] |}.

(** What a non-blocking [recv] on a socket can offer: bytes (none at all
    is the orderly end of stream) or an error number. *)
Inductive recv_outcome :=
  | RecvData (bs : list Byte.byte)
  | RecvErr (e : Z).

(** What a non-blocking [send] can do: take up to [k] bytes, or fail. *)
Inductive send_outcome :=
  | SendTook (k : nat)
  | SendErr (e : Z).

(** Modelled from the spec: [recv_from_fd] reads up to [room()] bytes and
    returns the count (0 at end of stream) or a negative value on error.
    The result is the return value, the [errno] left behind when it is
    negative, and the buffer afterwards. *)
Definition buffer_recv (b : Buffer) (o : recv_outcome) : Z * option Z * Buffer :=
  match o with
  | RecvData bs =>
      let got := take (buffer_room b) bs in
      (Z.of_nat (length got), None, {| cap := cap b; data := data b ++ got |})
  | RecvErr e => (-1, Some e, b)
  end.

(** Modelled from the spec: [send_to_fd] writes up to [len] bytes and
    advances the FIFO by the amount sent. *)
Definition buffer_send (b : Buffer) (o : send_outcome) : Z * option Z * Buffer :=
  match o with
  | SendTook k =>
      let n := (k `min` buffer_len b)%nat in
      (Z.of_nat n, None, {| cap := cap b; data := drop n (data b) |})
  | SendErr e => (-1, Some e, b)
  end.

(** One half of a connection: [struct { int sockfd; struct sockaddr_storage
    addr; socklen_t addr_len; struct Buffer *buffer; }].  The buffer is owned
    by the half-endpoint and is embedded by value. *)
Record Endpoint := {
  sockfd : Z;
  addr : sockaddr_storage;
  buffer : Buffer
}.

(** The listener a connection was accepted on.  Its parser is injected:
    [parse_packet buf len &hostname] returns the result code and what it
    stored in [hostname]. *)
Record Listener := {
  l_sockfd : Z;
  parse_packet : list Byte.byte → Z * option string
}.

Record Connection := {
  state : State;
  client : Endpoint;
  server : Endpoint;
  hostname : option string;
  listener : option Listener
}.

Definition with_sockfd (fd : Z) (e : Endpoint) : Endpoint :=
  {| sockfd := fd; addr := addr e; buffer := buffer e |}.
Definition with_addr (a : sockaddr_storage) (e : Endpoint) : Endpoint :=
  {| sockfd := sockfd e; addr := a; buffer := buffer e |}.
Definition with_buffer (b : Buffer) (e : Endpoint) : Endpoint :=
  {| sockfd := sockfd e; addr := addr e; buffer := b |}.

Definition with_state (s : State) (c : Connection) : Connection :=
  {| state := s; client := client c; server := server c;
     hostname := hostname c; listener := listener c |}.
Definition with_client (e : Endpoint) (c : Connection) : Connection :=
  {| state := state c; client := e; server := server c;
     hostname := hostname c; listener := listener c |}.
Definition with_server (e : Endpoint) (c : Connection) : Connection :=
  {| state := state c; client := client c; server := e;
     hostname := hostname c; listener := listener c |}.
Definition with_hostname (h : option string) (c : Connection) : Connection :=
  {| state := state c; client := client c; server := server c;
     hostname := h; listener := listener c |}.
Definition with_listener (l : option Listener) (c : Connection) : Connection :=
  {| state := state c; client := client c; server := server c;
     hostname := hostname c; listener := l |}.

(** ** The store *)

Definition ptr := positive.

(** Calls that leave the module, in the order they are made. *)
Inductive event :=
  | EvClose (fd : Z)
  | EvFreeStr (s : string)
  | EvFreeConn (p : ptr)
  | EvParse (bytes : list Byte.byte)
  | EvLookup (h : option string).

Record World := {
  heap : gmap ptr Connection;
  queue : list ptr;
  clock : nat;
  errno : Z;
  trace : list event
}.

Definition set_heap (h : gmap ptr Connection) (w : World) : World :=
  {| heap := h; queue := queue w; clock := clock w; errno := errno w;
     trace := trace w |}.
Definition set_queue (q : list ptr) (w : World) : World :=
  {| heap := heap w; queue := q; clock := clock w; errno := errno w;
     trace := trace w |}.
Definition set_clock (n : nat) (w : World) : World :=
  {| heap := heap w; queue := queue w; clock := n; errno := errno w;
     trace := trace w |}.
Definition set_errno (e : Z) (w : World) : World :=
  {| heap := heap w; queue := queue w; clock := clock w; errno := e;
     trace := trace w |}.
Definition set_trace (t : list event) (w : World) : World :=
  {| heap := heap w; queue := queue w; clock := clock w; errno := errno w;
     trace := t |}.

(** The results of the system calls.  Each call reads the environment at
    the current [clock] and advances the clock, so successive calls are
    independent of each other. *)
Record Env := {
  env_alloc : nat → bool;
  env_accept : nat → Z → Z * sockaddr_storage;
  env_recv : nat → Z → recv_outcome;
  env_send : nat → Z → send_outcome;
  env_lookup : nat → option string → Z;
  env_getpeername : nat → Z → sockaddr_storage
}.

(** ** The monad: state, and the ways C can go wrong *)

Inductive fault :=
  | NullPointer       (* dereference of NULL *)
  | DanglingPointer   (* dereference of an address that is not allocated *)
  | NotLinked         (* TAILQ_REMOVE of a record that is not in the queue *)
  | OutOfFuel.        (* the loop bound of the model was too small *)

Inductive result (A : Type) :=
  | Done (a : A) (w : World)
  | Fault (f : fault).
Arguments Done {A} a w.
Arguments Fault {A} f.

Definition M (A : Type) : Type := World → result A.

Definition M_ret {A} (a : A) : M A := λ w, Done a w.
Definition crash {A} (f : fault) : M A := λ _, Fault f.
Definition M_bind {A B} (k : A → M B) (m : M A) : M B :=
  λ w, match m w with
       | Done a w' => k a w'
       | Fault f => Fault f
       end.

(** The instances give [M] stdpp's monad notation: [x ← m; k] and
    [m;; k]. *)
Global Instance M_MRet : MRet M := @M_ret.
Global Instance M_MBind : MBind M := @M_bind.

Definition gets {A} (f : World → A) : M A := λ w, Done (f w) w.
Definition modify (f : World → World) : M unit := λ w, Done tt (f w).

(** [*p] *)
Definition deref (p : ptr) : M Connection :=
  λ w, match heap w !! p with
       | Some c => Done c w
       | None => Fault DanglingPointer
       end.

(** [*p = f( *p )] *)
Definition update (p : ptr) (f : Connection → Connection) : M unit :=
  c ← deref p;
  modify (λ w, set_heap (<[p := f c]> (heap w)) w).

Definition emit (e : event) : M unit :=
  modify (λ w, set_trace (trace w ++ [e]) w).

Definition tick : M nat :=
  λ w, Done (clock w) (set_clock (S (clock w)) w).

(** ** The queue: <sys/queue.h> tail queues as lists, head first *)

Definition tailq_remove (p : ptr) (q : list ptr) : list ptr :=
  filter (λ x, x ≠ p) q.

(** [TAILQ_NEXT(p, entries)] *)
Fixpoint tailq_next (q : list ptr) (p : ptr) : option ptr :=
  match q with
  | [] => None
  | x :: q' => if decide (x = p) then head q' else tailq_next q' p
  end.

(** [TAILQ_INSERT_HEAD(&connections, p, entries)] *)
Definition queue_insert_head (p : ptr) : M unit :=
  modify (λ w, set_queue (p :: queue w) w).

(** [TAILQ_REMOVE(&connections, p, entries)]: unlinking a record that is
    not linked is undefined. *)
Definition queue_remove (p : ptr) : M unit :=
  λ w, if decide (p ∈ queue w)
       then Done tt (set_queue (tailq_remove p (queue w)) w)
       else Fault NotLinked.

(** ** File descriptor sets *)

(** An [fd_set] of C has the bits 0 to FD_SETSIZE - 1.  The model keeps the
    set of the descriptors the macros were given, whatever their size:
    [FD_SET] and [FD_ISSET] of a descriptor that has no bit are undefined in
    C, and are not among the faults of the model.  [fd_valid] below names
    the descriptors that have a bit, and the theorems on what the program
    does with the sets say where they rely on it. *)
Definition fd_set := gset Z.

Definition FD_SET (fd : Z) (s : fd_set) : fd_set := {[fd]} ∪ s.
Definition FD_ISSET (fd : Z) (s : fd_set) : bool := bool_decide (fd ∈ s).

(** ** System calls *)

Section Operations.
Context `{Platform}.
Variable env : Env.

Definition IS_TEMPORARY_SOCKERR (e : Z) : bool :=
  (e =? EAGAIN) || (e =? EWOULDBLOCK) || (e =? EINTR).

Definition set_errno_opt (e : option Z) : M unit :=
  match e with
  | Some e => modify (set_errno e)
  | None => mret tt
  end.

(** [buffer_recv(b, fd, MSG_DONTWAIT)]: the return value and the buffer
    afterwards. *)
Definition sys_recv (fd : Z) (b : Buffer) : M (Z * Buffer) :=
  t ← tick;
  let r := buffer_recv b (env_recv env t fd) in
  set_errno_opt (r.1.2);;
  mret (r.1.1, r.2).

(** [buffer_send(b, fd, MSG_DONTWAIT)] *)
Definition sys_send (fd : Z) (b : Buffer) : M (Z * Buffer) :=
  t ← tick;
  let r := buffer_send b (env_send env t fd) in
  set_errno_opt (r.1.2);;
  mret (r.1.1, r.2).

(** [close(fd)]; its return value only decides whether a line is logged. *)
Definition sys_close (fd : Z) : M unit := emit (EvClose fd).

(** [free(s)] of a string; [free(NULL)] does nothing. *)
Definition free_str (s : option string) : M unit :=
  match s with
  | Some s => emit (EvFreeStr s)
  | None => mret tt
  end.

(** ** [connection.c] *)

(** [init_connections] *)
Definition init_connections : M unit :=
  modify (set_queue []).

(** [close_client_socket] *)
Definition close_client_socket (p : ptr) : M unit :=
  c ← deref p;
  sys_close (sockfd (client c));;
  (* next state depends on previous state *)
  c ← deref p;
  match state c with
  | CONNECTED => update p (with_state CLIENT_CLOSED)
  | _ => update p (with_state CLOSED)
  end.

(** [close_server_socket] *)
Definition close_server_socket (p : ptr) : M unit :=
  c ← deref p;
  sys_close (sockfd (server c));;
  c ← deref p;
  match state c with
  | CLIENT_CLOSED => update p (with_state CLOSED)
  | _ => update p (with_state SERVER_CLOSED)
  end.

(** [close_connection] *)
Definition close_connection (p : ptr) : M unit :=
  c ← deref p;
  match state c with
  | CONNECTED | ACCEPTED | SERVER_CLOSED => close_client_socket p
  | _ => mret tt
  end;;
  c ← deref p;
  match state c with
  | CONNECTED | CLIENT_CLOSED => close_server_socket p
  | _ => mret tt
  end.

(** [free_connection], for a record that is not NULL.  The buffers are
    part of the record and go with it. *)
Definition free_connection (p : ptr) : M unit :=
  close_connection p;;
  c ← deref p;
  free_str (hostname c);;
  emit (EvFreeConn p);;
  modify (λ w, set_heap (delete p (heap w)) w).

(** The address [calloc] hands out: one that is not in use. *)
Definition fresh_ptr (w : World) : ptr := fresh (dom (heap w)).

(** [new_connection]: [None] is the NULL it returns when an allocation
    fails.  A record whose buffers are still NULL holds empty buffers of
    capacity 0 until [new_buffer] succeeded. *)
Definition new_connection : M (option ptr) :=
  t ← tick;
  if negb (env_alloc env t) then mret None
  else
    p ← gets fresh_ptr;
    let null_buffer := {| cap := 0; data := [] |} in
    let blank := {| sockfd := 0; addr := []; buffer := null_buffer |} in
    modify (λ w, set_heap (<[p := {| state := NEW; client := blank;
                                    server := blank; hostname := None;
                                    listener := None |}]> (heap w)) w);;
    t ← tick;
    if negb (env_alloc env t) then free_connection p;; mret None
    else
      update p (λ c, with_client (with_buffer new_buffer (client c)) c);;
      t ← tick;
      if negb (env_alloc env t) then free_connection p;; mret None
      else
        update p (λ c, with_server (with_buffer new_buffer (server c)) c);;
        mret (Some p).

(** [accept_connection] *)
Definition accept_connection (l : Listener) : M unit :=
  oc ← new_connection;
  match oc with
  | None => mret tt
  | Some p =>
      t ← tick;
      let r := env_accept env t (l_sockfd l) in
      update p (λ c, with_client (with_addr r.2 (with_sockfd r.1 (client c))) c);;
      c ← deref p;
      if sockfd (client c) <? 0 then free_connection p
      else if sockfd (client c) >? FD_SETSIZE then
        (* must close explicitly since state is still NEW *)
        close_client_socket p;;
        free_connection p
      else
        update p (with_state ACCEPTED);;
        update p (with_listener (Some l));;
        queue_insert_head p
  end.

(** [free_connections] pops the head until the queue is empty; every
    round unlinks one record, so the length of the queue bounds the
    rounds. *)
Fixpoint free_connections_loop (fuel : nat) : M unit :=
  q ← gets queue;
  match head q with
  | None => mret tt
  | Some iter =>
      match fuel with
      | O => crash OutOfFuel
      | S fuel' =>
          queue_remove iter;;
          free_connection iter;;
          free_connections_loop fuel'
      end
  end.

Definition free_connections : M unit :=
  q ← gets queue;
  free_connections_loop (length q).

(** The [switch] of [fd_set_connections] on one record; [acc] is
    [(rfds, wfds, max)]. *)
Definition fd_set_accepted_arm (c : Connection) (acc : fd_set * fd_set * Z)
  : fd_set * fd_set * Z :=
  let '(rfds, wfds, max) := acc in
  let rfds := if (0 <? buffer_room (buffer (client c)))%nat
              then FD_SET (sockfd (client c)) rfds else rfds in
  let wfds := if (0 <? buffer_len (buffer (server c)))%nat
              then FD_SET (sockfd (client c)) wfds else wfds in
  (rfds, wfds, Z.max max (sockfd (client c))).

Definition fd_set_connection (c : Connection) (acc : fd_set * fd_set * Z)
  : fd_set * fd_set * Z :=
  let '(rfds, wfds, max) := acc in
  match state c with
  | CONNECTED =>
      let rfds := if (0 <? buffer_room (buffer (server c)))%nat
                  then FD_SET (sockfd (server c)) rfds else rfds in
      let wfds := if (0 <? buffer_len (buffer (client c)))%nat
                  then FD_SET (sockfd (server c)) wfds else wfds in
      (* Fall through *)
      fd_set_accepted_arm c (rfds, wfds, Z.max max (sockfd (server c)))
  | ACCEPTED => fd_set_accepted_arm c acc
  | SERVER_CLOSED =>
      (rfds, FD_SET (sockfd (client c)) wfds, Z.max max (sockfd (client c)))
  | CLIENT_CLOSED =>
      (rfds, FD_SET (sockfd (server c)) wfds, Z.max max (sockfd (server c)))
  | CLOSED => acc
  | NEW => acc (* default: only a warning is logged *)
  end.

(** [TAILQ_FOREACH] over a queue that the body does not change. *)
Fixpoint fd_set_walk (q : list ptr) (acc : fd_set * fd_set * Z)
  : M (fd_set * fd_set * Z) :=
  match q with
  | [] => mret acc
  | iter :: q' => c ← deref iter; fd_set_walk q' (fd_set_connection c acc)
  end.

(** [fd_set_connections]: the sets are in-out arguments, the new [max] is
    returned. *)
Definition fd_set_connections (rfds wfds : fd_set) (max : Z)
  : M (fd_set * fd_set * Z) :=
  q ← gets queue;
  fd_set_walk q (rfds, wfds, max).

(** [move_to_head_of_queue] *)
Definition move_to_head_of_queue (p : ptr) : M unit :=
  queue_remove p;;
  queue_insert_head p.

(** [handle_connection_client_hello] *)
Definition handle_connection_client_hello (p : ptr) : M unit :=
  c ← deref p;
  let bytes := buffer_peek (buffer (client c)) 1460 in
  l ← match listener c with
      | Some l => mret l
      | None => crash NullPointer
      end;
  emit (EvParse bytes);;
  let parse_result := (parse_packet l bytes).1 in
  let hostname := (parse_packet l bytes).2 in
  if parse_result =? -1 then mret tt (* incomplete request: try again *)
  else if parse_result =? -2 then close_connection p
  else if parse_result <? -2 then close_connection p
  else
    (* lookup server for hostname and connect *)
    emit (EvLookup hostname);;
    t ← tick;
    update p (λ c, with_server (with_sockfd (env_lookup env t hostname) (server c)) c);;
    c ← deref p;
    if sockfd (server c) <? 0 then
      close_connection p;;
      free_str hostname
    else if sockfd (server c) >? FD_SETSIZE then
      (* must close explicitly as state is not yet CONNECTED *)
      close_server_socket p;;
      close_connection p;;
      free_str hostname
    else
      update p (with_hostname hostname);;
      t ← tick;
      update p (λ c, with_server
                       (with_addr (env_getpeername env t (sockfd (server c)))
                                  (server c)) c);;
      update p (with_state CONNECTED).

(** [handle_connection_client_rx] *)
Definition handle_connection_client_rx (p : ptr) : M Z :=
  c ← deref p;
  r ← sys_recv (sockfd (client c)) (buffer (client c));
  update p (λ c, with_client (with_buffer r.2 (client c)) c);;
  e ← gets errno;
  if (r.1 <? 0) && negb (IS_TEMPORARY_SOCKERR e) then mret 1
  else if r.1 =? 0 then mret 1 (* Client closed socket *)
  else
    c ← deref p;
    (if decide (state c = ACCEPTED)
     then handle_connection_client_hello p else mret tt);;
    move_to_head_of_queue p;;
    mret 0.

(** [handle_connection_client_tx] *)
Definition handle_connection_client_tx (p : ptr) : M Z :=
  c ← deref p;
  r ← sys_send (sockfd (client c)) (buffer (server c));
  update p (λ c, with_server (with_buffer r.2 (server c)) c);;
  e ← gets errno;
  if (r.1 <? 0) && negb (IS_TEMPORARY_SOCKERR e) then mret 1
  else
    move_to_head_of_queue p;;
    mret 0.

(** [handle_connection_server_rx] *)
Definition handle_connection_server_rx (p : ptr) : M Z :=
  c ← deref p;
  r ← sys_recv (sockfd (server c)) (buffer (server c));
  update p (λ c, with_server (with_buffer r.2 (server c)) c);;
  e ← gets errno;
  if (r.1 <? 0) && negb (IS_TEMPORARY_SOCKERR e) then mret 1
  else if r.1 =? 0 then mret 1 (* Server closed socket *)
  else
    move_to_head_of_queue p;;
    mret 0.

(** [handle_connection_server_tx] *)
Definition handle_connection_server_tx (p : ptr) : M Z :=
  c ← deref p;
  r ← sys_send (sockfd (server c)) (buffer (client c));
  update p (λ c, with_client (with_buffer r.2 (client c)) c);;
  e ← gets errno;
  if (r.1 <? 0) && negb (IS_TEMPORARY_SOCKERR e) then mret 1
  else
    move_to_head_of_queue p;;
    mret 0.

(** The server half of the [CONNECTED] arm of [handle_connections]. *)
Definition dispatch_server_half (rfds wfds : fd_set) (iter : ptr) : M unit :=
  c ← deref iter;
  err ← (if FD_ISSET (sockfd (server c)) rfds
            && (0 <? buffer_room (buffer (server c)))%nat
         then handle_connection_server_rx iter else mret 0);
  c ← deref iter;
  err ← (if (err =? 0) && FD_ISSET (sockfd (server c)) wfds
            && (0 <? buffer_len (buffer (client c)))%nat
         then handle_connection_server_tx iter else mret err);
  if err =? 0 then mret tt else close_server_socket iter.

(** The [ACCEPTED] arm, which the [CONNECTED] arm falls through to. *)
Definition dispatch_client_half (rfds wfds : fd_set) (iter : ptr) : M unit :=
  c ← deref iter;
  err ← (if FD_ISSET (sockfd (client c)) rfds
            && (0 <? buffer_room (buffer (client c)))%nat
         then handle_connection_client_rx iter else mret 0);
  c ← deref iter;
  err ← (if (err =? 0) && FD_ISSET (sockfd (client c)) wfds
            && (0 <? buffer_len (buffer (server c)))%nat
         then handle_connection_client_tx iter else mret err);
  if err =? 0 then mret tt else close_client_socket iter.

(** The body of the loop of [handle_connections]. *)
Definition dispatch (rfds wfds : fd_set) (iter : ptr) : M unit :=
  c ← deref iter;
  match state c with
  | CONNECTED =>
      dispatch_server_half rfds wfds iter;;
      (* Fall through *)
      dispatch_client_half rfds wfds iter
  | ACCEPTED => dispatch_client_half rfds wfds iter
  | SERVER_CLOSED =>
      err ← (if FD_ISSET (sockfd (client c)) wfds
                && (0 <? buffer_len (buffer (server c)))%nat
             then handle_connection_client_tx iter else mret 0);
      c ← deref iter;
      if negb (err =? 0) || (buffer_len (buffer (server c)) =? 0)%nat
      then close_client_socket iter else mret tt
  | CLIENT_CLOSED =>
      err ← (if FD_ISSET (sockfd (server c)) wfds
                && (0 <? buffer_len (buffer (client c)))%nat
             then handle_connection_server_tx iter else mret 0);
      c ← deref iter;
      if negb (err =? 0) || (buffer_len (buffer (client c)) =? 0)%nat
      then close_server_socket iter else mret tt
  | CLOSED =>
      queue_remove iter;;
      free_connection iter
  | NEW => mret tt (* default: only a warning is logged *)
  end.

(** [TAILQ_FOREACH_SAFE(iter, &connections, entries, tmp)]: the successor
    is read before the body runs, so the body may unlink or move [iter]. *)
Fixpoint foreach_safe (body : ptr → M unit) (fuel : nat) (iter : option ptr)
  : M unit :=
  match iter with
  | None => mret tt
  | Some p =>
      match fuel with
      | O => crash OutOfFuel
      | S fuel' =>
          tmp ← gets (λ w, tailq_next (queue w) p);
          body p;;
          foreach_safe body fuel' tmp
      end
  end.

(** [handle_connections]: the loop visits each record at most once, so
    the length of the queue bounds its rounds. *)
Definition handle_connections (rfds wfds : fd_set) : M unit :=
  q ← gets queue;
  foreach_safe (dispatch rfds wfds) (length q) (head q).

End Operations.

(** ** What a call leaves alone *)

(** [evolves p w w']: between [w] and [w'] only the record at [p] was
    written, and the queue is as before or has [p] moved to its head. *)
Definition evolves (p : ptr) (w w' : World) : Prop :=
  (∀ q, q ≠ p → heap w' !! q = heap w !! q) ∧
  (queue w' = queue w ∨ queue w' = p :: tailq_remove p (queue w)).

(** [hoare p P m Q]: run on a store where the record at [p] is allocated,
    linked and satisfies [P], the call [m] returns, writes nothing but
    that record and the queue position of [p], and leaves the record in
    [Q].  Total correctness: a fault or a loop that runs out is excluded. *)
Definition hoare {A} (p : ptr) (P : Connection → Prop) (m : M A)
    (Q : A → Connection → Prop) : Prop :=
  ∀ w c, heap w !! p = Some c → p ∈ queue w → P c →
    ∃ a w' c', m w = Done a w' ∧ evolves p w w' ∧
               heap w' !! p = Some c' ∧ Q a c'.

(** The record-level effect of the transfer steps: a receive replaces
    the buffer it fills, a send leaves no more bytes than it found. *)
Definition client_buffer_changed (c c' : Connection) : Prop :=
  ∃ b, c' = with_client (with_buffer b (client c)) c.
Definition server_buffer_changed (c c' : Connection) : Prop :=
  ∃ b, c' = with_server (with_buffer b (server c)) c.
Definition sent_from_client_buffer (c c' : Connection) : Prop :=
  ∃ b, c' = with_client (with_buffer b (client c)) c ∧
       (buffer_len b ≤ buffer_len (buffer (client c)))%nat.
Definition sent_from_server_buffer (c c' : Connection) : Prop :=
  ∃ b, c' = with_server (with_buffer b (server c)) c ∧
       (buffer_len b ≤ buffer_len (buffer (server c)))%nat.

(** The state [close_client_socket] and [close_server_socket] move to. *)
Definition after_client_close (s : State) : State :=
  match s with CONNECTED => CLIENT_CLOSED | _ => CLOSED end.
Definition after_server_close (s : State) : State :=
  match s with CLIENT_CLOSED => CLOSED | _ => SERVER_CLOSED end.

(** The four ways [handle_connection_client_hello] can leave an
    [ACCEPTED] record: untouched, closed after a rejected parse, closed
    after the upstream socket was refused, or connected. *)
Definition hello_outcome (c c' : Connection) : Prop :=
  c' = c ∨
  c' = with_state CLOSED c ∨
  (∃ fd, c' = with_state CLOSED (with_server (with_sockfd fd (server c)) c)) ∨
  (∃ l bytes fd a,
      listener c = Some l ∧ 0 ≤ (parse_packet l bytes).1 ∧
      c' = with_state CONNECTED
             (with_server (with_addr a (with_sockfd fd (server c)))
                (with_hostname (parse_packet l bytes).2 c))).

(** [put p c' evs w]: the store [w] with the record at [p] replaced by
    [c'] and the calls [evs] appended to the trace. *)
Definition put (p : ptr) (c' : Connection) (evs : list event) (w : World)
  : World :=
  set_heap (<[p := c']> (heap w)) (set_trace (trace w ++ evs) w).

(** [spend n w]: the store after [n] system calls read the environment. *)
Definition spend (n : nat) (w : World) : World :=
  set_clock (n + clock w) w.

(** The store after a [recv] or [send] that left [e] in [errno]. *)
Definition io_world (e : option Z) (w : World) : World :=
  match e with
  | Some e => set_errno e (spend 1 w)
  | None => spend 1 w
  end.

(** The call that releases an owned string. *)
Definition str_frees (h : option string) : list event :=
  match h with
  | Some s => [EvFreeStr s]
  | None => []
  end.

(** The record [close_connection] leaves, and the sockets it closes. *)
Definition closed_record (c : Connection) : Connection :=
  match state c with
  | NEW | CLOSED => c
  | _ => with_state CLOSED c
  end.
Definition closing_events (c : Connection) : list event :=
  match state c with
  | CONNECTED => [EvClose (sockfd (client c)); EvClose (sockfd (server c))]
  | ACCEPTED | SERVER_CLOSED => [EvClose (sockfd (client c))]
  | CLIENT_CLOSED => [EvClose (sockfd (server c))]
  | NEW | CLOSED => []
  end.

(** What [handle_connection_client_rx] can do to a record: fill the
    client buffer and, for an [ACCEPTED] record, run the client hello. *)
Definition rx_outcome (c c' : Connection) : Prop :=
  ∃ c1, client_buffer_changed c c1 ∧
        (c' = c1 ∨ (state c = ACCEPTED ∧ hello_outcome c1 c')).

(** The two halves of a visit of [handle_connections]. *)
Definition client_half_outcome (c c' : Connection) : Prop :=
  ∃ c1 c2, rx_outcome c c1 ∧ sent_from_server_buffer c1 c2 ∧
           (c' = c2 ∨ c' = with_state (after_client_close (state c2)) c2).
Definition server_half_outcome (c c' : Connection) : Prop :=
  ∃ c1 c2, server_buffer_changed c c1 ∧ sent_from_client_buffer c1 c2 ∧
           (c' = c2 ∨ c' = with_state (after_server_close (state c2)) c2).

(** What one visit of [handle_connections] does to a record that is not
    [CLOSED], by the state it is found in. *)
Definition dispatch_outcome (c c' : Connection) : Prop :=
  match state c with
  | NEW => c' = c
  | ACCEPTED => client_half_outcome c c'
  | CONNECTED => ∃ cm, server_half_outcome c cm ∧ client_half_outcome cm c'
  | SERVER_CLOSED =>
      ∃ c1, sent_from_server_buffer c c1 ∧
            ((c' = c1 ∧ (0 < buffer_len (buffer (server c1)))%nat) ∨
             c' = with_state (after_client_close (state c1)) c1)
  | CLIENT_CLOSED =>
      ∃ c1, sent_from_client_buffer c c1 ∧
            ((c' = c1 ∧ (0 < buffer_len (buffer (client c1)))%nat) ∨
             c' = with_state (after_server_close (state c1)) c1)
  | CLOSED => False
  end.

(** [visit p w w']: what the loop body of [handle_connections] does at
    [p]: a [CLOSED] record is unlinked and released, any other record is
    rewritten as [dispatch_outcome] says and may move to the head.  The
    other records are not touched. *)
Definition visit (p : ptr) (w w' : World) : Prop :=
  ∃ c, heap w !! p = Some c ∧
       (∀ q, q ≠ p → heap w' !! q = heap w !! q) ∧
       if decide (state c = CLOSED)
       then heap w' !! p = None ∧ queue w' = tailq_remove p (queue w)
       else (∃ c', heap w' !! p = Some c' ∧ dispatch_outcome c c') ∧
            (queue w' = queue w ∨ queue w' = p :: tailq_remove p (queue w)).

(** A run of a loop body over a list of records, one after the other. *)
Inductive walk (body : ptr → World → World → Prop)
  : list ptr → World → World → Prop :=
  | walk_nil w : walk body [] w w
  | walk_cons p l w w' w'' :
      body p w w' → walk body l w' w'' → walk body (p :: l) w w''.

(** The queue is a list of distinct, allocated records, and an
    [ACCEPTED] record knows its listener. *)
Definition linked_ok (w : World) : Prop :=
  NoDup (queue w) ∧
  ∀ p, p ∈ queue w →
    ∃ c, heap w !! p = Some c ∧ (state c = ACCEPTED → is_Some (listener c)).

(** One round of the loop of [handle_connections]: the body returns,
    and what it did is a [visit]. *)
Definition visited `{Platform} (env : Env) (rfds wfds : fd_set)
    (p : ptr) (w w' : World) : Prop :=
  dispatch env rfds wfds p w = Done tt w' ∧ visit p w w'.

(** ** Reachable stores *)

(** The store when the program starts. *)
Definition empty_world : World :=
  {| heap := ∅; queue := []; clock := 0; errno := 0; trace := [] |}.

(** The stores the public functions of [connection.c] can produce, with
    any results of the system calls, when connections are accepted on
    listeners that satisfy [L].  [fd_set_connections] and
    [print_connections] do not write the store. *)
Inductive reachable `{Platform} (L : Listener → Prop) : World → Prop :=
  | reach_start : reachable L empty_world
  | reach_init w w' :
      reachable L w → init_connections w = Done tt w' → reachable L w'
  | reach_accept env l w w' :
      reachable L w → L l → accept_connection env l w = Done tt w' →
      reachable L w'
  | reach_handle env rfds wfds w w' :
      reachable L w → handle_connections env rfds wfds w = Done tt w' →
      reachable L w'
  | reach_free w w' :
      reachable L w → free_connections w = Done tt w' → reachable L w'.

(** The states in which the upstream has been chosen. *)
Definition names_upstream (s : State) : Prop :=
  s = CONNECTED ∨ s = CLIENT_CLOSED ∨ s = SERVER_CLOSED.

(** The hostname of a record is what a successful parse by its listener
    returned, and it is set only once the upstream was chosen. *)
Definition hostname_ok (c : Connection) : Prop :=
  (hostname c ≠ None → names_upstream (state c) ∨ state c = CLOSED) ∧
  (names_upstream (state c) →
     ∃ l bytes, listener c = Some l ∧ 0 ≤ (parse_packet l bytes).1 ∧
                hostname c = (parse_packet l bytes).2).

(** What holds of every allocated record between two calls. *)
Definition record_ok `{Platform} (L : Listener → Prop) (c : Connection)
  : Prop :=
  state c ≠ NEW ∧
  (∃ l, listener c = Some l ∧ L l) ∧
  0 ≤ sockfd (client c) ≤ FD_SETSIZE ∧
  hostname_ok c.

(** Between two calls the queue holds distinct, allocated records, and
    every allocated record is in order. *)
Definition inv `{Platform} (L : Listener → Prop) (w : World) : Prop :=
  NoDup (queue w) ∧
  (∀ p, p ∈ queue w → is_Some (heap w !! p)) ∧
  (∀ p c, heap w !! p = Some c → record_ok L c).

(** The record [accept_connection] links. *)
Definition accepted_record `{Platform} (l : Listener) (fd : Z)
    (a : sockaddr_storage) : Connection :=
  {| state := ACCEPTED;
     client := {| sockfd := fd; addr := a; buffer := new_buffer |};
     server := {| sockfd := 0; addr := []; buffer := new_buffer |};
     hostname := None; listener := Some l |}.
(** The record [new_connection] hands out. *)
Definition new_record `{Platform} : Connection :=
  {| state := NEW;
     client := {| sockfd := 0; addr := []; buffer := new_buffer |};
     server := {| sockfd := 0; addr := []; buffer := new_buffer |};
     hostname := None; listener := None |}.
(** ** The words of the specification *)

(** "errno is not in {EAGAIN, EWOULDBLOCK, EINTR}" *)
Definition temporary `{Platform} (e : Z) : Prop :=
  e = EAGAIN ∨ e = EWOULDBLOCK ∨ e = EINTR.

(** "Return failure if result <0 and errno is not temporary, or if
    result == 0", and the same for a send "except result == 0 is not
    fatal". *)
Definition rx_fails `{Platform} (n e : Z) : Prop :=
  (n < 0 ∧ ¬ temporary e) ∨ n = 0.
Definition tx_fails `{Platform} (n e : Z) : Prop :=
  n < 0 ∧ ¬ temporary e.

(** What a transfer step is said to return on the result [n], [errno]
    being [e] afterwards: 1 exactly on failure, else 0 with the
    connection at the head of the queue. *)
Definition step_verdict (fails : Prop) (p : ptr) (w : World)
    (ret : Z) (w' : World) : Prop :=
  (ret = 1 ∨ ret = 0) ∧ (ret = 1 ↔ fails) ∧
  (ret = 0 → queue w' = p :: tailq_remove p (queue w)).
(** "No connection in the list has state CLOSED." *)
Definition no_closed_linked (w : World) : Prop :=
  ∀ p c, p ∈ queue w → heap w !! p = Some c → state c ≠ CLOSED.

(** A sequence of dispatch ticks, each with its own readiness sets. *)
Fixpoint run_ticks `{Platform} (env : Env) (ticks : list (fd_set * fd_set))
  : M unit :=
  match ticks with
  | [] => mret tt
  | t :: ticks' => handle_connections env t.1 t.2;; run_ticks env ticks'
  end.

(** A listener whose parser, when it succeeds, stores a hostname that is
    not the empty string. *)
Definition parser_names_host (l : Listener) : Prop :=
  ∀ bytes, 0 ≤ (parse_packet l bytes).1 →
    ∃ s, (parse_packet l bytes).2 = Some s ∧ s ≠ EmptyString.
(** The readiness table of the specification, row by row: the
    descriptors a connection asks to have watched for reading and for
    writing. *)
Definition table_R (c : Connection) : list Z :=
  match state c with
  | ACCEPTED =>
      if (0 <? buffer_room (buffer (client c)))%nat
      then [sockfd (client c)] else []
  | CONNECTED =>
      (if (0 <? buffer_room (buffer (client c)))%nat
       then [sockfd (client c)] else []) ++
      (if (0 <? buffer_room (buffer (server c)))%nat
       then [sockfd (server c)] else [])
  | _ => []
  end.
Definition table_W (c : Connection) : list Z :=
  match state c with
  | ACCEPTED =>
      if (0 <? buffer_len (buffer (server c)))%nat
      then [sockfd (client c)] else []
  | CONNECTED =>
      (if (0 <? buffer_len (buffer (server c)))%nat
       then [sockfd (client c)] else []) ++
      (if (0 <? buffer_len (buffer (client c)))%nat
       then [sockfd (server c)] else [])
  | SERVER_CLOSED => [sockfd (client c)]
  | CLIENT_CLOSED => [sockfd (server c)]
  | _ => []
  end.

(** "The maximum of the input value and all added fds." *)
Definition max_added (max : Z) (cs : list Connection) : Z :=
  foldl Z.max max (concat ((λ c, table_R c ++ table_W c) <$> cs)).

(** The sockets a connection has open in its state, added or not. *)
Definition open_sockets (c : Connection) : list Z :=
  match state c with
  | CONNECTED => [sockfd (server c); sockfd (client c)]
  | ACCEPTED | SERVER_CLOSED => [sockfd (client c)]
  | CLIENT_CLOSED => [sockfd (server c)]
  | _ => []
  end.

(** The maximum of the input value and the open sockets. *)
Definition max_open (max : Z) (cs : list Connection) : Z :=
  foldl Z.max max (concat (open_sockets <$> cs)).

(** ** A small scenario *)

(** The scenario of the examples below: one client on descriptor 5, whose
    first three bytes name the upstream [svc.example], reached on
    descriptor 7. *)
Definition hello_bytes : list Byte.byte := [Byte.x16; Byte.x03; Byte.x01].

Definition svc : string := "svc.example".

(** A parser that needs at least one byte and then always finds [svc]. *)
Definition sni_listener : Listener :=
  {| l_sockfd := 3;
     parse_packet := λ bytes,
       match bytes with
       | [] => (-1, None)
       | _ => (11, Some svc)
       end |}.

(** A parser that never has enough. *)
Definition slow_listener : Listener :=
  {| l_sockfd := 3; parse_packet := λ _, (-1, None) |}.

(** Peers that deliver [hello_bytes] on the first receives and take what
    is sent. *)
Definition env_data : Env :=
  {| env_alloc := λ _, true;
     env_accept := λ _ _, (5, []);
     env_recv := λ t _,
       if (t <=? 7)%nat then RecvData hello_bytes else RecvData [];
     env_send := λ _ _, SendTook 3;
     env_lookup := λ _ _, 7;
     env_getpeername := λ _ _, [] |}.

(** Peers that have closed: every receive is at the end of the stream. *)
Definition env_eof : Env :=
  {| env_alloc := λ _, true;
     env_accept := λ _ _, (5, []);
     env_recv := λ _ _, RecvData [];
     env_send := λ _ _, SendTook 0;
     env_lookup := λ _ _, 7;
     env_getpeername := λ _ _, [] |}.

(** Sockets that are not ready: every receive fails with EAGAIN. *)
Definition env_again : Env :=
  {| env_alloc := λ _, true;
     env_accept := λ _ _, (5, []);
     env_recv := λ _ _, RecvErr 11;
     env_send := λ _ _, SendErr 11;
     env_lookup := λ _ _, 7;
     env_getpeername := λ _ _, [] |}.

(** A client that floods: every receive offers 5000 bytes. *)
Definition env_flood : Env :=
  {| env_alloc := λ _, true;
     env_accept := λ _ _, (5, []);
     env_recv := λ _ _, RecvData (replicate 5000 Byte.x00);
     env_send := λ _ _, SendTook 0;
     env_lookup := λ _ _, 7;
     env_getpeername := λ _ _, [] |}.

(** A process that has run out of low descriptors. *)
Definition env_crowded : Env :=
  {| env_alloc := λ _, true;
     env_accept := λ _ _, (2000, []);
     env_recv := λ _ _, RecvData [];
     env_send := λ _ _, SendTook 0;
     env_lookup := λ _ _, 7;
     env_getpeername := λ _ _, [] |}.

(** The record of the client in a given state. *)
Definition record_at (l : Listener) (s : State) (cdata sdata : list Byte.byte)
    (sfd : Z) (h : option string) : Connection :=
  {| state := s;
     client := {| sockfd := 5; addr := [];
                  buffer := {| cap := 4096; data := cdata |} |};
     server := {| sockfd := sfd; addr := [];
                  buffer := {| cap := 4096; data := sdata |} |};
     hostname := h; listener := Some l |}.

(** A store with that one record linked. *)
Definition world_of (c : Connection) (k : nat) (t : list event) : World :=
  {| heap := {[1%positive := c]}; queue := [1%positive]; clock := k;
     errno := 0; trace := t |}.

Definition c_accepted := record_at sni_listener ACCEPTED [] [] 0 None.
Definition c_hello := record_at sni_listener ACCEPTED hello_bytes [] 0 None.
Definition c_connected :=
  record_at sni_listener CONNECTED hello_bytes [] 7 (Some svc).
Definition c_flowing :=
  record_at sni_listener CONNECTED [] hello_bytes 7 (Some svc).
Definition c_server_closed :=
  record_at sni_listener SERVER_CLOSED [] hello_bytes 7 (Some svc).
Definition c_closed_named :=
  record_at sni_listener CLOSED hello_bytes [] 7 (Some svc).
Definition c_closed := record_at sni_listener CLOSED [] [] 0 None.
Definition c_full :=
  record_at slow_listener ACCEPTED (replicate 4096 Byte.x00) [] 0 None.

Definition hello_trace : list event :=
  [EvParse hello_bytes; EvLookup (Some svc)].

Definition w_accepted := world_of c_accepted 4 [].
Definition w_hello := world_of c_hello 5 [].
Definition w_connected := world_of c_connected 7 hello_trace.
Definition w_flowing := world_of c_flowing 9 hello_trace.
Definition w_server_closed :=
  world_of c_server_closed 10 (hello_trace ++ [EvClose 7]).
Definition w_closed_named :=
  world_of c_closed_named 9 (hello_trace ++ [EvClose 7; EvClose 5]).
Definition w_closed := world_of c_closed 5 [EvClose 5].
Definition w_full :=
  world_of c_full 5 [EvParse (replicate 1460 Byte.x00)].

(** [linked_ok] as a boolean function, for concrete stores. *)
Definition linked_okb (w : World) : bool :=
  bool_decide (NoDup (queue w)) &&
  forallb (λ p, match heap w !! p with
                | Some c =>
                    match state c, listener c with
                    | ACCEPTED, None => false
                    | _, _ => true
                    end
                | None => false
                end) (queue w).

(** ** Releasing records *)

(** The calls [free_connection] makes for the record [c] at [p]: the
    closes of [close_connection], the release of the hostname, and the
    release of the record. *)
Definition release_events (c : Connection) (p : ptr) : list event :=
  closing_events c ++ str_frees (hostname c) ++ [EvFreeConn p].
(** ** The state machine *)

(** The states a record can be found in after a visit of
    [handle_connections] that found it in state [s]. *)
Definition tick_edge (s s' : State) : Prop :=
  match s with
  | NEW => s' = NEW
  | ACCEPTED =>
      s' = ACCEPTED ∨ s' = CONNECTED ∨ s' = CLIENT_CLOSED ∨ s' = CLOSED
  | CONNECTED =>
      s' = CONNECTED ∨ s' = CLIENT_CLOSED ∨ s' = SERVER_CLOSED ∨ s' = CLOSED
  | SERVER_CLOSED => s' = SERVER_CLOSED ∨ s' = CLOSED
  | CLIENT_CLOSED => s' = CLIENT_CLOSED ∨ s' = CLOSED
  | CLOSED => False
  end.
(** ** Invariants of a record *)

(** Once the upstream has been chosen, the server descriptor is one that
    got past the FD_SETSIZE test of the client hello. *)
Definition upstream_ok `{Platform} (c : Connection) : Prop :=
  names_upstream (state c) → 0 ≤ sockfd (server c) ≤ FD_SETSIZE.

(** The server side of a record that is still ACCEPTED has not been used. *)
Definition accepted_blank (c : Connection) : Prop :=
  state c = ACCEPTED →
  hostname c = None ∧ sockfd (server c) = 0 ∧ addr (server c) = [] ∧
  buffer_len (buffer (server c)) = 0%nat.
(** ** Bytes in transit *)

(** [appended b b']: [b'] is [b] with bytes added at the end. *)
Definition appended (b b' : Buffer) : Prop :=
  cap b' = cap b ∧ data b `prefix_of` data b'.

(** [consumed b b']: [b'] is [b] with bytes taken from the front. *)
Definition consumed (b b' : Buffer) : Prop :=
  cap b' = cap b ∧ data b' `suffix_of` data b.
(** ** Leaks *)

(** Every allocated record is linked: nothing is out of reach of
    [free_connections]. *)
Definition no_leak (w : World) : Prop :=
  ∀ p, is_Some (heap w !! p) → p ∈ queue w.
(** ** More of the scenario *)

(** A listening socket on which [accept] fails. *)
Definition env_refused : Env :=
  {| env_alloc := λ _, true;
     env_accept := λ _ _, (-1, []);
     env_recv := λ _ _, RecvData [];
     env_send := λ _ _, SendTook 0;
     env_lookup := λ _ _, 7;
     env_getpeername := λ _ _, [] |}.

(** A process with so many descriptors that the upstream socket is
    number 2000. *)
Definition env_far : Env :=
  {| env_alloc := λ _, true;
     env_accept := λ _ _, (5, []);
     env_recv := λ _ _, RecvData [];
     env_send := λ _ _, SendTook 0;
     env_lookup := λ _ _, 2000;
     env_getpeername := λ _ _, [] |}.

Definition c_client_closed :=
  record_at sni_listener CLIENT_CLOSED hello_bytes [] 7 (Some svc).
Definition w_client_closed :=
  world_of c_client_closed 9 (hello_trace ++ [EvClose 5]).

(** Two clients: the older one connected, the newer one just accepted. *)
Definition w_pair : World :=
  {| heap := {[1%positive := c_connected; 2%positive := c_accepted]};
     queue := [2%positive; 1%positive]; clock := 11; errno := 0;
     trace := hello_trace |}.

(** ** Send errors *)

(** "send error": the send answered [o] to a buffer [b] failed, with an
    [errno] that is not temporary. *)
Definition send_error `{Platform} (b : Buffer) (o : send_outcome) : Prop :=
  match (buffer_send b o).1 with
  | (n, Some e) => tx_fails n e
  | (_, None) => False
  end.

(** The SERVER_CLOSED arm attempted a send at time [t] and it failed. *)
Definition client_send_failed `{Platform} (env : Env) (wfds : fd_set)
    (c : Connection) (t : nat) : Prop :=
  FD_ISSET (sockfd (client c)) wfds = true ∧
  (0 < buffer_len (buffer (server c)))%nat ∧
  send_error (buffer (server c)) (env_send env t (sockfd (client c))).

(** ** The size of an [fd_set] *)

(** The descriptors an [fd_set] of C has a bit for. *)
Definition fd_valid `{Platform} (fd : Z) : Prop := 0 ≤ fd < FD_SETSIZE.

(** No linked record has the descriptor [FD_SETSIZE] itself open: the one
    value that the tests of [accept_connection] and of the client hello
    ([> FD_SETSIZE]) let through and that an [fd_set] has no bit for. *)
Definition no_edge_fd `{Platform} (w : World) : Prop :=
  ∀ p c, p ∈ queue w → heap w !! p = Some c → FD_SETSIZE ∉ open_sockets c.

(** Two sets with the same bits. *)
Definition same_bits `{Platform} (s s' : fd_set) : Prop :=
  ∀ fd, fd_valid fd → (fd ∈ s ↔ fd ∈ s').

(** Two pairs of readiness sets answer alike at [fd]. *)
Definition agree_at (rfds wfds rfds' wfds' : fd_set) (fd : Z) : Prop :=
  FD_ISSET fd rfds = FD_ISSET fd rfds' ∧ FD_ISSET fd wfds = FD_ISSET fd wfds'.

(** ** A second listener, and awkward peers *)

(** A parser that succeeds, as soon as there is a byte, with a hostname
    that is the empty string. *)
Definition blank_listener : Listener :=
  {| l_sockfd := 4;
     parse_packet := λ bytes,
       match bytes with
       | [] => (-1, None)
       | _ => (0, Some EmptyString)
       end |}.

(** Two clients, on descriptors 5 and 6, that both send [hello_bytes];
    the upstream of [svc] is reached on descriptor 7, any other on 8. *)
Definition env_two : Env :=
  {| env_alloc := λ _, true;
     env_accept := λ t _, if (t <=? 3)%nat then (5, []) else (6, []);
     env_recv := λ _ _, RecvData hello_bytes;
     env_send := λ _ _, SendTook 0;
     env_lookup := λ _ h, if decide (h = Some svc) then 7 else 8;
     env_getpeername := λ _ _, [] |}.

(** A peer to which every send fails with EPIPE. *)
Definition env_broken : Env :=
  {| env_alloc := λ _, true;
     env_accept := λ _ _, (5, []);
     env_recv := λ _ _, RecvData [];
     env_send := λ _ _, SendErr 32;
     env_lookup := λ _ _, 7;
     env_getpeername := λ _ _, [] |}.

(** A process whose next descriptor is FD_SETSIZE on Linux. *)
Definition env_edge : Env :=
  {| env_alloc := λ _, true;
     env_accept := λ _ _, (1024, []);
     env_recv := λ _ _, RecvData [];
     env_send := λ _ _, SendTook 0;
     env_lookup := λ _ _, 7;
     env_getpeername := λ _ _, [] |}.

Definition endpoint_at (fd : Z) (bs : list Byte.byte) : Endpoint :=
  {| sockfd := fd; addr := []; buffer := {| cap := 4096; data := bs |} |}.

(** The first client came in on [blank_listener], the second on
    [sni_listener]; both have sent their hello and are connected. *)
Definition c_blank : Connection :=
  {| state := CONNECTED; client := endpoint_at 5 hello_bytes;
     server := endpoint_at 8 []; hostname := Some EmptyString;
     listener := Some blank_listener |}.
Definition c_named : Connection :=
  {| state := CONNECTED; client := endpoint_at 6 hello_bytes;
     server := endpoint_at 7 []; hostname := Some svc;
     listener := Some sni_listener |}.
Definition a_blank : Connection :=
  {| state := ACCEPTED; client := endpoint_at 5 [];
     server := endpoint_at 0 []; hostname := None;
     listener := Some blank_listener |}.
Definition a_named : Connection :=
  {| state := ACCEPTED; client := endpoint_at 6 [];
     server := endpoint_at 0 []; hostname := None;
     listener := Some sni_listener |}.
Definition w_one : World :=
  {| heap := {[1%positive := a_blank]}; queue := [1%positive];
     clock := 4; errno := 0; trace := [] |}.
Definition w_two : World :=
  {| heap := {[1%positive := a_blank; 2%positive := a_named]};
     queue := [2%positive; 1%positive]; clock := 8; errno := 0;
     trace := [] |}.
Definition w_mixed : World :=
  {| heap := {[1%positive := c_blank; 2%positive := c_named]};
     queue := [1%positive; 2%positive]; clock := 14; errno := 0;
     trace := [EvParse hello_bytes; EvLookup (Some svc);
               EvParse hello_bytes; EvLookup (Some EmptyString)] |}.

(** * Verification *)

(** ** Running the monad *)

Lemma bind_done {A B} (m : M A) (k : A → M B) w a w' :
  m w = Done a w' → (m ≫= k) w = k a w'.
Proof. intros E. unfold mbind, M_MBind, M_bind. by rewrite E. Qed.

Lemma bind_inv {A B} (m : M A) (k : A → M B) w b w'' :
  (m ≫= k) w = Done b w'' → ∃ a w', m w = Done a w' ∧ k a w' = Done b w''.
Proof.
  unfold mbind, M_MBind, M_bind. destruct (m w) as [a w'|f]; [eauto | done].
Qed.

Lemma deref_done p c w : heap w !! p = Some c → deref p w = Done c w.
Proof. intros E. unfold deref. by rewrite E. Qed.

Lemma update_done p f c w :
  heap w !! p = Some c →
  update p f w = Done tt (set_heap (<[p := f c]> (heap w)) w).
Proof.
  intros E. unfold update.
  by rewrite (bind_done _ _ _ _ _ (deref_done _ _ _ E)).
Qed.

(** [mrun] pushes a store through a sequence of calls whose outcome is
    known: field reads, dereferences and updates of allocated records. *)
Ltac mfields :=
  cbn [heap queue clock errno trace set_heap set_queue set_clock set_errno
       set_trace state client server hostname listener sockfd addr buffer
       with_state with_client with_server with_hostname with_listener
       with_sockfd with_addr with_buffer fst snd].

Ltac mrun :=
  repeat first
    [ progress mfields
    | rewrite lookup_insert_eq
    | erewrite bind_done;
        [| first [ eapply deref_done | eapply update_done ];
           mfields; first [ eassumption | apply lookup_insert_eq ] ]
    | erewrite bind_done; [| reflexivity ] ].

(** [outcome_cases] splits an outcome relation into the record updates
    it stands for. *)
Ltac outcome_cases :=
  unfold client_half_outcome, server_half_outcome, rx_outcome, hello_outcome,
    client_buffer_changed, server_buffer_changed, sent_from_client_buffer,
    sent_from_server_buffer in *;
  repeat match goal with
         | H : ∃ _, _ |- _ => destruct H as [? H]
         | H : _ ∧ _ |- _ => destruct H as [? H]
         | H : _ ∨ _ |- _ => destruct H as [H | H]
         end;
  simplify_eq; mfields.

(** ** Stores *)

Lemma world_ext w1 w2 :
  heap w1 = heap w2 → queue w1 = queue w2 → clock w1 = clock w2 →
  errno w1 = errno w2 → trace w1 = trace w2 → w1 = w2.
Proof. destruct w1, w2. mfields. by intros -> -> -> -> ->. Qed.

(** [world_eq] compares two stores field by field. *)
Ltac world_eq :=
  try (f_equal; []); apply world_ext;
  unfold put, spend, io_world, set_heap, set_queue, set_clock, set_errno,
    set_trace; mfields;
  rewrite ?insert_insert_eq, <- ?(assoc_L (++)); try done.

Lemma put_put p c1 c2 e1 e2 w :
  put p c2 e2 (put p c1 e1 w) = put p c2 (e1 ++ e2) w.
Proof.
  unfold put. mfields. unfold set_heap, set_trace. mfields.
  by rewrite insert_insert_eq, (assoc_L (++)).
Qed.

Lemma put_same p c w : heap w !! p = Some c → put p c [] w = w.
Proof.
  intros E. destruct w as [h q k e t]. unfold put, set_heap, set_trace.
  mfields. cbn [heap] in E. by rewrite insert_id, (right_id_L [] (++)).
Qed.

Lemma put_lookup p c evs w : heap (put p c evs w) !! p = Some c.
Proof. unfold put. mfields. apply lookup_insert_eq. Qed.

Lemma put_lookup_ne p q c evs w : q ≠ p → heap (put p c evs w) !! q = heap w !! q.
Proof. intros Hne. unfold put. mfields. by apply lookup_insert_ne. Qed.

Lemma put_queue p c evs w : queue (put p c evs w) = queue w.
Proof. done. Qed.

Lemma put_evolves p c evs w : evolves p w (put p c evs w).
Proof. split; [intros; by apply put_lookup_ne | by left]. Qed.

(** ** The queue *)

Lemma tailq_remove_not_in p q : p ∉ tailq_remove p q.
Proof. unfold tailq_remove. rewrite list_elem_of_filter. by intros [? _]. Qed.

Lemma tailq_remove_elem p x q : x ∈ tailq_remove p q ↔ x ≠ p ∧ x ∈ q.
Proof. unfold tailq_remove. by rewrite list_elem_of_filter. Qed.

Lemma tailq_remove_absent p q : p ∉ q → tailq_remove p q = q.
Proof.
  unfold tailq_remove. induction q as [|x q IH]; [done|].
  rewrite not_elem_of_cons. intros [Hne Hq].
  rewrite filter_cons_True by done. by rewrite IH.
Qed.

Lemma tailq_remove_app p q1 q2 :
  tailq_remove p (q1 ++ q2) = tailq_remove p q1 ++ tailq_remove p q2.
Proof. apply filter_app. Qed.

Lemma tailq_remove_head p q : tailq_remove p (p :: q) = tailq_remove p q.
Proof. unfold tailq_remove. by rewrite filter_cons_False by naive_solver. Qed.

Lemma tailq_remove_idem p q :
  tailq_remove p (tailq_remove p q) = tailq_remove p q.
Proof. apply tailq_remove_absent, tailq_remove_not_in. Qed.

Lemma tailq_remove_NoDup p q : NoDup q → NoDup (tailq_remove p q).
Proof. apply NoDup_filter. Qed.

Lemma tailq_next_middle pre p rest :
  p ∉ pre → tailq_next (pre ++ p :: rest) p = head rest.
Proof.
  induction pre as [|x pre IH]; intros Hp; simpl.
  - by rewrite decide_True.
  - apply not_elem_of_cons in Hp as [Hne Hp].
    rewrite decide_False by done. by apply IH.
Qed.

(** ** Composition of calls on one record *)

Lemma evolves_refl p w : evolves p w w.
Proof. split; [done | by left]. Qed.

Lemma evolves_trans p w1 w2 w3 :
  evolves p w1 w2 → evolves p w2 w3 → evolves p w1 w3.
Proof.
  intros [F1 Q1] [F2 Q2]. split.
  - intros q Hq. rewrite F2, F1; done.
  - destruct Q1 as [Q1 | Q1], Q2 as [Q2 | Q2]; rewrite Q2, Q1; auto.
    right. by rewrite tailq_remove_head, tailq_remove_idem.
Qed.

Lemma evolves_linked p q w w' : evolves p w w' → p ∈ queue w → q ∈ queue w' ↔ q ∈ queue w.
Proof.
  intros [_ [-> | ->]] Hp; [done|].
  rewrite elem_of_cons, tailq_remove_elem.
  destruct (decide (q = p)) as [-> | Hne]; tauto.
Qed.

Lemma hoare_ret {A} p (a : A) (Q : A → Connection → Prop) :
  hoare p (Q a) (mret a) Q.
Proof.
  intros w c Hc Hq HQ. exists a, w, c. eauto using evolves_refl.
Qed.

Lemma hoare_ret' {A} p (a : A) (P : Connection → Prop)
    (Q : A → Connection → Prop) :
  (∀ c, P c → Q a c) → hoare p P (mret a) Q.
Proof.
  intros HPQ w c Hc Hq HP. exists a, w, c. eauto using evolves_refl.
Qed.

Lemma hoare_bind {A B} p P (m : M A) Q (k : A → M B) R :
  hoare p P m Q → (∀ a, hoare p (Q a) (k a) R) → hoare p P (m ≫= k) R.
Proof.
  intros Hm Hk w c Hc Hq HP.
  destruct (Hm w c Hc Hq HP) as (a & w1 & c1 & E1 & Ev1 & Hc1 & HQ).
  assert (p ∈ queue w1) as Hq1 by by apply (evolves_linked p p w w1).
  destruct (Hk a w1 c1 Hc1 Hq1 HQ) as (b & w2 & c2 & E2 & Ev2 & Hc2 & HR).
  exists b, w2, c2. rewrite (bind_done _ _ _ _ _ E1).
  eauto using evolves_trans.
Qed.

Lemma hoare_conseq {A} p (P P' : Connection → Prop) (m : M A)
    (Q Q' : A → Connection → Prop) :
  hoare p P m Q → (∀ c, P' c → P c) → (∀ a c, Q a c → Q' a c) →
  hoare p P' m Q'.
Proof.
  intros Hm HP HQ w c Hc Hq HP'.
  destruct (Hm w c Hc Hq (HP _ HP')) as (a & w1 & c1 & ? & ? & ? & ?).
  exists a, w1, c1. eauto.
Qed.

(** Reading the record fixes what the rest of the call sees. *)
Lemma hoare_deref {A} p P (k : Connection → M A) Q :
  (∀ c0, hoare p (λ c, c = c0 ∧ P c0) (k c0) Q) →
  hoare p P (deref p ≫= k) Q.
Proof.
  intros Hk w c Hc Hq HP.
  rewrite (bind_done _ _ _ _ _ (deref_done _ _ _ Hc)).
  by apply (Hk c w c).
Qed.

Lemma hoare_deref' {A} p (P : Connection → Prop) (k : Connection → M A) Q :
  (∀ c0, P c0 → hoare p (λ c, c = c0) (k c0) Q) →
  hoare p P (deref p ≫= k) Q.
Proof.
  intros Hk w c Hc Hq HP.
  rewrite (bind_done _ _ _ _ _ (deref_done _ _ _ Hc)).
  by apply (Hk c HP w c).
Qed.

(** From one initial record to a set of them. *)
Lemma hoare_lift {A} p (P : Connection → Prop) (m : M A)
    (R : A → Connection → Connection → Prop) :
  (∀ c0, P c0 → hoare p (λ c, c = c0) m (λ a c', R a c0 c')) →
  hoare p P m (λ a c', ∃ c0, P c0 ∧ R a c0 c').
Proof.
  intros Hm w c Hc Hq HP.
  destruct (Hm c HP w c Hc Hq eq_refl) as (a & w' & c' & ? & ? & ? & ?).
  exists a, w', c'. eauto 10.
Qed.

(** A call with a known outcome that writes only the record. *)
Lemma hoare_put {A} p (P : Connection → Prop) (m : M A)
    (Q : A → Connection → Prop) :
  (∀ w c, heap w !! p = Some c → p ∈ queue w → P c →
     ∃ a c' evs w0, m w = Done a (put p c' evs w0) ∧
        heap w0 = heap w ∧
        (queue w0 = queue w ∨ queue w0 = p :: tailq_remove p (queue w)) ∧
        Q a c') →
  hoare p P m Q.
Proof.
  intros Hm w c Hc Hq HP.
  destruct (Hm w c Hc Hq HP) as (a & c' & evs & w0 & E & Hh & Hqq & HQ).
  exists a, (put p c' evs w0), c'. split; [done|].
  split; [|split; [apply put_lookup | done]].
  split; [|done]. intros q Hne. by rewrite put_lookup_ne, Hh.
Qed.

(** ** Closing sockets *)

Section Proofs.
Context `{Platform}.
Variable env : Env.

Lemma close_client_socket_run p c w :
  heap w !! p = Some c →
  close_client_socket p w =
    Done tt (put p (with_state (after_client_close (state c)) c)
                   [EvClose (sockfd (client c))] w).
Proof.
  intros E. unfold close_client_socket, sys_close, emit, modify. mrun.
  by destruct (state c) eqn:Es; erewrite update_done by (mfields; eassumption).
Qed.

Lemma close_server_socket_run p c w :
  heap w !! p = Some c →
  close_server_socket p w =
    Done tt (put p (with_state (after_server_close (state c)) c)
                   [EvClose (sockfd (server c))] w).
Proof.
  intros E. unfold close_server_socket, sys_close, emit, modify. mrun.
  by destruct (state c) eqn:Es; erewrite update_done by (mfields; eassumption).
Qed.

Lemma close_connection_run p c w :
  heap w !! p = Some c →
  close_connection p w =
    Done tt (put p (closed_record c) (closing_events c) w).
Proof.
  intros E. unfold close_connection.
  rewrite (bind_done _ _ _ _ _ (deref_done _ _ _ E)).
  unfold closed_record, closing_events.
  destruct (state c) eqn:Es;
    rewrite ?(bind_done _ _ _ _ _ (close_client_socket_run _ _ _ E));
    rewrite ?Es; mrun;
    rewrite ?(bind_done _ _ _ _ _ (deref_done _ _ _ (put_lookup _ _ _ _)));
    rewrite ?(bind_done _ _ _ _ _ (deref_done _ _ _ E));
    mfields; rewrite ?Es; cbn [after_client_close];
    rewrite ?(close_server_socket_run _ _ _ (put_lookup _ _ _ _));
    rewrite ?(close_server_socket_run _ _ _ E);
    mfields; rewrite ?Es; cbn [after_server_close];
    rewrite ?put_put; try done; by rewrite put_same.
Qed.

(** ** The client hello *)

Section Hello.
Variables (p : ptr) (c : Connection) (l : Listener) (w : World).
Hypothesis Hc : heap w !! p = Some c.
Hypothesis Hl : listener c = Some l.
Hypothesis Hs : state c = ACCEPTED.

Let bytes := buffer_peek (buffer (client c)) 1460.
Let parse_result := (parse_packet l bytes).1.
Let name := (parse_packet l bytes).2.
Let fd := env_lookup env (clock w) name.
Let c1 := with_server (with_sockfd fd (server c)) c.

Lemma hello_incomplete :
  parse_result = -1 →
  handle_connection_client_hello env p w = Done tt (put p c [EvParse bytes] w).
Proof using Hc Hl.
  intros Hr. unfold handle_connection_client_hello, emit, modify. mrun.
  rewrite Hl. mrun. fold bytes parse_result. rewrite Hr. cbn.
  unfold put. mfields. by rewrite insert_id.
Qed.

Lemma hello_rejected :
  parse_result ≤ -2 →
  handle_connection_client_hello env p w =
    Done tt (put p (with_state CLOSED c)
                 [EvParse bytes; EvClose (sockfd (client c))] w).
Proof using Hc Hl Hs.
  intros Hr. unfold handle_connection_client_hello, emit, modify. mrun.
  rewrite Hl. mrun. fold bytes parse_result.
  destruct (parse_result =? -1) eqn:E1; [lia|].
  assert (close_connection p (set_trace (trace w ++ [EvParse bytes]) w) =
          Done tt (put p (with_state CLOSED c)
                       [EvParse bytes; EvClose (sockfd (client c))] w)) as Hcc.
  { rewrite (close_connection_run p c) by done.
    unfold closed_record, closing_events. rewrite Hs.
    unfold put. mfields. unfold set_heap, set_trace. mfields.
    by rewrite <- (assoc_L (++)). }
  destruct (parse_result =? -2) eqn:E2; [done|].
  destruct (parse_result <? -2) eqn:E3; [done | lia].
Qed.

Lemma hello_lookup_step :
  0 ≤ parse_result →
  handle_connection_client_hello env p w =
    (c ← deref p;
     if sockfd (server c) <? 0 then
       close_connection p;; free_str name
     else if sockfd (server c) >? FD_SETSIZE then
       close_server_socket p;; close_connection p;; free_str name
     else
       update p (with_hostname name);;
       t ← tick;
       update p (λ c, with_server
                        (with_addr (env_getpeername env t (sockfd (server c)))
                                   (server c)) c);;
       update p (with_state CONNECTED))
    (put p c1 [EvParse bytes; EvLookup name] (spend 1 w)).
Proof using Hc Hl.
  intros Hr. unfold handle_connection_client_hello, emit, modify. mrun.
  rewrite Hl. mrun. fold bytes parse_result name.
  destruct (parse_result =? -1) eqn:E1; [lia|].
  destruct (parse_result =? -2) eqn:E2; [lia|].
  destruct (parse_result <? -2) eqn:E3; [lia|].
  unfold tick. mrun. fold fd c1.
  match goal with |- _ ?w1 = _ ?w2 => replace w1 with w2; [done|] end.
  world_eq.
Qed.

Lemma free_str_run h w0 :
  free_str h w0 = Done tt (set_trace (trace w0 ++ str_frees h) w0).
Proof.
  destruct h; [done|]. cbn. f_equal. destruct w0. unfold set_trace. mfields.
  by rewrite (right_id_L [] (++)).
Qed.

Lemma hello_lookup_failed :
  0 ≤ parse_result → fd < 0 →
  handle_connection_client_hello env p w =
    Done tt (put p (with_state CLOSED c1)
               ([EvParse bytes; EvLookup name; EvClose (sockfd (client c))]
                  ++ str_frees name)
               (spend 1 w)).
Proof using Hc Hl Hs.
  intros Hr Hfd. rewrite hello_lookup_step by done.
  rewrite (bind_done _ _ _ _ _ (deref_done _ _ _ (put_lookup _ _ _ _))).
  subst c1. mfields. destruct (fd <? 0) eqn:E; [|lia].
  rewrite (bind_done _ _ _ _ _ (close_connection_run _ _ _ (put_lookup _ _ _ _))).
  rewrite free_str_run. unfold closed_record, closing_events. mfields.
  rewrite Hs. world_eq.
Qed.

Lemma hello_fd_too_big :
  0 ≤ parse_result → 0 ≤ fd → fd > FD_SETSIZE →
  handle_connection_client_hello env p w =
    Done tt (put p (with_state CLOSED c1)
               ([EvParse bytes; EvLookup name; EvClose fd;
                 EvClose (sockfd (client c))] ++ str_frees name)
               (spend 1 w)).
Proof using Hc Hl Hs.
  intros Hr Hfd Hbig. rewrite hello_lookup_step by done.
  rewrite (bind_done _ _ _ _ _ (deref_done _ _ _ (put_lookup _ _ _ _))).
  subst c1. mfields. destruct (fd <? 0) eqn:E; [lia|].
  destruct (fd >? FD_SETSIZE) eqn:E'; [|lia].
  rewrite (bind_done _ _ _ _ _ (close_server_socket_run _ _ _ (put_lookup _ _ _ _))).
  rewrite (bind_done _ _ _ _ _ (close_connection_run _ _ _ (put_lookup _ _ _ _))).
  rewrite free_str_run. unfold closed_record, closing_events. mfields.
  rewrite Hs. cbn [after_server_close]. world_eq.
Qed.

Lemma hello_connected :
  0 ≤ parse_result → 0 ≤ fd → fd ≤ FD_SETSIZE →
  handle_connection_client_hello env p w =
    Done tt (put p (with_state CONNECTED
                      (with_server
                         (with_addr (env_getpeername env (S (clock w)) fd)
                                    (server c1))
                         (with_hostname name c1)))
               [EvParse bytes; EvLookup name] (spend 2 w)).
Proof using Hc Hl.
  intros Hr Hfd Hbig. rewrite hello_lookup_step by done.
  rewrite (bind_done _ _ _ _ _ (deref_done _ _ _ (put_lookup _ _ _ _))).
  subst c1. mfields. destruct (fd <? 0) eqn:E; [lia|].
  destruct (fd >? FD_SETSIZE) eqn:E'; [lia|].
  rewrite (bind_done _ _ _ _ _ (update_done _ _ _ _ (put_lookup _ _ _ _))).
  unfold tick. mrun.
  erewrite update_done by (mfields; apply lookup_insert_eq).
  world_eq.
Qed.

End Hello.

(** ** The four transfer steps *)

Lemma move_to_head_run p w :
  p ∈ queue w →
  move_to_head_of_queue p w =
    Done tt (set_queue (p :: tailq_remove p (queue w)) w).
Proof.
  intros Hq. unfold move_to_head_of_queue, queue_remove, queue_insert_head.
  unfold mbind, M_MBind, M_bind. by rewrite decide_True.
Qed.

Lemma IS_TEMPORARY_SOCKERR_spec e :
  IS_TEMPORARY_SOCKERR e = true ↔ e = EAGAIN ∨ e = EWOULDBLOCK ∨ e = EINTR.
Proof. unfold IS_TEMPORARY_SOCKERR. rewrite !orb_true_iff, !Z.eqb_eq. tauto. Qed.

Lemma sys_recv_run fd b w :
  let r := buffer_recv b (env_recv env (clock w) fd) in
  sys_recv env fd b w = Done (r.1.1, r.2) (io_world r.1.2 w).
Proof.
  intros r. unfold sys_recv, tick, set_errno_opt, io_world.
  unfold mbind, M_MBind, M_bind. fold r. by destruct (r.1.2).
Qed.

Lemma sys_send_run fd b w :
  let r := buffer_send b (env_send env (clock w) fd) in
  sys_send env fd b w = Done (r.1.1, r.2) (io_world r.1.2 w).
Proof.
  intros r. unfold sys_send, tick, set_errno_opt, io_world.
  unfold mbind, M_MBind, M_bind. fold r. by destruct (r.1.2).
Qed.

Lemma update_put p f c w :
  heap w !! p = Some c → update p f w = Done tt (put p (f c) [] w).
Proof.
  intros E. rewrite (update_done _ _ _ _ E). f_equal. destruct w.
  unfold put, set_heap, set_trace. mfields. by rewrite (right_id_L [] (++)).
Qed.

Lemma io_world_heap e w : heap (io_world e w) = heap w.
Proof. by destruct e. Qed.

Lemma io_world_queue e w : queue (io_world e w) = queue w.
Proof. by destruct e. Qed.

Section Transfer.
Variables (p : ptr) (c : Connection) (w : World).
Hypothesis Hc : heap w !! p = Some c.

Lemma io_world_lookup e : heap (io_world e w) !! p = Some c.
Proof using Hc. by rewrite io_world_heap. Qed.

Ltac handler_run :=
  rewrite (bind_done _ _ _ _ _ (deref_done _ _ _ Hc));
  first [ rewrite (bind_done _ _ _ _ _ (sys_recv_run _ _ _))
        | rewrite (bind_done _ _ _ _ _ (sys_send_run _ _ _)) ];
  rewrite (bind_done _ _ _ _ _ (update_put _ _ _ _ (io_world_lookup _)));
  erewrite bind_done by reflexivity; mfields;
  repeat match goal with
         | |- context [if ?b then _ else _] => destruct b
         end;
  done.

Lemma server_rx_run :
  let r := buffer_recv (buffer (server c))
             (env_recv env (clock w) (sockfd (server c))) in
  let w1 := put p (with_server (with_buffer r.2 (server c)) c) []
              (io_world r.1.2 w) in
  handle_connection_server_rx env p w =
    if (r.1.1 <? 0) && negb (IS_TEMPORARY_SOCKERR (errno w1)) then Done 1 w1
    else if r.1.1 =? 0 then Done 1 w1
    else (move_to_head_of_queue p;; mret 0) w1.
Proof using Hc.
  intros r w1. subst r w1. unfold handle_connection_server_rx. handler_run.
Qed.

Lemma server_tx_run :
  let r := buffer_send (buffer (client c))
             (env_send env (clock w) (sockfd (server c))) in
  let w1 := put p (with_client (with_buffer r.2 (client c)) c) []
              (io_world r.1.2 w) in
  handle_connection_server_tx env p w =
    if (r.1.1 <? 0) && negb (IS_TEMPORARY_SOCKERR (errno w1)) then Done 1 w1
    else (move_to_head_of_queue p;; mret 0) w1.
Proof using Hc.
  intros r w1. subst r w1. unfold handle_connection_server_tx. handler_run.
Qed.

Lemma client_tx_run :
  let r := buffer_send (buffer (server c))
             (env_send env (clock w) (sockfd (client c))) in
  let w1 := put p (with_server (with_buffer r.2 (server c)) c) []
              (io_world r.1.2 w) in
  handle_connection_client_tx env p w =
    if (r.1.1 <? 0) && negb (IS_TEMPORARY_SOCKERR (errno w1)) then Done 1 w1
    else (move_to_head_of_queue p;; mret 0) w1.
Proof using Hc.
  intros r w1. subst r w1. unfold handle_connection_client_tx. handler_run.
Qed.

Lemma client_rx_run :
  let r := buffer_recv (buffer (client c))
             (env_recv env (clock w) (sockfd (client c))) in
  let c1 := with_client (with_buffer r.2 (client c)) c in
  let w1 := put p c1 [] (io_world r.1.2 w) in
  handle_connection_client_rx env p w =
    if (r.1.1 <? 0) && negb (IS_TEMPORARY_SOCKERR (errno w1)) then Done 1 w1
    else if r.1.1 =? 0 then Done 1 w1
    else ((if decide (state c = ACCEPTED)
           then handle_connection_client_hello env p else mret tt);;
          move_to_head_of_queue p;; mret 0) w1.
Proof using Hc.
  intros r c1 w1. subst r c1 w1. unfold handle_connection_client_rx.
  rewrite (bind_done _ _ _ _ _ (deref_done _ _ _ Hc)).
  rewrite (bind_done _ _ _ _ _ (sys_recv_run _ _ _)).
  rewrite (bind_done _ _ _ _ _ (update_put _ _ _ _ (io_world_lookup _))).
  erewrite bind_done by reflexivity. mfields.
  destruct (_ && _); [done|]. destruct (_ =? 0); [done|].
  by rewrite (bind_done _ _ _ _ _ (deref_done _ _ _ (put_lookup _ _ _ _))).
Qed.

End Transfer.

(** ** The record-level effect of each call *)

Lemma client_buffer_changed_refl c : client_buffer_changed c c.
Proof. exists (buffer (client c)). by destruct c as [? [] ? ? ?]. Qed.

Lemma server_buffer_changed_refl c : server_buffer_changed c c.
Proof. exists (buffer (server c)). by destruct c as [? ? [] ? ?]. Qed.

Lemma sent_from_client_buffer_refl c : sent_from_client_buffer c c.
Proof. exists (buffer (client c)). by destruct c as [? [] ? ? ?]. Qed.

Lemma sent_from_server_buffer_refl c : sent_from_server_buffer c c.
Proof. exists (buffer (server c)). by destruct c as [? ? [] ? ?]. Qed.

Lemma buffer_send_len b o : (buffer_len (buffer_send b o).2 ≤ buffer_len b)%nat.
Proof.
  destruct o as [k|e]; cbn; [|done]. unfold buffer_len. cbn.
  rewrite length_drop. lia.
Qed.

Section Effects.
Variable p : ptr.
Variable P : Connection → Prop.

Lemma hoare_close_client :
  hoare p P (close_client_socket p)
    (λ _ c', ∃ c, P c ∧ c' = with_state (after_client_close (state c)) c).
Proof.
  apply hoare_put. intros w c Hc Hq HP.
  rewrite (close_client_socket_run p c w Hc). eexists tt, _, _, w. eauto 10.
Qed.

Lemma hoare_close_server :
  hoare p P (close_server_socket p)
    (λ _ c', ∃ c, P c ∧ c' = with_state (after_server_close (state c)) c).
Proof.
  apply hoare_put. intros w c Hc Hq HP.
  rewrite (close_server_socket_run p c w Hc). eexists tt, _, _, w. eauto 10.
Qed.

(** The shape shared by the four transfer steps: a store written once,
    then either returned as it is or with [p] moved to the head. *)
Lemma transfer_shape (cond : bool) c' e w (Q : Z → Connection → Prop) :
  p ∈ queue w → Q 1 c' → Q 0 c' →
  ∃ a c'' evs w0,
    (if cond then Done 1 (put p c' [] (io_world e w))
     else (move_to_head_of_queue p;; mret 0) (put p c' [] (io_world e w)))
      = Done a (put p c'' evs w0) ∧
    heap w0 = heap w ∧
    (queue w0 = queue w ∨ queue w0 = p :: tailq_remove p (queue w)) ∧
    Q a c''.
Proof.
  intros Hq Q1 Q0. destruct cond.
  - exists 1, c', [], (io_world e w).
    rewrite io_world_heap, io_world_queue. eauto.
  - rewrite (bind_done _ _ _ _ _ (move_to_head_run _ _
               ltac:(by rewrite put_queue, io_world_queue))).
    exists 0, c', [],
      (set_queue (p :: tailq_remove p (queue w)) (io_world e w)).
    rewrite put_queue, io_world_queue. split; [done|].
    split; [by rewrite <- (io_world_heap e w) | eauto].
Qed.

Lemma hoare_server_rx :
  hoare p P (handle_connection_server_rx env p)
    (λ _ c', ∃ c, P c ∧ server_buffer_changed c c').
Proof.
  apply hoare_put. intros w c Hc Hq HP.
  rewrite (server_rx_run p c w Hc). cbv zeta.
  destruct (_ && _);
    [apply (transfer_shape true)
    |destruct (_ =? 0);
       [apply (transfer_shape true) | apply (transfer_shape false)]];
    try done; exists c; split; try done; by eexists.
Qed.

Lemma hoare_server_tx :
  hoare p P (handle_connection_server_tx env p)
    (λ _ c', ∃ c, P c ∧ sent_from_client_buffer c c').
Proof.
  apply hoare_put. intros w c Hc Hq HP.
  rewrite (server_tx_run p c w Hc). cbv zeta.
  apply transfer_shape; [done|..]; exists c; split; try done;
    eexists; (split; [done|]); apply buffer_send_len.
Qed.

Lemma hoare_client_tx :
  hoare p P (handle_connection_client_tx env p)
    (λ _ c', ∃ c, P c ∧ sent_from_server_buffer c c').
Proof.
  apply hoare_put. intros w c Hc Hq HP.
  rewrite (client_tx_run p c w Hc). cbv zeta.
  apply transfer_shape; [done|..]; exists c; split; try done;
    eexists; (split; [done|]); apply buffer_send_len.
Qed.

Lemma hoare_move_to_head (Q : Connection → Prop) :
  hoare p Q (move_to_head_of_queue p) (λ _, Q).
Proof.
  intros w c Hc Hq HQ. rewrite (move_to_head_run p w Hq).
  eexists tt, _, c. split; [done|]. split; [|by mfields].
  split; [done | by right].
Qed.

End Effects.

(** Whatever the parser and the upstream lookup answer, the client hello
    returns, and it only rewrites the record and spends system calls. *)
Lemma hello_put p c l w :
  heap w !! p = Some c → listener c = Some l → state c = ACCEPTED →
  ∃ c' evs n,
    handle_connection_client_hello env p w =
      Done tt (put p c' evs (spend n w)) ∧
    hello_outcome c c'.
Proof.
  intros Hc Hl Hs.
  set (bytes := buffer_peek (buffer (client c)) 1460).
  set (r := (parse_packet l bytes).1).
  set (fd := env_lookup env (clock w) (parse_packet l bytes).2).
  unfold hello_outcome.
  destruct (decide (r = -1)) as [Hr|Hr];
    [|destruct (decide (r ≤ -2)) as [Hr'|Hr'];
       [|destruct (decide (fd < 0)) as [Hfd|Hfd];
          [|destruct (decide (fd > FD_SETSIZE)) as [Hfd'|Hfd']]]].
  - rewrite (hello_incomplete p c l w Hc Hl Hr).
    eexists _, _, 0%nat. split; [|by left]. by destruct w.
  - rewrite (hello_rejected p c l w Hc Hl Hs Hr').
    eexists _, _, 0%nat. split; [|right; by left]. by destruct w.
  - rewrite (hello_lookup_failed p c l w Hc Hl Hs) by (fold bytes r fd; lia).
    eexists _, _, 1%nat. split; [done|]. right. right. left. by eexists.
  - rewrite (hello_fd_too_big p c l w Hc Hl Hs) by (fold bytes r fd; lia).
    eexists _, _, 1%nat. split; [done|]. right. right. left. by eexists.
  - rewrite (hello_connected p c l w Hc Hl) by (fold bytes r fd; lia).
    eexists _, _, 2%nat. split; [done|]. do 3 right.
    exists l, bytes, fd, (env_getpeername env (S (clock w)) fd).
    split; [done|]. split; [fold r; lia | done].
Qed.

Lemma hoare_hello p (P : Connection → Prop) :
  (∀ c, P c → state c = ACCEPTED ∧ is_Some (listener c)) →
  hoare p P (handle_connection_client_hello env p)
    (λ _ c', ∃ c, P c ∧ hello_outcome c c').
Proof.
  intros HPre. apply hoare_put. intros w c Hc Hq HP.
  destruct (HPre c HP) as [Hs [l Hl]].
  destruct (hello_put p c l w Hc Hl Hs) as (c' & evs & n & E & Ho).
  exists tt, c', evs, (spend n w). rewrite E. eauto 10.
Qed.

Lemma hoare_client_rx p (P : Connection → Prop) :
  (∀ c, P c → state c = ACCEPTED → is_Some (listener c)) →
  hoare p P (handle_connection_client_rx env p)
    (λ _ c', ∃ c, P c ∧ rx_outcome c c').
Proof.
  intros HPre w c Hc Hq HP. rewrite (client_rx_run p c w Hc). cbv zeta.
  set (r := buffer_recv (buffer (client c)) _).
  set (c1 := with_client (with_buffer r.2 (client c)) c).
  set (w1 := put p c1 [] (io_world r.1.2 w)).
  assert (client_buffer_changed c c1) as Hcb by by eexists.
  assert (evolves p w w1) as Ev1.
  { split; [|left; subst w1; by rewrite put_queue, io_world_queue].
    intros q Hne. subst w1. by rewrite put_lookup_ne, io_world_heap. }
  assert (∃ c', heap w1 !! p = Some c' ∧ ∃ c0, P c0 ∧ rx_outcome c0 c')
    as Hfail.
  { exists c1. split; [apply put_lookup|]. exists c. split; [done|].
    exists c1. auto. }
  destruct Hfail as (c' & Hc' & Hout).
  destruct (_ && _); [by exists 1, w1, c'|].
  destruct (_ =? 0); [by exists 1, w1, c'|].
  clear c' Hc' Hout.
  assert (hoare p (λ x, x = c1)
            ((if decide (state c = ACCEPTED)
              then handle_connection_client_hello env p else mret tt);;
             move_to_head_of_queue p;; mret 0)
            (λ _ c', rx_outcome c c')) as Hrest.
  { eapply hoare_bind with (Q := λ _ c', rx_outcome c c').
    - destruct (decide (state c = ACCEPTED)) as [Hs|Hs].
      + eapply hoare_conseq; [apply (hoare_hello p (λ x, x = c1))|done|].
        * intros x Hx. rewrite Hx. split; [exact Hs | exact (HPre c HP Hs)].
        * intros ? c' (x & Hx & Hout). rewrite Hx in Hout.
          exists c1. auto.
      + eapply hoare_conseq; [apply (hoare_ret p tt (λ _ c', c' = c1))|done|].
        intros ? c' Hx. rewrite Hx. exists c1. auto.
    - intros ?. eapply hoare_bind;
        [apply (hoare_move_to_head p (rx_outcome c))|].
      intros ?. apply (hoare_ret p 0 (λ _ c', rx_outcome c c')). }
  destruct (Hrest w1 c1) as (a & w' & c' & E & Ev & Hc' & HQ);
    [apply put_lookup | by apply (evolves_linked p p w w1) | done |].
  exists a, w', c'. eauto 10 using evolves_trans.
Qed.

(** ** One visit of [handle_connections] *)

Lemma rx_outcome_refl c : rx_outcome c c.
Proof. exists c. split; [apply client_buffer_changed_refl | by left]. Qed.

Lemma hoare_client_half p c0 rfds wfds :
  (state c0 = ACCEPTED → is_Some (listener c0)) →
  hoare p (λ c, c = c0) (dispatch_client_half env rfds wfds p)
    (λ _ c', client_half_outcome c0 c').
Proof.
  intros Hl. unfold dispatch_client_half. apply hoare_deref. intros cA.
  eapply hoare_bind with (Q := λ _ c1, rx_outcome c0 c1).
  { destruct (_ && _).
    - eapply hoare_conseq; [apply (hoare_client_rx p (λ c, c = c0))|..].
      + intros c Hx. rewrite Hx. exact Hl.
      + intros c [? ?]. congruence.
      + by intros ? c (x & -> & Hx).
    - apply hoare_ret'. intros c [-> ->]. apply rx_outcome_refl. }
  intros err. apply hoare_deref. intros cB.
  eapply hoare_bind
    with (Q := λ _ c2, ∃ c1, rx_outcome c0 c1 ∧ sent_from_server_buffer c1 c2).
  { destruct (_ && _).
    - eapply hoare_conseq; [apply (hoare_client_tx p (rx_outcome c0))|..].
      + by intros c [-> ?].
      + by intros ? c (x & Hx & Hs); exists x.
    - apply hoare_ret'. intros c [-> Hrx]. exists cB.
      split; [done | apply sent_from_server_buffer_refl]. }
  intros err'. destruct (err' =? 0).
  - apply hoare_ret'. intros c (c1 & Hrx & Hs). exists c1, c. auto.
  - eapply hoare_conseq; [apply hoare_close_client|intros ? HP; exact HP|].
    intros ? c (c2 & (c1 & Hrx & Hs) & ->). exists c1, c2. auto.
Qed.

Lemma hoare_server_half p c0 rfds wfds :
  hoare p (λ c, c = c0) (dispatch_server_half env rfds wfds p)
    (λ _ c', server_half_outcome c0 c').
Proof.
  unfold dispatch_server_half. apply hoare_deref. intros cA.
  eapply hoare_bind with (Q := λ _ c1, server_buffer_changed c0 c1).
  { destruct (_ && _).
    - eapply hoare_conseq; [apply (hoare_server_rx p (λ c, c = c0))|..].
      + intros c [? ?]. congruence.
      + by intros ? c (x & -> & Hx).
    - apply hoare_ret'. intros c [-> ->]. apply server_buffer_changed_refl. }
  intros err. apply hoare_deref. intros cB.
  eapply hoare_bind
    with (Q := λ _ c2, ∃ c1, server_buffer_changed c0 c1 ∧
                             sent_from_client_buffer c1 c2).
  { destruct (_ && _).
    - eapply hoare_conseq;
        [apply (hoare_server_tx p (server_buffer_changed c0))|..].
      + by intros c [-> ?].
      + by intros ? c (x & Hx & Hs); exists x.
    - apply hoare_ret'. intros c [-> Hrx]. exists cB.
      split; [done | apply sent_from_client_buffer_refl]. }
  intros err'. destruct (err' =? 0).
  - apply hoare_ret'. intros c (c1 & Hrx & Hs). exists c1, c. auto.
  - eapply hoare_conseq; [apply hoare_close_server|intros ? HP; exact HP|].
    intros ? c (c2 & (c1 & Hrx & Hs) & ->). exists c1, c2. auto.
Qed.

Lemma server_half_state c c' :
  server_half_outcome c c' →
  state c' = state c ∨ state c' = after_server_close (state c).
Proof. intros Ho. outcome_cases; auto. Qed.

Lemma hoare_dispatch p c0 rfds wfds :
  state c0 ≠ CLOSED →
  (state c0 = ACCEPTED → is_Some (listener c0)) →
  hoare p (λ c, c = c0) (dispatch env rfds wfds p)
    (λ _ c', dispatch_outcome c0 c').
Proof.
  intros Hopen Hl. unfold dispatch, dispatch_outcome.
  apply hoare_deref'. intros ? ->.
  destruct (state c0) eqn:Es; [| | | | |done].
  - by apply hoare_ret'.
  - apply hoare_client_half. intros _. by apply Hl.
  - eapply hoare_bind; [apply hoare_server_half|]. intros ?.
    apply (hoare_lift p (server_half_outcome c0) _
             (λ _ cm c', client_half_outcome cm c')).
    intros cm Hcm. apply hoare_client_half.
    destruct (server_half_state _ _ Hcm) as [E|E]; rewrite E, Es; done.
  - eapply hoare_bind with (Q := λ _ c1, sent_from_server_buffer c0 c1).
    { destruct (_ && _).
      - eapply hoare_conseq; [apply (hoare_client_tx p (λ c, c = c0))|done|].
        by intros ? c (x & -> & Hx).
      - apply hoare_ret'. intros c ->. apply sent_from_server_buffer_refl. }
    intros err. apply hoare_deref'. intros c1 Hc1.
    destruct (_ || _) eqn:Ec.
    + eapply hoare_conseq;
        [apply (hoare_close_client p (λ c, c = c1))|done|].
      intros ? c (x & -> & ->). eauto.
    + apply hoare_ret'. intros c ->. exists c1. split; [done|]. left.
      split; [done|]. apply orb_false_iff in Ec as [_ Ec].
      apply Nat.eqb_neq in Ec. lia.
  - eapply hoare_bind with (Q := λ _ c1, sent_from_client_buffer c0 c1).
    { destruct (_ && _).
      - eapply hoare_conseq; [apply (hoare_server_tx p (λ c, c = c0))|done|].
        by intros ? c (x & -> & Hx).
      - apply hoare_ret'. intros c ->. apply sent_from_client_buffer_refl. }
    intros err. apply hoare_deref'. intros c1 Hc1.
    destruct (_ || _) eqn:Ec.
    + eapply hoare_conseq;
        [apply (hoare_close_server p (λ c, c = c1))|done|].
      intros ? c (x & -> & ->). eauto.
    + apply hoare_ret'. intros c ->. exists c1. split; [done|]. left.
      split; [done|]. apply orb_false_iff in Ec as [_ Ec].
      apply Nat.eqb_neq in Ec. lia.
Qed.

Lemma free_connection_run p c w :
  heap w !! p = Some c →
  free_connection p w =
    Done tt (set_heap (delete p (heap w))
               (set_trace (trace w ++ closing_events c ++
                             str_frees (hostname c) ++ [EvFreeConn p]) w)).
Proof.
  intros Hc. unfold free_connection.
  rewrite (bind_done _ _ _ _ _ (close_connection_run p c w Hc)).
  rewrite (bind_done _ _ _ _ _ (deref_done _ _ _ (put_lookup _ _ _ _))).
  rewrite (bind_done _ _ _ _ _ (free_str_run _ _)).
  unfold emit, modify. mrun.
  assert (hostname (closed_record c) = hostname c) as ->
    by (unfold closed_record; by destruct (state c)).
  f_equal. apply world_ext; unfold put; mfields; try done.
  - by rewrite delete_insert_eq.
  - by rewrite <- !(assoc_L (++)).
Qed.

Lemma dispatch_closed_run p c w rfds wfds :
  heap w !! p = Some c → state c = CLOSED → p ∈ queue w →
  dispatch env rfds wfds p w =
    Done tt (set_heap (delete p (heap w))
               (set_queue (tailq_remove p (queue w))
                  (set_trace (trace w ++ str_frees (hostname c) ++
                                [EvFreeConn p]) w))).
Proof.
  intros Hc Hs Hq. unfold dispatch.
  rewrite (bind_done _ _ _ _ _ (deref_done _ _ _ Hc)). rewrite Hs.
  unfold queue_remove. unfold mbind at 1, M_MBind, M_bind.
  rewrite decide_True by done.
  rewrite (free_connection_run p c) by done.
  unfold closing_events. rewrite Hs. done.
Qed.

(** Every visit returns and is a [visit]. *)
Lemma dispatch_visit p c w rfds wfds :
  heap w !! p = Some c → p ∈ queue w →
  (state c = ACCEPTED → is_Some (listener c)) →
  ∃ w', dispatch env rfds wfds p w = Done tt w' ∧ visit p w w'.
Proof.
  intros Hc Hq Hl. destruct (decide (state c = CLOSED)) as [Hs|Hs].
  - rewrite (dispatch_closed_run p c w rfds wfds Hc Hs Hq).
    eexists. split; [done|]. exists c. split; [done|]. mfields.
    split; [intros q Hne; by rewrite lookup_delete_ne|].
    rewrite decide_True by done. by rewrite lookup_delete_eq.
  - destruct (hoare_dispatch p c rfds wfds Hs Hl w c Hc Hq eq_refl)
      as ([] & w' & c' & E & [Hfr Hqq] & Hc' & Hout).
    exists w'. split; [done|]. exists c. split; [done|]. split; [done|].
    rewrite decide_False by done. eauto.
Qed.

End Proofs.

(** ** What a visit preserves *)

Lemma dispatch_outcome_frame c c' :
  dispatch_outcome c c' →
  listener c' = listener c ∧ sockfd (client c') = sockfd (client c) ∧
  (state c' = ACCEPTED → state c = ACCEPTED) ∧
  (state c' = NEW → state c = NEW).
Proof.
  unfold dispatch_outcome. intros Ho.
  destruct (state c) eqn:Es; [| | | | |done]; outcome_cases;
    rewrite ?Es; cbn; repeat split; try done.
Qed.

Lemma visit_queue_cases p w w' :
  visit p w w' →
  queue w' = tailq_remove p (queue w) ∨ queue w' = queue w ∨
  queue w' = p :: tailq_remove p (queue w).
Proof.
  intros (c & _ & _ & Hv). destruct (decide (state c = CLOSED)).
  - left. apply Hv.
  - right. apply Hv.
Qed.

Lemma visit_linked_ok p w w' :
  linked_ok w → p ∈ queue w → visit p w w' → linked_ok w'.
Proof.
  intros [Hnd Hall] Hp Hv. pose proof (visit_queue_cases _ _ _ Hv) as Hq.
  destruct Hv as (c & Hc & Hfr & Hv).
  assert (NoDup (queue w')) as Hnd'.
  { destruct Hq as [-> | [-> | ->]]; [by apply tailq_remove_NoDup | done |].
    apply NoDup_cons. split; [apply tailq_remove_not_in|].
    by apply tailq_remove_NoDup. }
  split; [done|]. intros q Hq'.
  destruct (decide (q = p)) as [-> | Hne].
  - destruct (decide (state c = CLOSED)) as [Hs|Hs].
    + destruct Hv as [_ Hv]. rewrite Hv in Hq'.
      by apply tailq_remove_not_in in Hq'.
    + destruct Hv as [(c' & Hc' & Ho) _]. exists c'. split; [done|].
      destruct (dispatch_outcome_frame _ _ Ho) as (Hl & _ & Hacc & _).
      intros Hs'. rewrite Hl.
      destruct (Hall p Hp) as (c0 & Hc0 & Hl0). simplify_eq. auto.
  - rewrite (Hfr q Hne). apply Hall.
    destruct Hq as [Hq | [Hq | Hq]]; rewrite Hq in Hq'.
    + by apply tailq_remove_elem in Hq' as [_ ?].
    + done.
    + apply elem_of_cons in Hq' as [? | Hq']; [done|].
      by apply tailq_remove_elem in Hq' as [_ ?].
Qed.

(** ** The loop of [handle_connections] *)

(** While the loop stands at [p], the records still to come are exactly
    the part of the queue behind [p]: a visit never touches them. *)
Lemma visit_keeps_rest p pre rest w w' :
  NoDup (queue w) → queue w = pre ++ p :: rest → visit p w w' →
  ∃ pre', queue w' = pre' ++ rest.
Proof.
  intros Hnd Hq Hv. rewrite Hq in Hnd.
  apply NoDup_app in Hnd as (_ & Hpre & Hnd).
  apply NoDup_cons in Hnd as [Hrest _].
  assert (p ∉ pre) as Hp by (intros Hin; apply (Hpre p Hin); left).
  assert (tailq_remove p (queue w) = pre ++ rest) as Hrm.
  { rewrite Hq, tailq_remove_app, tailq_remove_head.
    by rewrite !tailq_remove_absent. }
  destruct (visit_queue_cases _ _ _ Hv) as [E | [E | E]]; rewrite E.
  - exists pre. done.
  - exists (pre ++ [p]). by rewrite Hq, <- (assoc_L (++)).
  - exists (p :: pre). by rewrite Hrm.
Qed.



Section Loop.
Context `{Platform}.
Variables (env : Env) (rfds wfds : fd_set).

Lemma foreach_safe_walk rest : ∀ pre w fuel,
  linked_ok w → queue w = pre ++ rest → (length rest ≤ fuel)%nat →
  ∃ w', foreach_safe (dispatch env rfds wfds) fuel (head rest) w = Done tt w' ∧
        walk (visited env rfds wfds) rest w w' ∧ linked_ok w'.
Proof.
  induction rest as [|p rest IH]; intros pre w fuel Hok Hq Hfuel.
  - exists w. split; [by destruct fuel|]. split; [constructor | done].
  - destruct fuel as [|fuel]; [cbn in Hfuel; lia|]. cbn [head foreach_safe].
    assert (p ∈ queue w) as Hp by (rewrite Hq; set_solver).
    destruct Hok as [Hnd Hall]. destruct (Hall p Hp) as (c & Hc & Hl).
    assert (p ∉ pre) as Hpre.
    { rewrite Hq in Hnd. apply NoDup_app in Hnd as (_ & Hnd & _).
      intros Hin. apply (Hnd p Hin). left. }
    unfold gets. erewrite bind_done by reflexivity.
    rewrite Hq, (tailq_next_middle pre p rest Hpre).
    destruct (dispatch_visit env p c w rfds wfds Hc Hp Hl) as (w1 & E & Hv).
    rewrite (bind_done _ _ _ _ _ E).
    destruct (visit_keeps_rest p pre rest w w1 Hnd Hq Hv) as [pre' Hq1].
    assert (linked_ok w1) as Hok1
      by by apply (visit_linked_ok p w w1).
    destruct (IH pre' w1 fuel Hok1 Hq1) as (w' & E' & Hw & Hok');
      [cbn in Hfuel; lia|].
    exists w'. split; [done|]. split; [|done].
    econstructor; [split|]; eauto.
Qed.

(** [handle_connections] returns: the loop bound is never reached, no
    pointer dangles, and the run is a walk over the queue as it was when
    the call began. *)
Lemma handle_connections_walk w :
  linked_ok w →
  ∃ w', handle_connections env rfds wfds w = Done tt w' ∧
        walk (visited env rfds wfds) (queue w) w w' ∧ linked_ok w'.
Proof.
  intros Hok. unfold handle_connections, gets.
  erewrite bind_done by reflexivity.
  by apply (foreach_safe_walk (queue w) [] w).
Qed.

Lemma visited_other p q w w' :
  visited env rfds wfds p w w' → q ≠ p →
  heap w' !! q = heap w !! q ∧ (q ∈ queue w' ↔ q ∈ queue w).
Proof.
  intros [_ Hv] Hne. pose proof (visit_queue_cases _ _ _ Hv) as Hq.
  destruct Hv as (c & Hc & Hfr & _). split; [by apply Hfr|].
  destruct Hq as [-> | [-> | ->]];
    rewrite ?elem_of_cons, ?tailq_remove_elem; tauto.
Qed.

Lemma walk_other l w w' q :
  walk (visited env rfds wfds) l w w' → q ∉ l →
  heap w' !! q = heap w !! q ∧ (q ∈ queue w' ↔ q ∈ queue w).
Proof.
  induction 1 as [|p l w w1 w2 Hv Hw IH]; intros Hq; [done|].
  apply not_elem_of_cons in Hq as [Hne Hq].
  destruct (visited_other _ _ _ _ Hv Hne) as [E1 E2].
  destruct (IH Hq) as [E3 E4]. rewrite E3, E1, E4, E2. done.
Qed.

(** A walk visits a record of its list once: before and after that visit
    the record is left alone. *)
Lemma walk_at l w w' p :
  walk (visited env rfds wfds) l w w' → p ∈ l → NoDup l →
  ∃ w1 w2, visited env rfds wfds p w1 w2 ∧
           heap w1 !! p = heap w !! p ∧ (p ∈ queue w1 ↔ p ∈ queue w) ∧
           heap w' !! p = heap w2 !! p ∧ (p ∈ queue w' ↔ p ∈ queue w2).
Proof.
  induction 1 as [|x l w w1 w2 Hv Hw IH]; intros Hp Hnd; [by inversion Hp|].
  apply NoDup_cons in Hnd as [Hx Hnd].
  destruct (decide (p = x)) as [-> | Hne].
  - exists w, w1. split; [done|]. split; [done|]. split; [done|].
    by apply (walk_other l).
  - apply elem_of_cons in Hp as [? | Hp]; [done|].
    destruct (IH Hp Hnd) as (wa & wb & Hv' & E1 & E2 & E3 & E4).
    destruct (visited_other _ _ _ _ Hv Hne) as [E5 E6].
    exists wa, wb. rewrite E1, E2, E5, E6. done.
Qed.

(** The fate of one linked record in one call of [handle_connections]. *)
Lemma handle_connections_at w w' p c :
  linked_ok w → handle_connections env rfds wfds w = Done tt w' →
  p ∈ queue w → heap w !! p = Some c →
  if decide (state c = CLOSED)
  then heap w' !! p = None ∧ p ∉ queue w'
  else ∃ c', heap w' !! p = Some c' ∧ dispatch_outcome c c' ∧ p ∈ queue w'.
Proof.
  intros Hok E Hp Hc.
  destruct (handle_connections_walk w Hok) as (w'' & E' & Hw & _).
  rewrite E in E'. injection E' as <-.
  destruct (walk_at _ _ _ p Hw Hp (proj1 Hok))
    as (w1 & w2 & [_ Hv] & E1 & E2 & E3 & E4).
  pose proof (visit_queue_cases _ _ _ Hv) as Hq.
  destruct Hv as (c1 & Hc1 & _ & Hv). rewrite E1, Hc in Hc1.
  injection Hc1 as <-.
  destruct (decide (state c = CLOSED)) as [Hs|Hs].
  - destruct Hv as [Hn Hq']. rewrite E3, E4. split; [done|]. rewrite Hq'.
    apply tailq_remove_not_in.
  - destruct Hv as [(c' & Hc' & Ho) Hq']. exists c'. rewrite E3, E4.
    split; [done|]. split; [done|].
    destruct Hq' as [-> | ->]; [by apply E2 | left].
Qed.

(** Records that are not linked are not touched. *)
Lemma handle_connections_unlinked w w' q :
  linked_ok w → handle_connections env rfds wfds w = Done tt w' →
  q ∉ queue w → heap w' !! q = heap w !! q ∧ q ∉ queue w'.
Proof.
  intros Hok E Hq.
  destruct (handle_connections_walk w Hok) as (w'' & E' & Hw & _).
  rewrite E in E'. injection E' as <-.
  destruct (walk_other _ _ _ q Hw Hq) as [E1 E2]. split; [done|].
  by rewrite E2.
Qed.

End Loop.

(** ** Invariants of the reachable stores *)

Lemma dispatch_outcome_hostname c c' :
  dispatch_outcome c c' → hostname_ok c → hostname_ok c'.
Proof.
  unfold dispatch_outcome, hostname_ok, names_upstream. intros Ho [H1 H2].
  destruct (state c) eqn:Es; [| | | | |done]; outcome_cases;
    rewrite ?Es in *; cbn in *; (split; [try tauto | try (intros _; tauto)]).
  all: try (intros [?|[?|?]]; done).
  all: try (intros _; eauto 10).
  all: try (intros ?; right; tauto).
Qed.

Lemma fresh_ptr_new w : heap w !! fresh_ptr w = None.
Proof. apply not_elem_of_dom. unfold fresh_ptr. apply is_fresh. Qed.

Section Accept.
Context `{Platform}.
Variables (env : Env) (l : Listener) (w : World).

Let p := fresh_ptr w.

Lemma new_connection_ok :
  env_alloc env (clock w) = true →
  env_alloc env (S (clock w)) = true →
  env_alloc env (S (S (clock w))) = true →
  new_connection env w =
    Done (Some p) (set_heap (<[p := new_record]> (heap w)) (spend 3 w)).
Proof.
  intros A0 A1 A2. unfold new_connection, tick, gets, modify.
  erewrite bind_done by reflexivity. mfields. rewrite A0. cbn [negb].
  do 3 erewrite bind_done by reflexivity. mfields. rewrite A1. cbn [negb].
  mrun. rewrite A2. cbn [negb]. mrun. unfold mret, M_MRet, M_ret.
  f_equal. world_eq.
Qed.

(** [new_connection] returns; when it returns NULL it has released what
    it had allocated. *)
Lemma new_connection_cases :
  (∃ w', new_connection env w = Done None w' ∧
         heap w' = heap w ∧ queue w' = queue w) ∨
  (env_alloc env (clock w) = true ∧ env_alloc env (S (clock w)) = true ∧
   env_alloc env (S (S (clock w))) = true).
Proof.
  destruct (env_alloc env (clock w)) eqn:A0; [|left].
  2:{ unfold new_connection.
      erewrite bind_done by reflexivity. mfields. rewrite A0.
      by eexists. }
  destruct (env_alloc env (S (clock w))) eqn:A1; [|left].
  2:{ unfold new_connection.
      erewrite bind_done by reflexivity. mfields. rewrite A0. cbn [negb].
      do 3 erewrite bind_done by reflexivity. mfields. rewrite A1.
      cbn [negb]. erewrite bind_done.
      2:{ apply free_connection_run. unfold fresh_ptr. mfields.
          apply lookup_insert_eq. }
      eexists. split; [reflexivity|]. mfields. split; [|done].
      rewrite delete_insert_eq. apply delete_id; exact (fresh_ptr_new w). }
  destruct (env_alloc env (S (S (clock w)))) eqn:A2; [by right | left].
  unfold new_connection.
  erewrite bind_done by reflexivity. mfields. rewrite A0. cbn [negb].
  do 3 erewrite bind_done by reflexivity. mfields. rewrite A1. cbn [negb].
  erewrite bind_done
    by (apply update_done; unfold fresh_ptr; mfields; apply lookup_insert_eq).
  erewrite bind_done by reflexivity. mfields. rewrite A2. cbn [negb].
  erewrite bind_done.
  2:{ apply free_connection_run. unfold fresh_ptr. mfields.
      apply lookup_insert_eq. }
  eexists. split; [reflexivity|]. mfields. split; [|done].
  unfold fresh_ptr. mfields.
  rewrite !delete_insert_eq.
  apply delete_id; exact (fresh_ptr_new w).
Qed.

Let r := env_accept env (3 + clock w) (l_sockfd l).

(** The four ways [accept_connection] can end, once the record is there. *)
Lemma accept_after_alloc :
  env_alloc env (clock w) = true →
  env_alloc env (S (clock w)) = true →
  env_alloc env (S (S (clock w))) = true →
  accept_connection env l w =
    if r.1 <? 0 then
      Done tt (set_trace (trace w ++ [EvFreeConn p]) (spend 4 w))
    else if r.1 >? FD_SETSIZE then
      Done tt (set_trace (trace w ++ [EvClose r.1; EvFreeConn p]) (spend 4 w))
    else
      Done tt (set_queue (p :: queue w)
                 (set_heap (<[p := accepted_record l r.1 r.2]> (heap w))
                    (spend 4 w))).
Proof.
  intros A0 A1 A2. unfold accept_connection.
  rewrite (bind_done _ _ _ _ _ (new_connection_ok A0 A1 A2)).
  unfold tick. mrun. change (clock (spend 3 w)) with (3 + clock w)%nat.
  fold r. destruct (r.1 <? 0) eqn:E1; [|destruct (r.1 >? FD_SETSIZE) eqn:E2].
  - erewrite free_connection_run by (mfields; apply lookup_insert_eq).
    f_equal. apply world_ext; mfields; try done.
    unfold fresh_ptr. mfields.
    rewrite !delete_insert_eq.
    apply delete_id; exact (fresh_ptr_new w).
  - erewrite bind_done
      by (apply close_client_socket_run; mfields; apply lookup_insert_eq).
    erewrite free_connection_run by apply put_lookup.
    f_equal. apply world_ext; unfold put; mfields; try done.
    + unfold fresh_ptr. mfields.
      rewrite !delete_insert_eq.
      apply delete_id; exact (fresh_ptr_new w).
    + unfold new_record. mfields. by rewrite <- (assoc_L (++)).
  - unfold queue_insert_head, modify. mrun.
    f_equal. apply world_ext; mfields; try done.
    by rewrite !insert_insert_eq.
Qed.

End Accept.

(** [free_connections] returns and releases every linked record. *)
Lemma free_connections_loop_run fuel : ∀ w,
  (length (queue w) ≤ fuel)%nat → NoDup (queue w) →
  (∀ p, p ∈ queue w → is_Some (heap w !! p)) →
  ∃ w', free_connections_loop fuel w = Done tt w' ∧ queue w' = [] ∧
        ∀ q, heap w' !! q = if decide (q ∈ queue w) then None
                            else heap w !! q.
Proof.
  induction fuel as [|fuel IH]; intros w Hlen Hnd Hall;
    destruct (queue w) as [|x q'] eqn:Hq; try (cbn in Hlen; lia).
  - exists w. cbn. unfold gets. erewrite bind_done by reflexivity.
    rewrite Hq. split; [done|]. split; [done|]. intros q.
    by rewrite decide_False by set_solver.
  - exists w. cbn. unfold gets. erewrite bind_done by reflexivity.
    rewrite Hq. split; [done|]. split; [done|]. intros q.
    by rewrite decide_False by set_solver.
  - apply NoDup_cons in Hnd as [Hx Hnd].
    destruct (Hall x) as [c Hc]; [left|].
    cbn [free_connections_loop]. unfold gets.
    erewrite bind_done by reflexivity. rewrite Hq. cbn [head].
    unfold queue_remove. unfold mbind at 1, M_MBind, M_bind.
    rewrite Hq, decide_True by left.
    rewrite tailq_remove_head, tailq_remove_absent by done.
    erewrite bind_done by (apply free_connection_run; mfields; exact Hc).
    match goal with |- context [free_connections_loop fuel ?w1] =>
      destruct (IH w1) as (w' & E & Hq' & Hh) end; mfields.
    + cbn in Hlen. lia.
    + done.
    + intros p Hp. rewrite lookup_delete_ne by (intros ->; done).
      apply Hall. by right.
    + exists w'. split; [done|]. split; [done|]. intros q. rewrite Hh.
      mfields. destruct (decide (q = x)) as [-> | Hne].
      * rewrite decide_False by done. rewrite decide_True by left.
        apply lookup_delete_eq.
      * rewrite lookup_delete_ne by done.
        destruct (decide (q ∈ q')); [by rewrite decide_True by by right|].
        rewrite decide_False; [done|]. by intros [?|?]%elem_of_cons.
Qed.

(** ** The invariant *)

Section Invariant.
Context `{Platform}.
Variable L : Listener → Prop.

Lemma inv_linked_ok w : inv L w → linked_ok w.
Proof.
  intros (Hnd & Hall & Hrec). split; [done|]. intros p Hp.
  destruct (Hall p Hp) as [c Hc]. exists c. split; [done|]. intros _.
  destruct (Hrec p c Hc) as (_ & (l & -> & _) & _). by eexists.
Qed.

Lemma dispatch_outcome_record_ok c c' :
  dispatch_outcome c c' → record_ok L c → record_ok L c'.
Proof.
  intros Ho (Hn & Hl & Hfd & Hh).
  destruct (dispatch_outcome_frame _ _ Ho) as (El & Efd & _ & Hnew).
  split; [tauto|]. rewrite El, Efd.
  split; [done|]. split; [done|]. by apply (dispatch_outcome_hostname c).
Qed.

Lemma inv_start : inv L empty_world.
Proof.
  split; [constructor|]. split; [intros p Hp; by inversion Hp|].
  intros p c Hc. by cbn in Hc.
Qed.

Lemma inv_init_connections w :
  inv L w → ∃ w', init_connections w = Done tt w' ∧ inv L w'.
Proof.
  intros (_ & _ & Hrec). eexists. split; [reflexivity|].
  split; [constructor|]. split; [intros p Hp; by inversion Hp | done].
Qed.

Lemma inv_handle_connections env rfds wfds w :
  inv L w →
  ∃ w', handle_connections env rfds wfds w = Done tt w' ∧ inv L w'.
Proof.
  intros Hinv. pose proof (inv_linked_ok w Hinv) as Hok.
  destruct (handle_connections_walk env rfds wfds w Hok)
    as (w' & E & _ & [Hnd' Hall']).
  exists w'. split; [done|]. split; [done|].
  split; [intros p Hp; destruct (Hall' p Hp) as (c & -> & _); by eexists|].
  intros p c' Hc'. destruct Hinv as (Hnd & Hall & Hrec).
  destruct (decide (p ∈ queue w)) as [Hp|Hp].
  - destruct (Hall p Hp) as [c Hc].
    pose proof (handle_connections_at env rfds wfds w w' p c Hok E Hp Hc)
      as Hat.
    destruct (decide (state c = CLOSED)).
    + destruct Hat as [Hn _]. congruence.
    + destruct Hat as (c1 & Hc1 & Ho & Hp'). simplify_eq.
      apply (dispatch_outcome_record_ok c); [done|]. by apply (Hrec p).
  - destruct (handle_connections_unlinked env rfds wfds w w' p Hok E Hp)
      as [Eh _].
    rewrite Eh in Hc'. by apply (Hrec p).
Qed.

Lemma inv_accept_connection env l w :
  inv L w → L l →
  ∃ w', accept_connection env l w = Done tt w' ∧ inv L w'.
Proof.
  intros Hinv Hl.
  destruct (new_connection_cases env w) as [(w1 & E & Hh & Hq)|(A0 & A1 & A2)].
  - exists w1. unfold accept_connection. rewrite (bind_done _ _ _ _ _ E).
    split; [done|]. unfold inv. by rewrite Hh, Hq.
  - rewrite (accept_after_alloc env l w A0 A1 A2).
    set (r := env_accept env (3 + clock w) (l_sockfd l)).
    destruct (r.1 <? 0) eqn:E1; [|destruct (r.1 >? FD_SETSIZE) eqn:E2];
      eexists; (split; [done|]); [done | done |].
    destruct Hinv as (Hnd & Hall & Hrec).
    pose proof (fresh_ptr_new w) as Hfresh.
    assert (fresh_ptr w ∉ queue w) as Hnew.
    { intros Hin. destruct (Hall _ Hin) as [c Hc]. congruence. }
    split; [by apply NoDup_cons|]. mfields.
    split.
    + intros p [-> | Hp]%elem_of_cons; [by rewrite lookup_insert_eq|].
      rewrite lookup_insert_ne by (intros <-; done). by apply Hall.
    + intros p c. destruct (decide (p = fresh_ptr w)) as [-> | Hne].
      * rewrite lookup_insert_eq. intros [= <-].
        unfold record_ok, hostname_ok, names_upstream. cbn.
        split; [done|]. split; [by eexists|]. split; [lia|].
        split; [done|]. intros [?|[?|?]]; done.
      * rewrite lookup_insert_ne by done. apply Hrec.
Qed.

Lemma inv_free_connections w :
  inv L w → ∃ w', free_connections w = Done tt w' ∧ inv L w'.
Proof.
  intros (Hnd & Hall & Hrec). unfold free_connections, gets.
  erewrite bind_done by reflexivity.
  destruct (free_connections_loop_run (length (queue w)) w)
    as (w' & E & Hq & Hh); [done..|].
  exists w'. split; [done|]. unfold inv. rewrite Hq.
  split; [constructor|]. split; [intros p Hp; by inversion Hp|].
  intros p c Hc. rewrite Hh in Hc.
  destruct (decide (p ∈ queue w)); [done|]. by apply (Hrec p).
Qed.

Lemma reachable_inv w : reachable L w → inv L w.
Proof.
  induction 1 as [|w w' _ IH E|env l w w' _ IH Hl E
                  |env rfds wfds w w' _ IH E|w w' _ IH E].
  - apply inv_start.
  - destruct (inv_init_connections w IH) as (w1 & E1 & Hinv). congruence.
  - destruct (inv_accept_connection env l w IH Hl) as (w1 & E1 & Hinv).
    congruence.
  - destruct (inv_handle_connections env rfds wfds w IH) as (w1 & E1 & Hinv).
    congruence.
  - destruct (inv_free_connections w IH) as (w1 & E1 & Hinv). congruence.
Qed.

End Invariant.

(** * The claims *)

Section Claims.
Context `{Platform}.
Variable env : Env.

(** C5: [close_client_socket] maps state CONNECTED to CLIENT_CLOSED and any
    other state to CLOSED; [close_server_socket] maps state CLIENT_CLOSED to
    CLOSED and any other state to SERVER_CLOSED; each performs exactly one
    [close], of the client respectively the server socket, and changes
    nothing else in the record or the store. *)
Theorem close_socket_transitions p c w :
  heap w !! p = Some c →
  (∃ s', close_client_socket p w =
           Done tt (put p (with_state s' c) [EvClose (sockfd (client c))] w) ∧
         (state c = CONNECTED → s' = CLIENT_CLOSED) ∧
         (state c ≠ CONNECTED → s' = CLOSED)) ∧
  (∃ s', close_server_socket p w =
           Done tt (put p (with_state s' c) [EvClose (sockfd (server c))] w) ∧
         (state c = CLIENT_CLOSED → s' = CLOSED) ∧
         (state c ≠ CLIENT_CLOSED → s' = SERVER_CLOSED)).
Proof.
  intros Hc. split.
  - exists (after_client_close (state c)).
    split; [by apply close_client_socket_run|].
    destruct (state c); cbn; split; congruence.
  - exists (after_server_close (state c)).
    split; [by apply close_server_socket_run|].
    destruct (state c); cbn; split; congruence.
Qed.

Lemma temporary_spec e : IS_TEMPORARY_SOCKERR e = true ↔ temporary e.
Proof. apply IS_TEMPORARY_SOCKERR_spec. Qed.

Lemma fatal_spec n e :
  (n <? 0) && negb (IS_TEMPORARY_SOCKERR e) = true ↔ n < 0 ∧ ¬ temporary e.
Proof.
  rewrite andb_true_iff, negb_true_iff, Z.ltb_lt, <- temporary_spec.
  destruct (IS_TEMPORARY_SOCKERR e); intuition congruence.
Qed.

Lemma verdict_fail fails p w w' : fails → step_verdict fails p w 1 w'.
Proof. intros Hf. split; [by left|]. split; [done|]. done. Qed.

Lemma verdict_ok fails p w w' :
  ¬ fails → queue w' = p :: tailq_remove p (queue w) →
  step_verdict fails p w 0 w'.
Proof. intros Hf Hq. split; [by right|]. split; [|done]. split; [done|tauto]. Qed.

(** The verdict of a step that, when it does not fail, runs [rest]
    without touching the queue and then moves [p] to the head. *)
Lemma transfer_verdict (fails : Prop) (failed : bool) p w w1 :
  (failed = true ↔ fails) → p ∈ queue w → queue w1 = queue w →
  ∃ ret w',
    (if failed then Done 1 w1
     else (move_to_head_of_queue p;; mret 0) w1) = Done ret w' ∧
    step_verdict fails p w ret w'.
Proof.
  intros Hf Hp Hq. destruct failed.
  - exists 1, w1. split; [done|]. apply verdict_fail. by apply Hf.
  - rewrite (bind_done _ _ _ _ _ (move_to_head_run p w1 ltac:(by rewrite Hq))).
    eexists 0, _. split; [done|]. apply verdict_ok; [|by rewrite Hq].
    intros Hn. apply Hf in Hn. done.
Qed.

(** C7: a receive step returns failure exactly when the result of the
    receive is negative with [errno] outside EAGAIN, EWOULDBLOCK and EINTR, or
    is 0; a send step exactly when the result is negative with such an
    [errno]; a step that does not fail leaves the connection at the head
    of the queue. *)
Theorem transfer_step_verdicts p c w :
  heap w !! p = Some c → p ∈ queue w →
  (state c = ACCEPTED → is_Some (listener c)) →
  let crx := buffer_recv (buffer (client c))
               (env_recv env (clock w) (sockfd (client c))) in
  let srx := buffer_recv (buffer (server c))
               (env_recv env (clock w) (sockfd (server c))) in
  let ctx := buffer_send (buffer (server c))
               (env_send env (clock w) (sockfd (client c))) in
  let stx := buffer_send (buffer (client c))
               (env_send env (clock w) (sockfd (server c))) in
  (∃ ret w', handle_connection_client_rx env p w = Done ret w' ∧
     step_verdict (rx_fails crx.1.1 (errno (io_world crx.1.2 w))) p w ret w') ∧
  (∃ ret w', handle_connection_server_rx env p w = Done ret w' ∧
     step_verdict (rx_fails srx.1.1 (errno (io_world srx.1.2 w))) p w ret w') ∧
  (∃ ret w', handle_connection_client_tx env p w = Done ret w' ∧
     step_verdict (tx_fails ctx.1.1 (errno (io_world ctx.1.2 w))) p w ret w') ∧
  (∃ ret w', handle_connection_server_tx env p w = Done ret w' ∧
     step_verdict (tx_fails stx.1.1 (errno (io_world stx.1.2 w))) p w ret w').
Proof.
  intros Hc Hp Hl crx srx ctx stx.
  assert (∀ n e, ((n <? 0) && negb (IS_TEMPORARY_SOCKERR e)) || (n =? 0) = true
                 ↔ rx_fails n e) as Hrx.
  { intros n e. unfold rx_fails.
    by rewrite orb_true_iff, fatal_spec, Z.eqb_eq. }
  repeat split.
  - rewrite (client_rx_run env p c w Hc). cbv zeta. fold crx.
    set (c1 := with_client (with_buffer crx.2 (client c)) c).
    set (w1 := put p c1 [] (io_world crx.1.2 w)).
    assert (queue w1 = queue w) as Hq1
      by (subst w1; by rewrite put_queue, io_world_queue).
    change (errno w1) with (errno (io_world crx.1.2 w)).
    set (e := errno (io_world crx.1.2 w)).
    destruct ((crx.1.1 <? 0) && negb (IS_TEMPORARY_SOCKERR e)) eqn:E1.
    { exists 1, w1. split; [done|]. apply verdict_fail, Hrx.
      by rewrite E1. }
    destruct (crx.1.1 =? 0) eqn:E2.
    { exists 1, w1. split; [done|]. apply verdict_fail, Hrx.
      by rewrite E1, E2. }
    assert (¬ rx_fails crx.1.1 e) as Hok
      by (rewrite <- Hrx, E1, E2; done).
    assert (∃ w2, (if decide (state c = ACCEPTED)
                   then handle_connection_client_hello env p else mret tt) w1
                  = Done tt w2 ∧ queue w2 = queue w) as (w2 & E & Hq2).
    { destruct (decide (state c = ACCEPTED)) as [Hs|Hs]; [|by exists w1].
      destruct (Hl Hs) as [l Hlc].
      destruct (hello_put env p c1 l w1) as (c' & evs & n & E & _);
        [apply put_lookup | done | done |].
      eexists. split; [exact E|]. by rewrite put_queue. }
    rewrite (bind_done _ _ _ _ _ E).
    rewrite (bind_done _ _ _ _ _
               (move_to_head_run p w2 ltac:(by rewrite Hq2))).
    eexists 0, _. split; [done|]. apply verdict_ok; [done|].
    mfields. by rewrite Hq2.
  - rewrite (server_rx_run env p c w Hc). cbv zeta. fold srx.
    match goal with
    | |- context [if ?a then _ else if ?b then _ else ?k ?w1] =>
        replace (if a then Done 1 w1 else if b then Done 1 w1 else k w1)
          with (if a || b then Done 1 w1 else k w1) by by destruct a, b
    end.
    apply transfer_verdict; [apply Hrx | done |].
    by rewrite put_queue, io_world_queue.
  - rewrite (client_tx_run env p c w Hc). cbv zeta. fold ctx.
    apply transfer_verdict; [apply fatal_spec | done |].
    by rewrite put_queue, io_world_queue.
  - rewrite (server_tx_run env p c w Hc). cbv zeta. fold stx.
    apply transfer_verdict; [apply fatal_spec | done |].
    by rewrite put_queue, io_world_queue.
Qed.

(** C10: on an ACCEPTED connection [handle_connection_client_rx] goes on
    to [handle_connection_client_hello] whenever the receive neither failed
    fatally nor returned 0, also after a temporary error; in that case no
    byte was added, so the hello peeks at what was buffered before, which
    may be nothing. *)
Theorem client_rx_runs_hello p c w :
  heap w !! p = Some c → state c = ACCEPTED →
  let r := buffer_recv (buffer (client c))
             (env_recv env (clock w) (sockfd (client c))) in
  let w1 := put p (with_client (with_buffer r.2 (client c)) c) []
              (io_world r.1.2 w) in
  0 < r.1.1 ∨ (r.1.1 < 0 ∧ temporary (errno w1)) →
  handle_connection_client_rx env p w =
    (handle_connection_client_hello env p;;
     move_to_head_of_queue p;; mret 0) w1 ∧
  (r.1.1 < 0 → r.2 = buffer (client c)).
Proof.
  intros Hc Hs r w1 Hr. split.
  - rewrite (client_rx_run env p c w Hc). cbv zeta. fold r w1.
    rewrite decide_True by done.
    destruct ((r.1.1 <? 0) && negb (IS_TEMPORARY_SOCKERR (errno w1))) eqn:E1.
    { apply fatal_spec in E1. destruct E1 as [? ?], Hr as [?|[? ?]];
        [lia | done]. }
    destruct (r.1.1 =? 0) eqn:E2; [lia | done].
  - subst r. destruct (env_recv env (clock w) (sockfd (client c))); cbn; [lia|done].
Qed.

(** C3: a successful client hello on an ACCEPTED connection (the parser
    returns a hostname, the lookup returns a descriptor the reactor can
    watch) leaves the connection CONNECTED with the client buffer exactly as
    it was: if it held N bytes it still holds those N bytes. *)
Theorem hello_keeps_client_buffer p c l w N :
  heap w !! p = Some c → state c = ACCEPTED → listener c = Some l →
  buffer_len (buffer (client c)) = N →
  let parsed := parse_packet l (buffer_peek (buffer (client c)) 1460) in
  let fd := env_lookup env (clock w) parsed.2 in
  0 ≤ parsed.1 → 0 ≤ fd → fd ≤ FD_SETSIZE →
  ∃ w' c', handle_connection_client_hello env p w = Done tt w' ∧
           heap w' !! p = Some c' ∧ state c' = CONNECTED ∧
           buffer (client c') = buffer (client c) ∧
           buffer_len (buffer (client c')) = N.
Proof.
  intros Hc Hs Hl HN parsed fd Hr Hfd Hfd'.
  rewrite (hello_connected env p c l w Hc Hl Hr Hfd Hfd').
  eexists _, _. split; [done|]. split; [apply put_lookup|]. done.
Qed.

(** C8: in [handle_connection_client_hello] on an ACCEPTED connection, a
    parse result of -1 returns with the record unchanged; a result of -2
    or below closes the connection with [close_connection]; a hostname whose
    lookup fails leaves the record CLOSED, with its hostname field as it
    was, the parsed hostname freed, and a negative number where the server
    descriptor would be. *)
Theorem hello_failure_paths p c l w :
  heap w !! p = Some c → state c = ACCEPTED → listener c = Some l →
  let bytes := buffer_peek (buffer (client c)) 1460 in
  let parsed := parse_packet l bytes in
  let fd := env_lookup env (clock w) parsed.2 in
  (parsed.1 = -1 →
     handle_connection_client_hello env p w =
       Done tt (put p c [EvParse bytes] w)) ∧
  (parsed.1 ≤ -2 →
     handle_connection_client_hello env p w =
       close_connection p (put p c [EvParse bytes] w) ∧
     close_connection p (put p c [EvParse bytes] w) =
       Done tt (put p (with_state CLOSED c)
                  [EvParse bytes; EvClose (sockfd (client c))] w)) ∧
  (0 ≤ parsed.1 → fd < 0 →
     ∃ w' c', handle_connection_client_hello env p w = Done tt w' ∧
       heap w' !! p = Some c' ∧ state c' = CLOSED ∧
       hostname c' = hostname c ∧ sockfd (server c') < 0 ∧
       trace w' = trace w ++ [EvParse bytes; EvLookup parsed.2;
                              EvClose (sockfd (client c))]
                          ++ str_frees parsed.2).
Proof.
  intros Hc Hs Hl bytes parsed fd. split; [|split].
  - intros Hr. by apply (hello_incomplete env p c l w).
  - intros Hr. rewrite (hello_rejected env p c l w Hc Hl Hs Hr).
    rewrite (close_connection_run p c) by apply put_lookup.
    unfold closed_record, closing_events. rewrite Hs, put_put. done.
  - intros Hr Hfd.
    rewrite (hello_lookup_failed env p c l w Hc Hl Hs Hr Hfd).
    eexists _, _. split; [done|]. split; [apply put_lookup|]. done.
Qed.

(** C1 (as amended): one call of [handle_connections] returns; every
    record that is CLOSED when the call begins is unlinked and released by
    it, so every record still linked afterwards was linked and not CLOSED
    when the call began; and every such record is still linked and
    allocated afterwards, whatever state the call left it in, so that the
    next call meets it again. *)
Theorem handle_connections_reaps_closed rfds wfds w :
  linked_ok w →
  ∃ w', handle_connections env rfds wfds w = Done tt w' ∧ linked_ok w' ∧
    (∀ p c, p ∈ queue w → heap w !! p = Some c → state c = CLOSED →
            (p ∉ queue w') ∧ heap w' !! p = None) ∧
    (∀ p, p ∈ queue w' →
          ∃ c, p ∈ queue w ∧ heap w !! p = Some c ∧ state c ≠ CLOSED) ∧
    (∀ p c, p ∈ queue w → heap w !! p = Some c → state c ≠ CLOSED →
            p ∈ queue w' ∧ is_Some (heap w' !! p)).
Proof.
  intros Hok.
  destruct (handle_connections_walk env rfds wfds w Hok)
    as (w' & E & _ & Hok').
  exists w'. split; [done|]. split; [done|]. split; [|split].
  - intros p c Hp Hc Hs.
    pose proof (handle_connections_at env rfds wfds w w' p c Hok E Hp Hc) as Hat.
    rewrite decide_True in Hat by done. tauto.
  - intros p Hp'. destruct (decide (p ∈ queue w)) as [Hp|Hp].
    + destruct (proj2 Hok p Hp) as (c & Hc & _). exists c.
      split; [done|]. split; [done|]. intros Hs.
      pose proof (handle_connections_at env rfds wfds w w' p c Hok E Hp Hc)
        as Hat.
      rewrite decide_True in Hat by done. tauto.
    + by destruct (handle_connections_unlinked env rfds wfds w w' p Hok E Hp).
  - intros p c Hp Hc Hs.
    pose proof (handle_connections_at env rfds wfds w w' p c Hok E Hp Hc) as Hat.
    rewrite decide_False in Hat by done.
    destruct Hat as (c' & -> & _ & ?). eauto.
Qed.

(** One tick on a SERVER_CLOSED record: the client buffer is not touched,
    the server buffer does not grow, and the record is CLOSED afterwards
    unless bytes are left in the server buffer. *)
Lemma server_closed_tick rfds wfds w w' p c :
  linked_ok w → handle_connections env rfds wfds w = Done tt w' →
  p ∈ queue w → heap w !! p = Some c → state c = SERVER_CLOSED →
  ∃ c', heap w' !! p = Some c' ∧ p ∈ queue w' ∧
        buffer (client c') = buffer (client c) ∧
        (buffer_len (buffer (server c')) ≤ buffer_len (buffer (server c)))%nat ∧
        ((state c' = SERVER_CLOSED ∧
          (0 < buffer_len (buffer (server c')))%nat) ∨ state c' = CLOSED).
Proof.
  intros Hok E Hp Hc Hs.
  pose proof (handle_connections_at env rfds wfds w w' p c Hok E Hp Hc) as Hat.
  rewrite decide_False in Hat by (rewrite Hs; done).
  destruct Hat as (c' & Hc' & Ho & Hp'). exists c'.
  split; [done|]. split; [done|].
  unfold dispatch_outcome in Ho. rewrite Hs in Ho.
  destruct Ho as (c1 & (b & -> & Hlen) & [[-> Hpos] | ->]); mfields.
  - rewrite Hs. auto.
  - rewrite Hs. cbn. auto.
Qed.

(** Ticks do not bring back a record that was released. *)
Lemma run_ticks_released ticks : ∀ w w' p,
  linked_ok w → run_ticks env ticks w = Done tt w' →
  p ∉ queue w → heap w !! p = None → heap w' !! p = None.
Proof.
  induction ticks as [|t ticks IH]; intros w w' p Hok E Hp Hn.
  - cbn in E. by injection E as <-.
  - cbn [run_ticks] in E. apply bind_inv in E as ([] & w1 & E1 & E2).
    destruct (handle_connections_walk env t.1 t.2 w Hok) as (w1' & E1' & _ & Hok1).
    rewrite E1 in E1'. injection E1' as <-.
    destruct (handle_connections_unlinked env t.1 t.2 w w1 p Hok E1 Hp)
      as [Eh Hq1].
    apply (IH w1 w' p Hok1 E2 Hq1). by rewrite Eh.
Qed.

Lemma run_ticks_returns ticks : ∀ w,
  linked_ok w → ∃ w', run_ticks env ticks w = Done tt w' ∧ linked_ok w'.
Proof.
  induction ticks as [|t ticks IH]; intros w Hok; [by exists w|].
  destruct (handle_connections_walk env t.1 t.2 w Hok) as (w1 & E1 & _ & Hok1).
  destruct (IH w1 Hok1) as (w' & E & Hok'). exists w'.
  cbn [run_ticks]. by rewrite (bind_done _ _ _ _ _ E1).
Qed.

(** A CLOSED record is released by the next tick. *)
Lemma run_ticks_closed ticks w p c :
  linked_ok w → p ∈ queue w → heap w !! p = Some c → state c = CLOSED →
  ∃ w', run_ticks env ticks w = Done tt w' ∧
        (heap w' !! p = None ∨ (ticks = [] ∧ w' = w)).
Proof.
  intros Hok Hp Hc Hs. destruct ticks as [|t ticks]; [exists w; auto|].
  destruct (handle_connections_walk env t.1 t.2 w Hok) as (w1 & E1 & _ & Hok1).
  pose proof (handle_connections_at env t.1 t.2 w w1 p c Hok E1 Hp Hc) as Hat.
  rewrite decide_True in Hat by done. destruct Hat as [Hn Hq].
  destruct (run_ticks_returns ticks w1 Hok1) as (w' & E & _).
  exists w'. cbn [run_ticks]. rewrite (bind_done _ _ _ _ _ E1).
  split; [done|]. left. by apply (run_ticks_released ticks w1 w' p).
Qed.

(** One visit of a SERVER_CLOSED record, exactly: the record is CLOSED
    afterwards when the send was attempted and failed or when no byte is
    left in the server buffer, and in no other case. *)
Lemma dispatch_server_closed rfds wfds p c w :
  heap w !! p = Some c → p ∈ queue w → state c = SERVER_CLOSED →
  ∃ w' c', dispatch env rfds wfds p w = Done tt w' ∧
    heap w' !! p = Some c' ∧
    (state c' = CLOSED ↔
       client_send_failed env wfds c (clock w) ∨
       buffer_len (buffer (server c')) = 0%nat).
Proof.
  intros Hc Hq Hs. unfold dispatch, client_send_failed, send_error.
  rewrite (bind_done _ _ _ _ _ (deref_done _ _ _ Hc)). rewrite Hs.
  destruct (FD_ISSET (sockfd (client c)) wfds) eqn:Eset; cbn [andb].
  2:{ erewrite bind_done by reflexivity.
      rewrite (bind_done _ _ _ _ _ (deref_done _ _ _ Hc)). cbn [negb orb Z.eqb].
      destruct (buffer_len (buffer (server c)) =? 0)%nat eqn:El.
      - rewrite (close_client_socket_run p c w Hc). eexists _, _.
        split; [done|]. split; [apply put_lookup|]. mfields. rewrite Hs.
        apply Nat.eqb_eq in El. cbn. split; [by right | done].
      - exists w, c. split; [done|]. split; [done|]. rewrite Hs.
        apply Nat.eqb_neq in El. split; [done|]. intros [(? & _)|?]; done. }
  destruct (0 <? buffer_len (buffer (server c)))%nat eqn:Epos.
  2:{ erewrite bind_done by reflexivity.
      rewrite (bind_done _ _ _ _ _ (deref_done _ _ _ Hc)). cbn [negb orb Z.eqb].
      apply Nat.ltb_ge in Epos.
      assert ((buffer_len (buffer (server c)) =? 0)%nat = true) as ->
        by (apply Nat.eqb_eq; lia).
      rewrite (close_client_socket_run p c w Hc). eexists _, _.
      split; [done|]. split; [apply put_lookup|]. mfields. rewrite Hs. cbn.
      split; [intros _; right; lia | done]. }
  apply Nat.ltb_lt in Epos.
  pose proof (client_tx_run env p c w Hc) as Etx. cbv zeta in Etx.
  destruct (env_send env (clock w) (sockfd (client c))) as [k|e] eqn:Esend.
  - cbn [buffer_send fst snd] in Etx |- *.
    set (n := (k `min` buffer_len (buffer (server c)))%nat) in *.
    set (b1 := {| cap := cap (buffer (server c));
                  data := drop n (data (buffer (server c))) |}) in *.
    set (c1 := with_server (with_buffer b1 (server c)) c) in *.
    assert ((Z.of_nat n <? 0) = false) as En by lia.
    rewrite En in Etx. cbn [andb] in Etx.
    rewrite (bind_done _ _ _ _ _
               (move_to_head_run p (put p c1 [] (io_world None w)) Hq)) in Etx.
    rewrite (bind_done _ _ _ _ _ Etx).
    erewrite bind_done by (apply deref_done; mfields; apply lookup_insert_eq).
    cbn [negb orb Z.eqb].
    destruct (buffer_len (buffer (server c1)) =? 0)%nat eqn:El.
    + erewrite close_client_socket_run
        by (mfields; apply lookup_insert_eq).
      eexists _, _. split; [done|]. split; [apply put_lookup|].
      apply Nat.eqb_eq in El. change (state c1) with (state c).
      mfields. rewrite Hs. cbn. split; [intros _; by right | done].
    + eexists _, c1. split; [done|].
      split; [mfields; apply lookup_insert_eq|].
      apply Nat.eqb_neq in El. change (state c1) with (state c). rewrite Hs.
      split; [done|]. intros [(_ & _ & [])|?]; done.
  - cbn [buffer_send fst snd] in Etx |- *.
    assert (with_server (with_buffer (buffer (server c)) (server c)) c = c)
      as Eid by (by destruct c as [? ? [] ? ?]).
    rewrite Eid in Etx. change (-1 <? 0) with true in Etx. cbn [andb] in Etx.
    change (errno (put p c [] (io_world (Some e) w))) with e in Etx.
    destruct (IS_TEMPORARY_SOCKERR e) eqn:Et; cbn [negb] in Etx.
    + rewrite (bind_done _ _ _ _ _
                 (move_to_head_run p (put p c [] (io_world (Some e) w)) Hq))
        in Etx.
      rewrite (bind_done _ _ _ _ _ Etx).
      erewrite bind_done by (apply deref_done; mfields; apply lookup_insert_eq).
      cbn [negb orb Z.eqb].
      assert ((buffer_len (buffer (server c)) =? 0)%nat = false) as ->
        by (apply Nat.eqb_neq; lia).
      eexists _, c. split; [done|].
      split; [mfields; apply lookup_insert_eq|]. rewrite Hs.
      split; [done|]. intros [(_ & _ & [_ Hnt])|?]; [|lia].
      destruct Hnt. by apply IS_TEMPORARY_SOCKERR_spec.
    + rewrite (bind_done _ _ _ _ _ Etx).
      erewrite bind_done by (apply deref_done; apply put_lookup).
      cbn [negb orb Z.eqb].
      erewrite close_client_socket_run by apply put_lookup.
      eexists _, _. split; [done|]. split; [apply put_lookup|].
      mfields. rewrite Hs. cbn. split; [intros _; left|done].
      split; [done|]. split; [done|]. split; [lia|].
      unfold temporary. rewrite <- IS_TEMPORARY_SOCKERR_spec, Et. done.
Qed.

Lemma walk_visit rfds wfds l w w' p :
  walk (visited env rfds wfds) l w w' → p ∈ l → NoDup l →
  ∃ w1 w2, visited env rfds wfds p w1 w2 ∧
           heap w1 !! p = heap w !! p ∧ (p ∈ queue w1 ↔ p ∈ queue w) ∧
           heap w' !! p = heap w2 !! p ∧ (head l = Some p → w1 = w).
Proof.
  induction 1 as [|x l w w1 w2 Hv Hw IH]; intros Hp Hnd; [by inversion Hp|].
  apply NoDup_cons in Hnd as [Hx Hnd].
  destruct (decide (p = x)) as [-> | Hne].
  - exists w, w1. split; [done|]. split; [done|]. split; [done|].
    split; [|done]. by apply (walk_other env rfds wfds l).
  - apply elem_of_cons in Hp as [? | Hp]; [done|].
    destruct (IH Hp Hnd) as (wa & wb & Hv' & E1 & E2 & E3 & _).
    destruct (visited_other _ _ _ _ _ _ _ Hv Hne) as [E5 E6].
    exists wa, wb. rewrite E1, E2, E5, E6. split; [done|].
    split; [done|]. split; [done|]. split; [done|]. cbn. congruence.
Qed.

(** One tick on a SERVER_CLOSED record, exactly: [t] is the time at which
    the loop reaches the record. *)
Lemma server_closed_verdict rfds wfds w p c :
  linked_ok w → p ∈ queue w → heap w !! p = Some c →
  state c = SERVER_CLOSED →
  ∃ w' c' t, handle_connections env rfds wfds w = Done tt w' ∧
    heap w' !! p = Some c' ∧ (head (queue w) = Some p → t = clock w) ∧
    (state c' = CLOSED ↔
       client_send_failed env wfds c t ∨
       buffer_len (buffer (server c')) = 0%nat).
Proof.
  intros Hok Hp Hc Hs.
  destruct (handle_connections_walk env rfds wfds w Hok) as (w' & E & Hw & _).
  destruct (walk_visit rfds wfds _ _ _ p Hw Hp (proj1 Hok))
    as (w1 & w2 & [Ed _] & E1 & E2 & E3 & E4).
  destruct (dispatch_server_closed rfds wfds p c w1)
    as (w2' & c' & Ed' & Hc' & Hv); [by rewrite E1 | by apply E2 | done |].
  rewrite Ed in Ed'. injection Ed' as <-.
  exists w', c', (clock w1). split; [done|]. split; [by rewrite E3|].
  split; [|done]. intros Hh. by rewrite (E4 Hh).
Qed.

(** C2 (as amended): once a connection is SERVER_CLOSED, a dispatch tick
    does not touch its client buffer and does not let its server buffer
    (the bytes still owed to the client) grow; the record is still linked
    afterwards, SERVER_CLOSED or CLOSED, and it is CLOSED exactly when the
    send of this tick failed or no byte is left in the server buffer.
    [t] is the time at which the loop reaches the record, the time of the
    call when the record is the first of the list.  Over any number of
    ticks, and until the record is released, the same holds: the client
    buffer is as it was, the server buffer has not grown, and the record
    is SERVER_CLOSED only with bytes left in the server buffer. *)
Theorem server_closed_drains rfds wfds ticks w p c :
  linked_ok w → p ∈ queue w → heap w !! p = Some c →
  state c = SERVER_CLOSED →
  (∃ w' c' t, handle_connections env rfds wfds w = Done tt w' ∧
     heap w' !! p = Some c' ∧ p ∈ queue w' ∧
     (head (queue w) = Some p → t = clock w) ∧
     buffer (client c') = buffer (client c) ∧
     (buffer_len (buffer (server c')) ≤ buffer_len (buffer (server c)))%nat ∧
     (state c' = SERVER_CLOSED ∨ state c' = CLOSED) ∧
     (state c' = CLOSED ↔
        client_send_failed env wfds c t ∨
        buffer_len (buffer (server c')) = 0%nat)) ∧
  (∃ w', run_ticks env ticks w = Done tt w' ∧
    match heap w' !! p with
    | None => True
    | Some c' =>
        buffer (client c') = buffer (client c) ∧
        (buffer_len (buffer (server c')) ≤ buffer_len (buffer (server c)))%nat ∧
        (state c' = SERVER_CLOSED ∨ state c' = CLOSED) ∧
        (ticks ≠ [] → state c' = SERVER_CLOSED →
         (0 < buffer_len (buffer (server c')))%nat)
    end).
Proof.
  intros Hok Hp Hc Hs. split.
  - destruct (server_closed_verdict rfds wfds w p c Hok Hp Hc Hs)
      as (w' & c' & t & E & Hc' & Ht & Hv).
    destruct (server_closed_tick rfds wfds w w' p c Hok E Hp Hc Hs)
      as (c1 & Hc1 & Hp' & Hcb & Hlen & Hst).
    rewrite Hc' in Hc1. injection Hc1 as <-.
    exists w', c', t. do 6 (split; [done|]). split; [|done].
    destruct Hst as [[? _]|?]; auto.
  - revert w p c Hok Hp Hc Hs.
    induction ticks as [|tk ticks IH]; intros w p c Hok Hp Hc Hs.
    + exists w. split; [done|]. rewrite Hc.
      split; [done|]. split; [done|]. split; [by left|]. by intros Hne.
    + destruct (handle_connections_walk env tk.1 tk.2 w Hok)
        as (w1 & E1 & _ & Hok1).
      destruct (server_closed_tick tk.1 tk.2 w w1 p c Hok E1 Hp Hc Hs)
        as (c1 & Hc1 & Hp1 & Hcb & Hlen & [[Hs1 Hpos] | Hs1]).
      * destruct (IH w1 p c1 Hok1 Hp1 Hc1 Hs1) as (w' & E & Hpost).
        exists w'. cbn [run_ticks]. rewrite (bind_done _ _ _ _ _ E1).
        split; [done|]. destruct (heap w' !! p) as [c'|] eqn:Hc'; [|done].
        destruct Hpost as (Hcb' & Hlen' & Hst & Hne).
        split; [congruence|]. split; [lia|]. split; [done|].
        intros _ Hs'. destruct ticks as [|t' ticks]; [|by apply Hne].
        cbn in E. injection E as <-. rewrite Hc1 in Hc'.
        by injection Hc' as <-.
      * destruct (run_ticks_closed ticks w1 p c1 Hok1 Hp1 Hc1 Hs1)
          as (w' & E & Hend).
        exists w'. cbn [run_ticks]. rewrite (bind_done _ _ _ _ _ E1).
        split; [done|]. destruct Hend as [-> | [_ ->]]; [done|].
        rewrite Hc1. split; [done|]. split; [done|]. split; [by right|].
        intros _ Hs'. congruence.
Qed.

Lemma foldl_max_le (l : list Z) : ∀ m b,
  foldl Z.max m l ≤ b ↔ m ≤ b ∧ Forall (λ x, x ≤ b) l.
Proof.
  induction l as [|x l IH]; intros m b; cbn.
  - rewrite Forall_nil. tauto.
  - rewrite IH, Forall_cons, Z.max_lub_iff. tauto.
Qed.

Lemma elem_of_concat {A} (x : A) (ls : list (list A)) :
  x ∈ concat ls ↔ ∃ l, x ∈ l ∧ l ∈ ls.
Proof.
  induction ls as [|l0 ls IH]; cbn.
  - split; [by intros ?%elem_of_nil | by intros (? & _ & ?%elem_of_nil)].
  - rewrite elem_of_app, IH. split.
    + intros [Hx | (l & Hx & Hl)]; [exists l0 | exists l];
        (split; [done|]); [left | by right].
    + intros (l & Hx & [-> | Hl]%elem_of_cons); [by left | right; eauto].
Qed.

Lemma table_open_sockets c x :
  x ∈ table_R c ++ table_W c → x ∈ open_sockets c.
Proof.
  unfold table_R, table_W, open_sockets.
  destruct (state c); repeat case_match; set_solver.
Qed.

Lemma max_added_le_open max cs : max_added max cs ≤ max_open max cs.
Proof.
  unfold max_added. apply foldl_max_le.
  assert (max_open max cs ≤ max_open max cs) as Hle by lia.
  unfold max_open at 1 in Hle. apply foldl_max_le in Hle as [Hm Hall].
  split; [done|]. rewrite Forall_forall in Hall |- *.
  intros x Hx. apply Hall.
  apply elem_of_concat in Hx as (l0 & Hx & Hl0).
  apply list_elem_of_fmap in Hl0 as (c & -> & Hc).
  apply elem_of_concat. exists (open_sockets c).
  split; [by apply table_open_sockets|]. by apply list_elem_of_fmap_2.
Qed.

Lemma fd_set_connection_table c rfds wfds max :
  fd_set_connection c (rfds, wfds, max) =
    (list_to_set (table_R c) ∪ rfds, list_to_set (table_W c) ∪ wfds,
     foldl Z.max max (open_sockets c)).
Proof.
  unfold fd_set_connection, fd_set_accepted_arm, table_R, table_W,
    open_sockets, FD_SET.
  destruct (state c); repeat case_match; cbn;
    repeat match goal with |- (_, _) = (_, _) => f_equal end;
    try reflexivity; set_solver.
Qed.

Lemma fd_set_walk_table w q : ∀ cs rfds wfds max,
  mapM (λ p, heap w !! p) q = Some cs →
  fd_set_walk q (rfds, wfds, max) w =
    Done (list_to_set (concat (table_R <$> cs)) ∪ rfds,
          list_to_set (concat (table_W <$> cs)) ∪ wfds,
          max_open max cs) w.
Proof.
  induction q as [|p q IH]; intros cs rfds wfds max Hcs.
  - cbn in Hcs. injection Hcs as <-. cbn. unfold mret, M_MRet, M_ret.
    f_equal.
    repeat match goal with |- (_, _) = (_, _) => f_equal end;
      try reflexivity; set_solver.
  - cbn in Hcs. destruct (heap w !! p) as [c|] eqn:Hc; [|done]. cbn in Hcs.
    destruct (mapM (λ p, heap w !! p) q) as [cs'|] eqn:Hcs'; [|done].
    cbn in Hcs. injection Hcs as <-. cbn [fd_set_walk].
    rewrite (bind_done _ _ _ _ _ (deref_done _ _ _ Hc)).
    rewrite fd_set_connection_table, (IH cs') by done.
    unfold max_open. cbn. rewrite foldl_app, !list_to_set_app_L.
    f_equal.
    repeat match goal with |- (_, _) = (_, _) => f_equal end;
      try reflexivity; set_solver.
Qed.

(** C6 (as amended): [fd_set_connections] adds to the read and write sets
    exactly the descriptors of the per-state table, and returns the maximum
    of the input value and the sockets every connection has open in its
    state (server and client for CONNECTED, client for ACCEPTED and
    SERVER_CLOSED, server for CLIENT_CLOSED), whether the buffers let them
    be added or not; that is at least the maximum of the input value and
    the added descriptors. *)
Theorem fd_set_connections_table rfds wfds max w cs :
  mapM (λ p, heap w !! p) (queue w) = Some cs →
  fd_set_connections rfds wfds max w =
    Done (list_to_set (concat (table_R <$> cs)) ∪ rfds,
          list_to_set (concat (table_W <$> cs)) ∪ wfds,
          max_open max cs) w ∧
  max_added max cs ≤ max_open max cs.
Proof.
  intros Hcs. split; [|apply max_added_le_open].
  unfold fd_set_connections, gets. erewrite bind_done by reflexivity.
  by apply fd_set_walk_table.
Qed.

End Claims.

Section ReachableClaims.
Context `{Platform}.

(** C4: when [accept] returns a descriptor above FD_SETSIZE,
    [accept_connection] closes that descriptor, releases the record without
    linking it, and leaves the heap and the queue as they were; and no
    ACCEPTED record of a reachable store holds a descriptor above
    FD_SETSIZE. *)
Theorem accept_rejects_large_fd :
  (∀ env l w,
     env_alloc env (clock w) = true →
     env_alloc env (S (clock w)) = true →
     env_alloc env (S (S (clock w))) = true →
     let fd := (env_accept env (3 + clock w) (l_sockfd l)).1 in
     0 ≤ fd → fd > FD_SETSIZE →
     ∃ w', accept_connection env l w = Done tt w' ∧
           heap w' = heap w ∧ queue w' = queue w ∧
           trace w' = trace w ++ [EvClose fd; EvFreeConn (fresh_ptr w)]) ∧
  (∀ L w p c,
     reachable L w → heap w !! p = Some c → state c = ACCEPTED →
     sockfd (client c) ≤ FD_SETSIZE).
Proof.
  split.
  - intros env l w A0 A1 A2 fd Hfd Hbig.
    rewrite (accept_after_alloc env l w A0 A1 A2). fold fd.
    destruct (fd <? 0) eqn:E1; [lia|].
    destruct (fd >? FD_SETSIZE) eqn:E2; [|lia].
    by eexists.
  - intros L w p c Hr Hc _.
    destruct (reachable_inv L w Hr) as (_ & _ & Hrec).
    destruct (Hrec p c Hc) as (_ & _ & Hfd & _). lia.
Qed.

(** C9 (as amended): in every reachable store, a CONNECTED, CLIENT_CLOSED
    or SERVER_CLOSED record that was accepted on a listener whose parser
    stores a non-empty hostname when it succeeds has a non-empty hostname,
    whatever the other listeners do; and a record with a hostname is
    CONNECTED, CLIENT_CLOSED, SERVER_CLOSED or CLOSED: the hostname stays on
    a CLOSED record until [free_connection] releases it. *)
Theorem reachable_hostname L w p c :
  reachable L w → heap w !! p = Some c →
  (∀ l, listener c = Some l → parser_names_host l →
        names_upstream (state c) →
        ∃ s, hostname c = Some s ∧ s ≠ EmptyString) ∧
  (hostname c ≠ None → names_upstream (state c) ∨ state c = CLOSED).
Proof.
  intros Hr Hc.
  destruct (reachable_inv L w Hr) as (_ & _ & Hrec).
  destruct (Hrec p c Hc) as (_ & _ & _ & Hh1 & Hh2).
  split; [|done]. intros l Hl HL Hs.
  destruct (Hh2 Hs) as (l' & bytes & Hl' & Hr' & ->).
  rewrite Hl in Hl'. injection Hl' as <-. by apply HL.
Qed.

End ReachableClaims.

(** * The scenario: witnesses and counterexamples *)

Lemma linked_okb_sound w : linked_okb w = true → linked_ok w.
Proof.
  unfold linked_okb. rewrite andb_true_iff, bool_decide_eq_true.
  rewrite forallb_forall. intros [Hnd Hall]. split; [done|].
  intros p Hp. apply list_elem_of_In in Hp. specialize (Hall p Hp).
  destruct (heap w !! p) as [c|]; [|done]. exists c. split; [done|].
  intros Hs. rewrite Hs in Hall. by destruct (listener c).
Qed.

Section Examples.
Local Existing Instance linux_glibc.

Lemma sni_listener_names_host : parser_names_host sni_listener.
Proof.
  intros bytes Hr. destruct bytes; cbn in *; [lia|].
  eexists. split; [reflexivity | discriminate].
Qed.

Lemma reachable_accepted L : L sni_listener → reachable L w_accepted.
Proof.
  intros HL. apply (reach_accept L env_data sni_listener empty_world);
    [apply reach_start | done | vm_compute; reflexivity].
Qed.

Lemma reachable_connected L : L sni_listener → reachable L w_connected.
Proof.
  intros HL. apply (reach_handle L env_data {[5]} ∅ w_accepted);
    [by apply reachable_accepted | vm_compute; reflexivity].
Qed.

Lemma reachable_server_closed L : L sni_listener → reachable L w_server_closed.
Proof.
  intros HL. apply (reach_handle L env_data {[7]} ∅ w_flowing);
    [|vm_compute; reflexivity].
  apply (reach_handle L env_data {[7]} {[7]} w_connected);
    [by apply reachable_connected | vm_compute; reflexivity].
Qed.

Lemma reachable_closed_named L : L sni_listener → reachable L w_closed_named.
Proof.
  intros HL. apply (reach_handle L env_eof {[5; 7]} ∅ w_connected);
    [by apply reachable_connected | vm_compute; reflexivity].
Qed.

Lemma reachable_full L : L slow_listener → reachable L w_full.
Proof.
  intros HL.
  apply (reach_handle L env_flood {[5]} ∅
           (world_of (record_at slow_listener ACCEPTED [] [] 0 None) 4 []));
    [|vm_compute; reflexivity].
  apply (reach_accept L env_flood slow_listener empty_world);
    [apply reach_start | done | vm_compute; reflexivity].
Qed.

Lemma reachable_mixed : reachable (λ _, True) w_mixed.
Proof.
  apply (reach_handle _ env_two {[5; 6]} ∅ w_two);
    [|vm_compute; reflexivity].
  apply (reach_accept _ env_two sni_listener w_one);
    [|done|vm_compute; reflexivity].
  apply (reach_accept _ env_two blank_listener empty_world);
    [apply reach_start | done | vm_compute; reflexivity].
Qed.

Lemma one_linked : (1%positive ∈ [1%positive]).
Proof. left. Qed.

(** *** C1 *)

Lemma handle_connections_reaps_closed_witness :
  linked_ok w_closed ∧
  ∃ w', handle_connections env_eof ∅ ∅ w_closed = Done tt w' ∧
    linked_ok w' ∧
    (∀ p c, p ∈ queue w_closed → heap w_closed !! p = Some c →
            state c = CLOSED → (p ∉ queue w') ∧ heap w' !! p = None) ∧
    (∀ p, p ∈ queue w' →
          ∃ c, p ∈ queue w_closed ∧ heap w_closed !! p = Some c ∧
               state c ≠ CLOSED) ∧
    (∀ p c, p ∈ queue w_closed → heap w_closed !! p = Some c →
            state c ≠ CLOSED → p ∈ queue w' ∧ is_Some (heap w' !! p)).
Proof.
  split; [apply linked_okb_sound; vm_compute; reflexivity|].
  apply (handle_connections_reaps_closed env_eof ∅ ∅ w_closed).
  apply linked_okb_sound. vm_compute. reflexivity.
Defined.

(** The claim C1 fails as stated: an ACCEPTED client whose first receive
    is at the end of the stream is closed by the tick, and the tick
    leaves its record linked, in state CLOSED. *)
Lemma handle_connections_leaves_closed_linked :
  reachable (λ _, True) w_accepted ∧
  handle_connections env_eof {[5]} ∅ w_accepted = Done tt w_closed ∧
  ¬ no_closed_linked w_closed.
Proof.
  split; [by apply reachable_accepted|].
  split; [vm_compute; reflexivity|].
  intros Hn. by apply (Hn 1%positive c_closed one_linked).
Qed.

(** *** C2 *)

Lemma server_closed_linked : linked_ok w_server_closed.
Proof. apply linked_okb_sound. vm_compute. reflexivity. Qed.

Lemma server_closed_drains_witness :
  linked_ok w_server_closed ∧ 1%positive ∈ queue w_server_closed ∧
  heap w_server_closed !! 1%positive = Some c_server_closed ∧
  state c_server_closed = SERVER_CLOSED ∧
  (∃ w' c' t, handle_connections env_broken ∅ {[5]} w_server_closed
                = Done tt w' ∧
     heap w' !! 1%positive = Some c' ∧ 1%positive ∈ queue w' ∧
     (head (queue w_server_closed) = Some 1%positive →
      t = clock w_server_closed) ∧
     buffer (client c') = buffer (client c_server_closed) ∧
     (buffer_len (buffer (server c')) ≤
        buffer_len (buffer (server c_server_closed)))%nat ∧
     (state c' = SERVER_CLOSED ∨ state c' = CLOSED) ∧
     (state c' = CLOSED ↔
        client_send_failed env_broken {[5]} c_server_closed t ∨
        buffer_len (buffer (server c')) = 0%nat)) ∧
  (∃ w', run_ticks env_broken [(∅, {[5]})] w_server_closed = Done tt w' ∧
    match heap w' !! 1%positive with
    | None => True
    | Some c' =>
        buffer (client c') = buffer (client c_server_closed) ∧
        (buffer_len (buffer (server c')) ≤
           buffer_len (buffer (server c_server_closed)))%nat ∧
        (state c' = SERVER_CLOSED ∨ state c' = CLOSED) ∧
        ([(∅, {[5]})] ≠ ([] : list (fd_set * fd_set)) →
         state c' = SERVER_CLOSED →
         (0 < buffer_len (buffer (server c')))%nat)
    end).
Proof.
  split; [exact server_closed_linked|].
  split; [exact one_linked|]. split; [reflexivity|]. split; [reflexivity|].
  apply (server_closed_drains env_broken ∅ {[5]} [(∅, {[5]})]
           w_server_closed 1%positive c_server_closed);
    [exact server_closed_linked | exact one_linked | reflexivity
    | reflexivity].
Defined.

(** The tick of the witness: the send to the client fails with EPIPE and
    the record is CLOSED, still linked, with its three bytes unsent. *)
Lemma server_closed_send_fails :
  client_send_failed env_broken {[5]} c_server_closed
    (clock w_server_closed) ∧
  handle_connections env_broken ∅ {[5]} w_server_closed =
    Done tt (put 1%positive (with_state CLOSED c_server_closed) [EvClose 5]
               (set_errno 32 (spend 1 w_server_closed))).
Proof.
  split; [|vm_compute; reflexivity].
  split; [reflexivity|]. split; [cbn; lia|].
  split; [reflexivity|]. intros [?|[?|?]]; discriminate.
Qed.

(** The claim C2 fails as stated: this SERVER_CLOSED connection has an
    empty client buffer, and still no number of ticks moves it to CLOSED
    while the client is not writable, because it is the server buffer
    that has to drain. *)
Lemma server_closed_waits_for_server_buffer :
  reachable (λ _, True) w_server_closed ∧
  heap w_server_closed !! 1%positive = Some c_server_closed ∧
  state c_server_closed = SERVER_CLOSED ∧
  buffer_len (buffer (client c_server_closed)) = 0%nat ∧
  ∀ n, run_ticks env_data (replicate n (∅, ∅)) w_server_closed
         = Done tt w_server_closed.
Proof.
  split; [by apply reachable_server_closed|]. do 3 (split; [reflexivity|]).
  induction n as [|n IH]; [reflexivity|].
  cbn [replicate run_ticks].
  rewrite (bind_done _ _ _ tt w_server_closed) by (vm_compute; reflexivity).
  exact IH.
Qed.

(** *** C3 *)

Lemma hello_keeps_client_buffer_witness :
  heap w_hello !! 1%positive = Some c_hello ∧ state c_hello = ACCEPTED ∧
  listener c_hello = Some sni_listener ∧
  buffer_len (buffer (client c_hello)) = 3%nat ∧
  0 ≤ (parse_packet sni_listener hello_bytes).1 ∧
  0 ≤ env_lookup env_data 5 (Some svc) ∧
  env_lookup env_data 5 (Some svc) ≤ FD_SETSIZE ∧
  ∃ w' c', handle_connection_client_hello env_data 1%positive w_hello
             = Done tt w' ∧
           heap w' !! 1%positive = Some c' ∧ state c' = CONNECTED ∧
           buffer (client c') = buffer (client c_hello) ∧
           buffer_len (buffer (client c')) = 3%nat.
Proof.
  do 4 (split; [reflexivity|]).
  split; [vm_compute; discriminate|]. split; [vm_compute; discriminate|].
  split; [vm_compute; discriminate|].
  apply (hello_keeps_client_buffer env_data 1%positive c_hello sni_listener
           w_hello 3%nat); try reflexivity; vm_compute; discriminate.
Defined.

(** *** C4 *)

Lemma accept_rejects_large_fd_witness :
  (∃ w', accept_connection env_crowded sni_listener empty_world = Done tt w' ∧
         heap w' = heap empty_world ∧ queue w' = queue empty_world ∧
         trace w' = trace empty_world ++
                      [EvClose 2000; EvFreeConn (fresh_ptr empty_world)]) ∧
  sockfd (client c_accepted) ≤ FD_SETSIZE.
Proof.
  split.
  - apply (proj1 accept_rejects_large_fd env_crowded sni_listener empty_world);
      try reflexivity; vm_compute; discriminate.
  - apply (proj2 accept_rejects_large_fd (λ _, True) w_accepted 1%positive
             c_accepted); [by apply reachable_accepted | reflexivity..].
Defined.

(** *** C5 *)

Lemma close_socket_transitions_witness :
  heap w_connected !! 1%positive = Some c_connected ∧
  (∃ s', close_client_socket 1%positive w_connected =
           Done tt (put 1%positive (with_state s' c_connected)
                      [EvClose (sockfd (client c_connected))] w_connected) ∧
         (state c_connected = CONNECTED → s' = CLIENT_CLOSED) ∧
         (state c_connected ≠ CONNECTED → s' = CLOSED)) ∧
  (∃ s', close_server_socket 1%positive w_connected =
           Done tt (put 1%positive (with_state s' c_connected)
                      [EvClose (sockfd (server c_connected))] w_connected) ∧
         (state c_connected = CLIENT_CLOSED → s' = CLOSED) ∧
         (state c_connected ≠ CLIENT_CLOSED → s' = SERVER_CLOSED)).
Proof.
  split; [reflexivity|].
  apply (close_socket_transitions 1%positive c_connected w_connected).
  reflexivity.
Defined.

(** *** C6 *)

Lemma fd_set_connections_table_witness :
  mapM (λ p, heap w_connected !! p) (queue w_connected) = Some [c_connected] ∧
  fd_set_connections ∅ ∅ 3 w_connected =
    Done (list_to_set (concat (table_R <$> [c_connected])) ∪ ∅,
          list_to_set (concat (table_W <$> [c_connected])) ∪ ∅,
          max_open 3 [c_connected]) w_connected ∧
  max_added 3 [c_connected] ≤ max_open 3 [c_connected].
Proof.
  split; [reflexivity|].
  apply (fd_set_connections_table ∅ ∅ 3 w_connected [c_connected]).
  reflexivity.
Defined.

(** The claim C6 fails as stated: for this ACCEPTED connection with a full
    client buffer and nothing to send, no descriptor is added to either
    set, so the maximum of the input value 0 and the added descriptors is
    0; the function returns 5, the client socket. *)
Lemma fd_set_connections_counts_unwatched_socket :
  reachable (λ _, True) w_full ∧
  mapM (λ p, heap w_full !! p) (queue w_full) = Some [c_full] ∧
  fd_set_connections ∅ ∅ 0 w_full = Done (∅, ∅, 5) w_full ∧
  max_added 0 [c_full] = 0.
Proof.
  split; [by apply reachable_full|]. split; [reflexivity|].
  split; vm_compute; reflexivity.
Qed.

(** *** C7 *)

Lemma transfer_step_verdicts_witness :
  heap w_connected !! 1%positive = Some c_connected ∧
  1%positive ∈ queue w_connected ∧
  (state c_connected = ACCEPTED → is_Some (listener c_connected)) ∧
  ∃ ret w', handle_connection_server_rx env_eof 1%positive w_connected
              = Done ret w' ∧
    step_verdict
      (rx_fails
         (buffer_recv (buffer (server c_connected))
            (env_recv env_eof (clock w_connected)
               (sockfd (server c_connected)))).1.1
         (errno (io_world
                   (buffer_recv (buffer (server c_connected))
                      (env_recv env_eof (clock w_connected)
                         (sockfd (server c_connected)))).1.2
                   w_connected)))
      1%positive w_connected ret w'.
Proof.
  split; [reflexivity|]. split; [exact one_linked|].
  split; [intros Hs; discriminate Hs|].
  exact (proj1 (proj2 (transfer_step_verdicts env_eof 1%positive c_connected
                         w_connected eq_refl one_linked
                         (λ Hs, ltac:(discriminate Hs))))).
Defined.

(** *** C8 *)

Lemma hello_failure_paths_witness :
  heap w_accepted !! 1%positive = Some c_accepted ∧
  state c_accepted = ACCEPTED ∧ listener c_accepted = Some sni_listener ∧
  (parse_packet sni_listener []).1 = -1 ∧
  handle_connection_client_hello env_eof 1%positive w_accepted =
    Done tt (put 1%positive c_accepted [EvParse []] w_accepted).
Proof.
  do 4 (split; [reflexivity|]).
  apply (hello_failure_paths env_eof 1%positive c_accepted sni_listener
           w_accepted); reflexivity.
Defined.

(** *** C9 *)

Lemma reachable_hostname_witness :
  reachable (λ _, True) w_mixed ∧
  heap w_mixed !! 2%positive = Some c_named ∧
  listener c_named = Some sni_listener ∧ parser_names_host sni_listener ∧
  names_upstream (state c_named) ∧
  (∃ s, hostname c_named = Some s ∧ s ≠ EmptyString) ∧
  (hostname c_named ≠ None →
   names_upstream (state c_named) ∨ state c_named = CLOSED).
Proof.
  split; [exact reachable_mixed|]. split; [reflexivity|].
  split; [reflexivity|]. split; [exact sni_listener_names_host|].
  split; [by left|].
  destruct (reachable_hostname (λ _, True) w_mixed 2%positive c_named
              reachable_mixed eq_refl) as [H1 H2].
  split; [|exact H2].
  apply (H1 sni_listener eq_refl sni_listener_names_host). by left.
Defined.

(** The claim C9 fails as stated, in both halves.  In the store of the
    witness the other connection, accepted on a listener whose parser
    succeeds with an empty name, is CONNECTED and its hostname is the empty
    string; and after both peers have closed, a record is CLOSED, still
    linked, and still carries its hostname. *)
Lemma hostname_not_as_claimed :
  (reachable (λ _, True) w_mixed ∧
   heap w_mixed !! 1%positive = Some c_blank ∧
   state c_blank = CONNECTED ∧ hostname c_blank = Some EmptyString) ∧
  (reachable parser_names_host w_closed_named ∧
   heap w_closed_named !! 1%positive = Some c_closed_named ∧
   hostname c_closed_named = Some svc ∧
   ¬ names_upstream (state c_closed_named)).
Proof.
  split.
  - split; [exact reachable_mixed|]. by do 2 (split; [reflexivity|]).
  - split; [apply reachable_closed_named, sni_listener_names_host|].
    do 2 (split; [reflexivity|]). by intros [?|[?|?]].
Qed.

(** *** C10 *)

Lemma client_rx_runs_hello_witness :
  heap w_accepted !! 1%positive = Some c_accepted ∧
  state c_accepted = ACCEPTED ∧
  (let r := buffer_recv (buffer (client c_accepted))
              (env_recv env_again (clock w_accepted)
                 (sockfd (client c_accepted))) in
   let w1 := put 1%positive
               (with_client (with_buffer r.2 (client c_accepted)) c_accepted)
               [] (io_world r.1.2 w_accepted) in
   (0 < r.1.1 ∨ (r.1.1 < 0 ∧ temporary (errno w1))) ∧
   handle_connection_client_rx env_again 1%positive w_accepted =
     (handle_connection_client_hello env_again 1%positive;;
      move_to_head_of_queue 1%positive;; mret 0) w1 ∧
   (r.1.1 < 0 → r.2 = buffer (client c_accepted))).
Proof.
  do 2 (split; [reflexivity|]). cbv zeta.
  assert (0 < -1 ∨ (-1 < 0 ∧ temporary 11)) as Hr
    by (right; split; [reflexivity | left; reflexivity]).
  split; [exact Hr|].
  apply (client_rx_runs_hello env_again 1%positive c_accepted w_accepted);
    [reflexivity | reflexivity | exact Hr].
Defined.

(** After a receive that would block, the hello runs on the empty buffer:
    the parser is called with no bytes. *)
Example hello_on_empty_buffer :
  ∃ w', handle_connection_client_rx env_again 1%positive w_accepted
          = Done 0 w' ∧
        trace w' = [EvParse []].
Proof. eexists. split; vm_compute; reflexivity. Qed.

End Examples.

(** * Beyond the claims *)

(** ** [close_connection], [free_connections], [new_connection] *)

Lemma closed_record_fixed c : closed_record (closed_record c) = closed_record c.
Proof. unfold closed_record. by destruct (state c) eqn:Es; cbn; rewrite ?Es. Qed.

Lemma closed_record_quiet c : closing_events (closed_record c) = [].
Proof. unfold closed_record, closing_events. by destruct (state c) eqn:Es; cbn; rewrite ?Es. Qed.

(** X1: [close_connection] returns on every allocated record, leaves a
    NEW record alone and any other record CLOSED, writes no other record
    and not the queue, and is idempotent: a second call changes nothing
    and closes nothing. *)
Theorem close_connection_idempotent p c w :
  heap w !! p = Some c →
  ∃ w' c', close_connection p w = Done tt w' ∧
    heap w' !! p = Some c' ∧
    (state c = NEW → w' = w) ∧ (state c ≠ NEW → state c' = CLOSED) ∧
    (∀ q, q ≠ p → heap w' !! q = heap w !! q) ∧ queue w' = queue w ∧
    close_connection p w' = Done tt w'.
Proof.
  intros Hc. rewrite (close_connection_run p c w Hc).
  exists (put p (closed_record c) (closing_events c) w), (closed_record c).
  split; [done|]. split; [apply put_lookup|].
  split; [|split; [|split; [|split]]].
  - intros Hs. unfold closed_record, closing_events. rewrite Hs.
    by apply put_same.
  - intros Hs. unfold closed_record. by destruct (state c) eqn:Es.
  - intros q Hq. by apply put_lookup_ne.
  - done.
  - rewrite (close_connection_run p (closed_record c)) by apply put_lookup.
    rewrite closed_record_fixed, closed_record_quiet.
    by rewrite put_same by apply put_lookup.
Qed.

Lemma Forall2_delete_absent (h : gmap ptr Connection) x q cs :
  x ∉ q →
  Forall2 (λ p c, h !! p = Some c) q cs →
  Forall2 (λ p c, delete x h !! p = Some c) q cs.
Proof.
  intros Hx Hall. induction Hall as [|p c q cs Hp Hall IH]; [constructor|].
  apply not_elem_of_cons in Hx as [Hne Hx]. constructor; [|by apply IH].
  by rewrite lookup_delete_ne.
Qed.

Lemma free_connections_loop_trace fuel : ∀ w cs,
  (length (queue w) ≤ fuel)%nat → NoDup (queue w) →
  Forall2 (λ p c, heap w !! p = Some c) (queue w) cs →
  ∃ w', free_connections_loop fuel w = Done tt w' ∧ queue w' = [] ∧
        (∀ q, heap w' !! q = if decide (q ∈ queue w) then None
                             else heap w !! q) ∧
        trace w' = trace w ++ concat (zip_with release_events cs (queue w)).
Proof.
  induction fuel as [|fuel IH]; intros w cs Hlen Hnd Hcs;
    destruct (queue w) as [|x q'] eqn:Hq; try (cbn in Hlen; lia).
  - exists w. cbn. unfold gets. erewrite bind_done by reflexivity.
    rewrite Hq. split; [done|]. split; [done|].
    split; [intros q; by rewrite decide_False by set_solver|].
    apply Forall2_nil_inv_l in Hcs as ->. cbn. by rewrite (right_id_L [] (++)).
  - exists w. cbn. unfold gets. erewrite bind_done by reflexivity.
    rewrite Hq. split; [done|]. split; [done|].
    split; [intros q; by rewrite decide_False by set_solver|].
    apply Forall2_nil_inv_l in Hcs as ->. cbn. by rewrite (right_id_L [] (++)).
  - apply NoDup_cons in Hnd as [Hx Hnd].
    apply Forall2_cons_inv_l in Hcs as (c & cs' & Hc & Hcs' & ->).
    cbn [free_connections_loop]. unfold gets.
    erewrite bind_done by reflexivity. rewrite Hq. cbn [head].
    unfold queue_remove. unfold mbind at 1, M_MBind, M_bind.
    rewrite Hq, decide_True by left.
    rewrite tailq_remove_head, tailq_remove_absent by done.
    erewrite bind_done by (apply free_connection_run; mfields; exact Hc).
    match goal with |- context [free_connections_loop fuel ?w1] =>
      destruct (IH w1 cs') as (w' & E & Hq' & Hh & Ht) end; mfields.
    + cbn in Hlen. lia.
    + done.
    + by apply Forall2_delete_absent.
    + exists w'. split; [done|]. split; [done|]. split.
      * intros q. rewrite Hh. mfields.
        destruct (decide (q = x)) as [-> | Hne].
        -- rewrite decide_False by done. rewrite decide_True by left.
           apply lookup_delete_eq.
        -- rewrite lookup_delete_ne by done.
           destruct (decide (q ∈ q')); [by rewrite decide_True by by right|].
           rewrite decide_False; [done|]. by intros [?|?]%elem_of_cons.
      * rewrite Ht. mfields. cbn [zip_with concat]. unfold release_events at 2.
        by rewrite <- !(assoc_L (++)).
Qed.

(** X2: on a queue of distinct, allocated records [free_connections]
    returns with the queue empty and every linked record deallocated, it
    leaves the records that were not linked alone, and for each linked
    record in queue order it makes exactly the calls of its release: the
    closes of the sockets open in its state, the release of its hostname
    if it has one, and the release of the record. *)
Theorem free_connections_releases_all w cs :
  NoDup (queue w) →
  mapM (λ p, heap w !! p) (queue w) = Some cs →
  ∃ w', free_connections w = Done tt w' ∧ queue w' = [] ∧
        (∀ q, heap w' !! q = if decide (q ∈ queue w) then None
                             else heap w !! q) ∧
        trace w' = trace w ++ concat (zip_with release_events cs (queue w)).
Proof.
  intros Hnd Hcs. apply mapM_Some in Hcs.
  unfold free_connections, gets. erewrite bind_done by reflexivity.
  by apply free_connections_loop_trace.
Qed.

Section MoreAccept.
Context `{Platform}.
Variable env : Env.

(** X3: [new_connection] returns; when it returns NULL, whichever of its
    three allocations failed, the heap is as before (the partly built
    record has been released); when it returns a record, the address was
    not in use, the record is NEW with fresh buffers, no hostname and no
    listener, and nothing was logged in the trace.  The queue is never
    touched. *)
Theorem new_connection_no_leak w :
  ∃ r w', new_connection env w = Done r w' ∧ queue w' = queue w ∧
    match r with
    | None => heap w' = heap w
    | Some p => heap w !! p = None ∧ heap w' = <[p := new_record]> (heap w) ∧
                trace w' = trace w
    end.
Proof.
  destruct (new_connection_cases env w) as [(w' & E & Hh & Hq) | (A0 & A1 & A2)].
  - by exists None, w'.
  - rewrite (new_connection_ok env w A0 A1 A2). eexists _, _.
    split; [done|]. split; [done|]. split; [apply fresh_ptr_new | done].
Qed.

(** All the ways [accept_connection] can end. *)
Lemma accept_connection_cases l w :
  ∃ w', accept_connection env l w = Done tt w' ∧
    (∀ q c, heap w !! q = Some c → heap w' !! q = Some c) ∧
    (queue w' = queue w ∧ heap w' = heap w ∨
     ∃ p fd a, queue w' = p :: queue w ∧ heap w !! p = None ∧
               heap w' = <[p := accepted_record l fd a]> (heap w) ∧
               0 ≤ fd ≤ FD_SETSIZE ∧
               (fd, a) = env_accept env (3 + clock w) (l_sockfd l)).
Proof.
  destruct (new_connection_cases env w) as [(w1 & E & Hh & Hq) | (A0 & A1 & A2)].
  - exists w1. unfold accept_connection. rewrite (bind_done _ _ _ _ _ E).
    split; [done|]. rewrite Hh. auto.
  - rewrite (accept_after_alloc env l w A0 A1 A2).
    set (r := env_accept env (3 + clock w) (l_sockfd l)).
    pose proof (fresh_ptr_new w) as Hfresh.
    destruct (r.1 <? 0) eqn:E1; [|destruct (r.1 >? FD_SETSIZE) eqn:E2];
      eexists; (split; [done|]); mfields; [auto | auto |].
    split.
    + intros q c Hc. rewrite lookup_insert_ne; [done|]. congruence.
    + right. exists (fresh_ptr w), r.1, r.2.
      split; [done|]. split; [done|]. split; [done|]. split; [lia|].
      by destruct r.
Qed.

(** X4: [accept_connection] returns whatever the allocator and [accept]
    answer; it never writes a record that was already allocated; and it
    either leaves the queue as it was or puts one record, at an address
    that was not in use, at the head of the queue: ACCEPTED, bound to the
    listener, with the descriptor [accept] returned (between 0 and
    FD_SETSIZE), empty buffers and no hostname. *)
Theorem accept_connection_outcomes l w :
  ∃ w', accept_connection env l w = Done tt w' ∧
    (∀ q c, heap w !! q = Some c → heap w' !! q = Some c) ∧
    (queue w' = queue w ∧ heap w' = heap w ∨
     ∃ p fd a, queue w' = p :: queue w ∧ heap w !! p = None ∧
               heap w' = <[p := accepted_record l fd a]> (heap w) ∧
               0 ≤ fd ≤ FD_SETSIZE ∧
               (fd, a) = env_accept env (3 + clock w) (l_sockfd l)).
Proof. apply accept_connection_cases. Qed.

(** X5: when [accept] fails, [accept_connection] closes no descriptor: it
    only releases the record it had allocated, and leaves the heap and the
    queue as they were. *)
Theorem accept_failure_closes_nothing l w :
  env_alloc env (clock w) = true →
  env_alloc env (S (clock w)) = true →
  env_alloc env (S (S (clock w))) = true →
  (env_accept env (3 + clock w) (l_sockfd l)).1 < 0 →
  ∃ w', accept_connection env l w = Done tt w' ∧
        heap w' = heap w ∧ queue w' = queue w ∧
        trace w' = trace w ++ [EvFreeConn (fresh_ptr w)].
Proof.
  intros A0 A1 A2 Hfd. rewrite (accept_after_alloc env l w A0 A1 A2).
  destruct (_ <? 0) eqn:E1; [|lia]. by eexists.
Qed.

End MoreAccept.

(** X6: on a queue of distinct records, [move_to_head_of_queue] puts the
    record first, keeps every other record in the order it had, neither
    loses nor duplicates a record, does not write the heap, and has no
    further effect when repeated. *)
Theorem move_to_head_permutes p w :
  NoDup (queue w) → p ∈ queue w →
  ∃ w', move_to_head_of_queue p w = Done tt w' ∧
        queue w' = p :: tailq_remove p (queue w) ∧
        queue w' ≡ₚ queue w ∧ NoDup (queue w') ∧ heap w' = heap w ∧
        move_to_head_of_queue p w' = Done tt w'.
Proof.
  intros Hnd Hp. rewrite (move_to_head_run p w Hp). eexists.
  split; [done|]. mfields. split; [done|].
  assert (NoDup (p :: tailq_remove p (queue w))) as Hnd'.
  { apply NoDup_cons. split; [apply tailq_remove_not_in|].
    by apply tailq_remove_NoDup. }
  split; [|split; [done|split; [done|]]].
  - apply NoDup_Permutation; [done | done |]. intros x.
    rewrite elem_of_cons, tailq_remove_elem.
    destruct (decide (x = p)) as [-> | Hne]; tauto.
  - rewrite move_to_head_run by (mfields; left). mfields.
    rewrite tailq_remove_head, tailq_remove_idem. by destruct w.
Qed.

(** ** The client hello *)

Section MoreHello.
Context `{Platform}.
Variable env : Env.

(** X7: when the upstream lookup returns a descriptor above FD_SETSIZE,
    the client hello closes that descriptor and the client socket, once
    each, frees the parsed hostname without storing it, and leaves the
    record CLOSED; the queue is not touched. *)
Theorem hello_rejects_large_upstream_fd p c l w :
  heap w !! p = Some c → state c = ACCEPTED → listener c = Some l →
  let bytes := buffer_peek (buffer (client c)) 1460 in
  let parsed := parse_packet l bytes in
  let fd := env_lookup env (clock w) parsed.2 in
  0 ≤ parsed.1 → 0 ≤ fd → fd > FD_SETSIZE →
  ∃ w' c', handle_connection_client_hello env p w = Done tt w' ∧
    heap w' !! p = Some c' ∧ state c' = CLOSED ∧
    hostname c' = hostname c ∧ queue w' = queue w ∧
    trace w' = trace w ++ [EvParse bytes; EvLookup parsed.2; EvClose fd;
                           EvClose (sockfd (client c))]
                       ++ str_frees parsed.2.
Proof.
  intros Hc Hs Hl bytes parsed fd Hr Hfd Hbig.
  rewrite (hello_fd_too_big env p c l w Hc Hl Hs Hr Hfd Hbig).
  eexists _, _. split; [done|]. split; [apply put_lookup|]. done.
Qed.

(** X8: however the parser and the lookup answer, the client hello on an
    ACCEPTED record returns, leaves the client side of the record (socket,
    address, buffer), the server buffer, the listener, the queue and every
    other record as they were, and ends in one of three ways: the record
    is unchanged and still ACCEPTED; or it is CLOSED with the hostname
    field as it was; or it is CONNECTED, with a server descriptor between 0 and
    FD_SETSIZE and the hostname a successful parse returned. *)
Theorem hello_leaves_client_side p c l w :
  heap w !! p = Some c → state c = ACCEPTED → listener c = Some l →
  let parsed := parse_packet l (buffer_peek (buffer (client c)) 1460) in
  ∃ w' c', handle_connection_client_hello env p w = Done tt w' ∧
    heap w' !! p = Some c' ∧
    client c' = client c ∧ buffer (server c') = buffer (server c) ∧
    listener c' = listener c ∧ queue w' = queue w ∧
    (∀ q, q ≠ p → heap w' !! q = heap w !! q) ∧
    (c' = c ∨
     (state c' = CLOSED ∧ hostname c' = hostname c) ∨
     (state c' = CONNECTED ∧ 0 ≤ sockfd (server c') ≤ FD_SETSIZE ∧
      0 ≤ parsed.1 ∧ hostname c' = parsed.2)).
Proof.
  intros Hc Hs Hl parsed.
  set (bytes := buffer_peek (buffer (client c)) 1460).
  set (r := (parse_packet l bytes).1).
  set (fd := env_lookup env (clock w) (parse_packet l bytes).2).
  destruct (decide (r = -1)) as [Hr|Hr];
    [|destruct (decide (r ≤ -2)) as [Hr'|Hr'];
       [|destruct (decide (fd < 0)) as [Hfd|Hfd];
          [|destruct (decide (fd > FD_SETSIZE)) as [Hfd'|Hfd']]]].
  - rewrite (hello_incomplete env p c l w Hc Hl Hr).
    eexists _, _. split; [done|]. split; [apply put_lookup|].
    repeat (split; [done|]). split; [by intros; rewrite put_lookup_ne | by left].
  - rewrite (hello_rejected env p c l w Hc Hl Hs Hr').
    eexists _, _. split; [done|]. split; [apply put_lookup|].
    repeat (split; [done|]). split; [by intros; rewrite put_lookup_ne|].
    right. by left.
  - rewrite (hello_lookup_failed env p c l w Hc Hl Hs) by (fold bytes r fd; lia).
    eexists _, _. split; [done|]. split; [apply put_lookup|].
    repeat (split; [done|]). split; [by intros; rewrite put_lookup_ne|].
    right. by left.
  - rewrite (hello_fd_too_big env p c l w Hc Hl Hs) by (fold bytes r fd; lia).
    eexists _, _. split; [done|]. split; [apply put_lookup|].
    repeat (split; [done|]). split; [by intros; rewrite put_lookup_ne|].
    right. by left.
  - rewrite (hello_connected env p c l w Hc Hl) by (fold bytes r fd; lia).
    eexists _, _. split; [done|]. split; [apply put_lookup|].
    repeat (split; [done|]). split; [by intros; rewrite put_lookup_ne|].
    right. right. split; [done|].
    split; [change (0 ≤ fd ≤ FD_SETSIZE); lia|].
    split; [change (0 ≤ r); lia | done].
Qed.

End MoreHello.

(** ** What a tick does to one record *)

Lemma dispatch_outcome_edge c c' :
  dispatch_outcome c c' → tick_edge (state c) (state c').
Proof.
  unfold dispatch_outcome, tick_edge. intros Ho.
  destruct (state c) eqn:Es; [| | | | |done]; outcome_cases;
    rewrite ?Es in *; cbn; try done; auto 6.
Qed.

Lemma dispatch_outcome_identity c c' :
  dispatch_outcome c c' →
  listener c' = listener c ∧ sockfd (client c') = sockfd (client c) ∧
  addr (client c') = addr (client c) ∧
  (state c ≠ ACCEPTED →
   sockfd (server c') = sockfd (server c) ∧
   addr (server c') = addr (server c) ∧ hostname c' = hostname c).
Proof.
  unfold dispatch_outcome. intros Ho.
  destruct (state c) eqn:Es; [| | | | |done]; outcome_cases;
    cbn in *; rewrite ?Es in *; cbn in *; try congruence; repeat split; try done.
Qed.

Section MoreTicks.
Context `{Platform}.
Variable env : Env.

(** X9: one call of [handle_connections] moves every linked record that
    is not CLOSED along an edge of the state machine, and never backwards:
    a NEW record stays NEW; an ACCEPTED record stays ACCEPTED or becomes
    CONNECTED, CLIENT_CLOSED or CLOSED; a CONNECTED record stays CONNECTED or
    becomes CLIENT_CLOSED, SERVER_CLOSED or CLOSED; a half-closed record
    stays as it is or becomes CLOSED. *)
Theorem handle_connections_follows_fsm rfds wfds w p c :
  linked_ok w → p ∈ queue w → heap w !! p = Some c → state c ≠ CLOSED →
  ∃ w' c', handle_connections env rfds wfds w = Done tt w' ∧
           heap w' !! p = Some c' ∧ p ∈ queue w' ∧
           tick_edge (state c) (state c').
Proof.
  intros Hok Hp Hc Hs.
  destruct (handle_connections_walk env rfds wfds w Hok) as (w' & E & _ & _).
  pose proof (handle_connections_at env rfds wfds w w' p c Hok E Hp Hc) as Hat.
  rewrite decide_False in Hat by done. destruct Hat as (c' & Hc' & Ho & Hp').
  exists w', c'. split; [done|]. split; [done|]. split; [done|].
  by apply dispatch_outcome_edge.
Qed.

(** X10: one call of [handle_connections] never changes the listener, the
    client descriptor or the client address of a linked record, and once
    the record is past ACCEPTED it never changes its server descriptor, its
    server address or its hostname either. *)
Theorem handle_connections_keeps_identity rfds wfds w p c :
  linked_ok w → p ∈ queue w → heap w !! p = Some c → state c ≠ CLOSED →
  ∃ w' c', handle_connections env rfds wfds w = Done tt w' ∧
           heap w' !! p = Some c' ∧
           listener c' = listener c ∧
           sockfd (client c') = sockfd (client c) ∧
           addr (client c') = addr (client c) ∧
           (state c ≠ ACCEPTED →
            sockfd (server c') = sockfd (server c) ∧
            addr (server c') = addr (server c) ∧
            hostname c' = hostname c).
Proof.
  intros Hok Hp Hc Hs.
  destruct (handle_connections_walk env rfds wfds w Hok) as (w' & E & _ & _).
  pose proof (handle_connections_at env rfds wfds w w' p c Hok E Hp Hc) as Hat.
  rewrite decide_False in Hat by done. destruct Hat as (c' & Hc' & Ho & Hp').
  exists w', c'. split; [done|]. split; [done|].
  by apply dispatch_outcome_identity.
Qed.

(** One tick on a CLIENT_CLOSED record: the mirror image of the
    SERVER_CLOSED arm. *)
Lemma client_closed_tick rfds wfds w w' p c :
  linked_ok w → handle_connections env rfds wfds w = Done tt w' →
  p ∈ queue w → heap w !! p = Some c → state c = CLIENT_CLOSED →
  ∃ c', heap w' !! p = Some c' ∧ p ∈ queue w' ∧
        buffer (server c') = buffer (server c) ∧
        (buffer_len (buffer (client c')) ≤ buffer_len (buffer (client c)))%nat ∧
        ((state c' = CLIENT_CLOSED ∧
          (0 < buffer_len (buffer (client c')))%nat) ∨ state c' = CLOSED).
Proof.
  intros Hok E Hp Hc Hs.
  pose proof (handle_connections_at env rfds wfds w w' p c Hok E Hp Hc) as Hat.
  rewrite decide_False in Hat by (rewrite Hs; done).
  destruct Hat as (c' & Hc' & Ho & Hp'). exists c'.
  split; [done|]. split; [done|].
  unfold dispatch_outcome in Ho. rewrite Hs in Ho.
  destruct Ho as (c1 & (b & -> & Hlen) & [[-> Hpos] | ->]); mfields.
  - rewrite Hs. auto.
  - rewrite Hs. cbn. auto.
Qed.

(** X11: once a connection is CLIENT_CLOSED, over any number of dispatch
    ticks and until the record is released, its server buffer is not
    touched, the length of its client buffer (the bytes still owed to the
    upstream) never grows, and it stays CLIENT_CLOSED or becomes CLOSED; at
    the end of a tick it is CLIENT_CLOSED only if bytes are left in the
    client buffer. *)
Theorem client_closed_drains ticks : ∀ w p c,
  linked_ok w → p ∈ queue w → heap w !! p = Some c →
  state c = CLIENT_CLOSED →
  ∃ w', run_ticks env ticks w = Done tt w' ∧
    match heap w' !! p with
    | None => True
    | Some c' =>
        buffer (server c') = buffer (server c) ∧
        (buffer_len (buffer (client c')) ≤ buffer_len (buffer (client c)))%nat ∧
        (state c' = CLIENT_CLOSED ∨ state c' = CLOSED) ∧
        (ticks ≠ [] → state c' = CLIENT_CLOSED →
         (0 < buffer_len (buffer (client c')))%nat)
    end.
Proof.
  induction ticks as [|t ticks IH]; intros w p c Hok Hp Hc Hs.
  - exists w. split; [done|]. rewrite Hc.
    split; [done|]. split; [done|]. split; [by left|]. by intros Hne.
  - destruct (handle_connections_walk env t.1 t.2 w Hok)
      as (w1 & E1 & _ & Hok1).
    destruct (client_closed_tick t.1 t.2 w w1 p c Hok E1 Hp Hc Hs)
      as (c1 & Hc1 & Hp1 & Hcb & Hlen & [[Hs1 Hpos] | Hs1]).
    + destruct (IH w1 p c1 Hok1 Hp1 Hc1 Hs1) as (w' & E & Hpost).
      exists w'. cbn [run_ticks]. rewrite (bind_done _ _ _ _ _ E1).
      split; [done|]. destruct (heap w' !! p) as [c'|] eqn:Hc'; [|done].
      destruct Hpost as (Hcb' & Hlen' & Hst & Hne).
      split; [congruence|]. split; [lia|]. split; [done|].
      intros _ Hs'. destruct ticks as [|t' ticks]; [|by apply Hne].
      cbn in E. injection E as <-. rewrite Hc1 in Hc'. by injection Hc' as <-.
    + destruct (run_ticks_closed env ticks w1 p c1 Hok1 Hp1 Hc1 Hs1)
        as (w' & E & Hend).
      exists w'. cbn [run_ticks]. rewrite (bind_done _ _ _ _ _ E1).
      split; [done|]. destruct Hend as [-> | [_ ->]]; [done|].
      rewrite Hc1. split; [done|]. split; [done|]. split; [by right|].
      intros _ Hs'. congruence.
Qed.

End MoreTicks.

(** ** The server descriptor *)

Section Upstream.
Context `{Platform}.
Variable env : Env.

(** The client hello, with the bound on the descriptor it stores. *)
Lemma hello_put_bounded p c l w :
  heap w !! p = Some c → listener c = Some l → state c = ACCEPTED →
  ∃ c' evs n,
    handle_connection_client_hello env p w =
      Done tt (put p c' evs (spend n w)) ∧ upstream_ok c'.
Proof.
  intros Hc Hl Hs.
  set (bytes := buffer_peek (buffer (client c)) 1460).
  set (r := (parse_packet l bytes).1).
  set (fd := env_lookup env (clock w) (parse_packet l bytes).2).
  unfold upstream_ok, names_upstream.
  destruct (decide (r = -1)) as [Hr|Hr];
    [|destruct (decide (r ≤ -2)) as [Hr'|Hr'];
       [|destruct (decide (fd < 0)) as [Hfd|Hfd];
          [|destruct (decide (fd > FD_SETSIZE)) as [Hfd'|Hfd']]]].
  - rewrite (hello_incomplete env p c l w Hc Hl Hr).
    eexists _, _, 0%nat. split; [by destruct w|]. rewrite Hs.
    intros [?|[?|?]]; done.
  - rewrite (hello_rejected env p c l w Hc Hl Hs Hr').
    eexists _, _, 0%nat. split; [by destruct w|].
    intros [?|[?|?]]; done.
  - rewrite (hello_lookup_failed env p c l w Hc Hl Hs) by (fold bytes r fd; lia).
    eexists _, _, 1%nat. split; [done|]. intros [?|[?|?]]; done.
  - rewrite (hello_fd_too_big env p c l w Hc Hl Hs) by (fold bytes r fd; lia).
    eexists _, _, 1%nat. split; [done|]. intros [?|[?|?]]; done.
  - rewrite (hello_connected env p c l w Hc Hl) by (fold bytes r fd; lia).
    eexists _, _, 2%nat. split; [done|]. intros _.
    change (0 ≤ fd ≤ FD_SETSIZE). lia.
Qed.

Lemma hoare_hello_upstream p c0 :
  state c0 = ACCEPTED → is_Some (listener c0) →
  hoare p (λ c, c = c0) (handle_connection_client_hello env p)
    (λ _ c', upstream_ok c').
Proof.
  intros Hs [l Hl]. apply hoare_put. intros w c Hc Hq ->.
  destruct (hello_put_bounded p c0 l w Hc Hl Hs) as (c' & evs & n & E & Hok).
  exists tt, c', evs, (spend n w). rewrite E. eauto 10.
Qed.

Lemma upstream_ok_sent_server c c' :
  upstream_ok c → sent_from_server_buffer c c' → upstream_ok c'.
Proof. intros Hok (b & -> & _). exact Hok. Qed.

Lemma upstream_ok_client_closed c :
  upstream_ok c → upstream_ok (with_state (after_client_close (state c)) c).
Proof.
  unfold upstream_ok, names_upstream. intros Hok Hn. cbn in *.
  apply Hok. destruct (state c); cbn in Hn; intuition congruence.
Qed.

Lemma hoare_client_rx_upstream p c0 :
  upstream_ok c0 → (state c0 = ACCEPTED → is_Some (listener c0)) →
  hoare p (λ c, c = c0) (handle_connection_client_rx env p)
    (λ _ c', upstream_ok c').
Proof.
  intros Hok HPre w c Hc Hq ->. rewrite (client_rx_run env p c0 w Hc). cbv zeta.
  set (r := buffer_recv (buffer (client c0)) _).
  set (c1 := with_client (with_buffer r.2 (client c0)) c0).
  set (w1 := put p c1 [] (io_world r.1.2 w)).
  assert (upstream_ok c1) as Hok1 by exact Hok.
  assert (evolves p w w1) as Ev1.
  { split; [|left; subst w1; by rewrite put_queue, io_world_queue].
    intros q Hne. subst w1. by rewrite put_lookup_ne, io_world_heap. }
  assert (heap w1 !! p = Some c1) as Hc1 by apply put_lookup.
  destruct (_ && _); [by exists 1, w1, c1|].
  destruct (_ =? 0); [by exists 1, w1, c1|].
  assert (hoare p (λ x, x = c1)
            ((if decide (state c0 = ACCEPTED)
              then handle_connection_client_hello env p else mret tt);;
             move_to_head_of_queue p;; mret 0)
            (λ _ c', upstream_ok c')) as Hrest.
  { eapply hoare_bind with (Q := λ _ c', upstream_ok c').
    - destruct (decide (state c0 = ACCEPTED)) as [Hs|Hs].
      + apply hoare_hello_upstream; [exact Hs | exact (HPre Hs)].
      + apply hoare_ret'. by intros c' ->.
    - intros ?. eapply hoare_bind;
        [apply (hoare_move_to_head p upstream_ok)|].
      intros ?. apply (hoare_ret p 0 (λ _ c', upstream_ok c')). }
  destruct (Hrest w1 c1) as (a & w' & c' & E & Ev & Hc' & HQ);
    [done | by apply (evolves_linked p p w w1) | done |].
  exists a, w', c'. eauto 10 using evolves_trans.
Qed.

Lemma hoare_client_half_upstream p c0 rfds wfds :
  upstream_ok c0 → (state c0 = ACCEPTED → is_Some (listener c0)) →
  hoare p (λ c, c = c0) (dispatch_client_half env rfds wfds p)
    (λ _ c', upstream_ok c').
Proof.
  intros Hok Hl. unfold dispatch_client_half. apply hoare_deref. intros cA.
  eapply hoare_bind with (Q := λ _ c1, upstream_ok c1).
  { destruct (_ && _).
    - eapply hoare_conseq; [apply (hoare_client_rx_upstream p c0 Hok Hl)|..].
      + intros c [? ?]. congruence.
      + done.
    - apply hoare_ret'. by intros c [-> ->]. }
  intros err. apply hoare_deref. intros cB.
  eapply hoare_bind with (Q := λ _ c2, upstream_ok c2).
  { destruct (_ && _).
    - eapply hoare_conseq; [apply (hoare_client_tx env p upstream_ok)|..].
      + by intros c [-> ?].
      + intros ? c (x & Hx & Hs). by apply (upstream_ok_sent_server x).
    - apply hoare_ret'. by intros c [-> ?]. }
  intros err'. destruct (err' =? 0).
  - by apply hoare_ret'.
  - eapply hoare_conseq;
      [apply (hoare_close_client p upstream_ok)|intros ? HP; exact HP|].
    intros ? c (c2 & Hc2 & ->). by apply upstream_ok_client_closed.
Qed.

(** One visit keeps the bound on the server descriptor. *)
Lemma hoare_dispatch_upstream p c0 rfds wfds :
  state c0 ≠ CLOSED → (state c0 = ACCEPTED → is_Some (listener c0)) →
  upstream_ok c0 →
  hoare p (λ c, c = c0) (dispatch env rfds wfds p) (λ _ c', upstream_ok c').
Proof.
  intros Hopen Hl Hok. destruct (decide (state c0 = ACCEPTED)) as [Hs|Hs].
  - intros w c Hc Hq ->. unfold dispatch.
    rewrite (bind_done _ _ _ _ _ (deref_done _ _ _ Hc)). rewrite Hs.
    exact (hoare_client_half_upstream p c0 rfds wfds Hok Hl w c0 Hc Hq eq_refl).
  - eapply hoare_conseq; [by apply (hoare_dispatch env p c0)|done|].
    intros ? c' Ho. cbn in Ho.
    pose proof (dispatch_outcome_edge _ _ Ho) as He.
    destruct (dispatch_outcome_identity _ _ Ho) as (_ & _ & _ & Hid).
    destruct (Hid Hs) as (Efd & _ & _).
    unfold upstream_ok, names_upstream in *. rewrite Efd. intros Hn.
    apply Hok. destruct (state c0); cbn in He; intuition congruence.
Qed.

(** One call of [handle_connections] keeps it for every linked record. *)
Lemma handle_connections_upstream rfds wfds w w' p c c' :
  linked_ok w → handle_connections env rfds wfds w = Done tt w' →
  p ∈ queue w → heap w !! p = Some c → heap w' !! p = Some c' →
  upstream_ok c → upstream_ok c'.
Proof.
  intros Hok E Hp Hc Hc' Hup.
  pose proof (handle_connections_at env rfds wfds w w' p c Hok E Hp Hc) as Hat.
  destruct (decide (state c = CLOSED)) as [Hs|Hs];
    [destruct Hat as [Hn _]; congruence|clear Hat].
  destruct (handle_connections_walk env rfds wfds w Hok) as (w'' & E' & Hw & _).
  rewrite E in E'. injection E' as <-.
  destruct (walk_at env rfds wfds _ _ _ p Hw Hp (proj1 Hok))
    as (w1 & w2 & [Ed _] & E1 & E2 & E3 & _).
  destruct (proj2 Hok p Hp) as (c0 & Hc0 & Hl). rewrite Hc in Hc0.
  injection Hc0 as <-.
  destruct (hoare_dispatch_upstream p c rfds wfds Hs Hl Hup w1 c)
    as (a & w2' & c2 & Ed' & _ & Hc2 & Hup2);
    [by rewrite E1 | by apply E2 | done |].
  rewrite Ed in Ed'. injection Ed' as _ <-.
  rewrite E3, Hc2 in Hc'. by injection Hc' as <-.
Qed.

End Upstream.

Lemma dispatch_outcome_blank c c' :
  dispatch_outcome c c' → accepted_blank c → accepted_blank c'.
Proof.
  unfold dispatch_outcome, accepted_blank. intros Ho Hb.
  destruct (state c) eqn:Es; [| | | | |done]; outcome_cases;
    cbn in *; rewrite ?Es in *; cbn in *; try congruence; intros Hs;
    try (destruct (Hb eq_refl) as (? & ? & ? & ?));
    try done; repeat split; try done; try lia.
Qed.

Section Shape.
Context `{Platform}.
Variable L : Listener → Prop.

(** What holds of every allocated record of a reachable store beyond
    [record_ok]. *)
Lemma reachable_record_shape w :
  reachable L w →
  ∀ p c, heap w !! p = Some c → upstream_ok c ∧ accepted_blank c.
Proof.
  induction 1 as [|w w' Hr IH E|env l w w' Hr IH Hl E
                  |env rfds wfds w w' Hr IH E|w w' Hr IH E]; intros p c Hc.
  - by cbn in Hc.
  - injection E as <-. by apply (IH p).
  - destruct (accept_connection_cases env l w) as (w1 & E1 & _ & Hcases).
    rewrite E in E1. injection E1 as <-.
    destruct Hcases as [[_ Hh] | (q & fd & a & _ & _ & Hh & _ & _)].
    + rewrite Hh in Hc. by apply (IH p).
    + rewrite Hh in Hc. destruct (decide (p = q)) as [-> | Hne].
      * rewrite lookup_insert_eq in Hc. injection Hc as <-.
        split; [intros [?|[?|?]]; done | done].
      * rewrite lookup_insert_ne in Hc by done. by apply (IH p).
  - pose proof (inv_linked_ok L w (reachable_inv L w Hr)) as Hok.
    destruct (decide (p ∈ queue w)) as [Hp|Hp].
    + destruct (proj2 Hok p Hp) as (c0 & Hc0 & _).
      destruct (IH p c0 Hc0) as [Hup Hb].
      split; [by apply (handle_connections_upstream env rfds wfds w w' p c0)|].
      pose proof (handle_connections_at env rfds wfds w w' p c0 Hok E Hp Hc0)
        as Hat.
      destruct (decide (state c0 = CLOSED)).
      * destruct Hat as [Hn _]. congruence.
      * destruct Hat as (c1 & Hc1 & Ho & _). simplify_eq.
        by apply (dispatch_outcome_blank c0).
    + destruct (handle_connections_unlinked env rfds wfds w w' p Hok E Hp)
        as [Eh _].
      rewrite Eh in Hc. by apply (IH p).
  - destruct (reachable_inv L w Hr) as (Hnd & Hall & _).
    unfold free_connections, gets in E.
    erewrite bind_done in E by reflexivity.
    destruct (free_connections_loop_run (length (queue w)) w)
      as (w1 & E1 & _ & Hh); [done..|].
    rewrite E in E1. injection E1 as <-. rewrite Hh in Hc.
    destruct (decide (p ∈ queue w)); [done|]. by apply (IH p).
Qed.

(** X12: in every store the public functions can produce, a record that
    is still ACCEPTED has an unused server side: no hostname, server
    descriptor 0, no server address and no bytes in the server buffer. *)
Theorem reachable_accepted_is_blank w p c :
  reachable L w → heap w !! p = Some c → state c = ACCEPTED →
  hostname c = None ∧ sockfd (server c) = 0 ∧ addr (server c) = [] ∧
  buffer_len (buffer (server c)) = 0%nat.
Proof.
  intros Hr Hc Hs. by apply (reachable_record_shape w Hr p c Hc).
Qed.

(** X13: in every store the public functions can produce, a record whose
    upstream has been chosen (CONNECTED, CLIENT_CLOSED or SERVER_CLOSED)
    holds a server descriptor between 0 and FD_SETSIZE, bounds included. *)
Theorem reachable_server_fd_bounded w p c :
  reachable L w → heap w !! p = Some c →
  state c = CONNECTED ∨ state c = CLIENT_CLOSED ∨ state c = SERVER_CLOSED →
  0 ≤ sockfd (server c) ≤ FD_SETSIZE.
Proof.
  intros Hr Hc Hs. by apply (reachable_record_shape w Hr p c Hc).
Qed.

Lemma linked_records w :
  (∀ p, p ∈ queue w → is_Some (heap w !! p)) →
  ∃ cs, mapM (λ p, heap w !! p) (queue w) = Some cs ∧
        ∀ c, c ∈ cs → ∃ p, p ∈ queue w ∧ heap w !! p = Some c.
Proof.
  induction (queue w) as [|x q IH]; intros Hall.
  - exists []. split; [done|]. by intros c ?%elem_of_nil.
  - destruct (Hall x) as [c Hc]; [left|].
    destruct IH as (cs & E & Hcs); [intros; apply Hall; by right|].
    exists (c :: cs). split; [cbn; by rewrite Hc, E|].
    intros c' [-> | Hin]%elem_of_cons; [exists x; split; [left | done]|].
    destruct (Hcs c' Hin) as (p & ? & ?). exists p. split; [by right | done].
Qed.


End Shape.

(** ** The size of the sets *)

Lemma bind_agree {A B} (m : M A) (k k' : A → M B) w :
  (∀ a w1, m w = Done a w1 → k a w1 = k' a w1) →
  (m ≫= k) w = (m ≫= k') w.
Proof.
  intros Hk. unfold mbind, M_MBind, M_bind.
  destruct (m w) as [a w1|f]; [by apply Hk | done].
Qed.

Lemma bind_agree2 {A B} (m m' : M A) (k k' : A → M B) w :
  m w = m' w → (∀ a w1, m' w = Done a w1 → k a w1 = k' a w1) →
  (m ≫= k) w = (m' ≫= k') w.
Proof.
  intros Hm Hk. unfold mbind, M_MBind, M_bind. rewrite Hm.
  destruct (m' w) as [a w1|f]; [by apply Hk | done].
Qed.

Lemma rx_outcome_client_fd c c' :
  rx_outcome c c' → sockfd (client c') = sockfd (client c).
Proof. intros Ho. outcome_cases; done. Qed.

Lemma server_half_outcome_client_fd c c' :
  server_half_outcome c c' → sockfd (client c') = sockfd (client c).
Proof. intros Ho. outcome_cases; done. Qed.

Section Agree.
Context `{Platform}.
Variable env : Env.
Variables (rfds wfds rfds' wfds' : fd_set).

Lemma dispatch_client_half_agree p c w :
  heap w !! p = Some c → p ∈ queue w →
  (state c = ACCEPTED → is_Some (listener c)) →
  agree_at rfds wfds rfds' wfds' (sockfd (client c)) →
  dispatch_client_half env rfds wfds p w =
  dispatch_client_half env rfds' wfds' p w.
Proof.
  intros Hc Hq Hl [Hr Hw]. unfold dispatch_client_half.
  rewrite !(bind_done _ _ _ _ _ (deref_done _ _ _ Hc)). rewrite <- Hr.
  apply bind_agree. intros err w1 E1.
  assert (∃ c1, heap w1 !! p = Some c1 ∧
                sockfd (client c1) = sockfd (client c)) as (c1 & Hc1 & Efd).
  { destruct (_ && _).
    - assert (∀ x, x = c → state x = ACCEPTED → is_Some (listener x))
        as Hpre by (by intros ? ->).
      destruct (hoare_client_rx env p (λ x, x = c) Hpre w c Hc Hq eq_refl)
        as (a & w1' & c1 & E & _ & Hc1 & (x & -> & Ho)).
      rewrite E in E1. injection E1 as <- <-. exists c1.
      split; [done | by apply rx_outcome_client_fd].
    - injection E1 as <- <-. by exists c. }
  rewrite !(bind_done _ _ _ _ _ (deref_done _ _ _ Hc1)).
  by rewrite Efd, Hw.
Qed.

Lemma dispatch_server_half_agree p c w :
  heap w !! p = Some c → p ∈ queue w →
  agree_at rfds wfds rfds' wfds' (sockfd (server c)) →
  dispatch_server_half env rfds wfds p w =
  dispatch_server_half env rfds' wfds' p w.
Proof.
  intros Hc Hq [Hr Hw]. unfold dispatch_server_half.
  rewrite !(bind_done _ _ _ _ _ (deref_done _ _ _ Hc)). rewrite <- Hr.
  apply bind_agree. intros err w1 E1.
  assert (∃ c1, heap w1 !! p = Some c1 ∧
                sockfd (server c1) = sockfd (server c)) as (c1 & Hc1 & Efd).
  { destruct (_ && _).
    - destruct (hoare_server_rx env p (λ x, x = c) w c Hc Hq eq_refl)
        as (a & w1' & c1 & E & _ & Hc1 & (x & -> & (b & Hb))).
      rewrite E in E1. injection E1 as <- <-. exists c1.
      split; [done|]. by rewrite Hb.
    - injection E1 as <- <-. by exists c. }
  rewrite !(bind_done _ _ _ _ _ (deref_done _ _ _ Hc1)).
  by rewrite Efd, Hw.
Qed.

(** One visit consults the sets at the open descriptors of the record it
    visits, and nowhere else. *)
Lemma dispatch_agree p c w :
  heap w !! p = Some c → p ∈ queue w →
  (state c = ACCEPTED → is_Some (listener c)) →
  (∀ fd, fd ∈ open_sockets c → agree_at rfds wfds rfds' wfds' fd) →
  dispatch env rfds wfds p w = dispatch env rfds' wfds' p w.
Proof.
  intros Hc Hq Hl Hag. unfold dispatch.
  rewrite !(bind_done _ _ _ _ _ (deref_done _ _ _ Hc)).
  unfold open_sockets in Hag.
  destruct (state c) eqn:Es; [reflexivity| | | | |reflexivity].
  - apply (dispatch_client_half_agree p c w Hc Hq); [intros _; by apply Hl|].
    apply Hag. set_solver.
  - apply bind_agree2;
      [apply (dispatch_server_half_agree p c w Hc Hq), Hag; set_solver|].
    intros [] w1 E1.
    destruct (hoare_server_half env p c rfds' wfds' w c Hc Hq eq_refl)
      as (a & w1' & cm & E & Ev & Hcm & Ho).
    rewrite E in E1. injection E1 as _ ->.
    apply (dispatch_client_half_agree p cm w1 Hcm).
    + by apply (evolves_linked p p w w1).
    + intros Hs. destruct (server_half_state _ _ Ho) as [E'|E'];
        rewrite E', Es in Hs; done.
    + rewrite (server_half_outcome_client_fd _ _ Ho). apply Hag. set_solver.
  - destruct (Hag (sockfd (client c))) as [_ ->]; [set_solver | done].
  - destruct (Hag (sockfd (server c))) as [_ ->]; [set_solver | done].
Qed.

Lemma walk_agree l : ∀ w w',
  walk (visited env rfds wfds) l w w' → NoDup l →
  (∀ p, p ∈ l →
     ∃ c, heap w !! p = Some c ∧ p ∈ queue w ∧
          (state c = ACCEPTED → is_Some (listener c)) ∧
          ∀ fd, fd ∈ open_sockets c → agree_at rfds wfds rfds' wfds' fd) →
  walk (visited env rfds' wfds') l w w'.
Proof.
  induction 1 as [|x l w w1 w2 Hv Hw IH]; intros Hnd Hall; [constructor|].
  apply NoDup_cons in Hnd as [Hx Hnd].
  destruct (Hall x) as (c & Hc & Hq & Hl & Hag); [left|].
  pose proof Hv as [Ed Hvis].
  apply (walk_cons _ x l w w1 w2).
  { split; [|done]. rewrite <- Ed. symmetry. by apply (dispatch_agree x c). }
  apply IH; [done|]. intros q Hq'.
  destruct (Hall q) as (cq & Hcq & Hqq & Hlq & Hagq); [by right|].
  assert (q ≠ x) as Hne by (intros ->; done).
  destruct (visited_other env rfds wfds x q w w1 Hv Hne) as [E1 E2].
  exists cq. rewrite E1, E2. done.
Qed.

End Agree.

Section Agree2.
Context `{Platform}.
Variable env : Env.

Lemma walk_functional rfds wfds l : ∀ w a b,
  walk (visited env rfds wfds) l w a → walk (visited env rfds wfds) l w b →
  a = b.
Proof.
  induction l as [|x l IH]; intros w a b Ha Hb;
    inversion Ha; inversion Hb; subst; [done|].
  match goal with
  | H1 : visited _ _ _ x w ?u, H2 : visited _ _ _ x w ?v |- _ =>
      destruct H1 as [E1 _]; destruct H2 as [E2 _];
      rewrite E1 in E2; injection E2 as ->
  end.
  eauto.
Qed.

(** [handle_connections] consults the readiness sets at the open
    descriptors of the linked records, and nowhere else. *)
Lemma handle_connections_agree rfds wfds rfds' wfds' w :
  linked_ok w →
  (∀ p c, p ∈ queue w → heap w !! p = Some c →
     ∀ fd, fd ∈ open_sockets c → agree_at rfds wfds rfds' wfds' fd) →
  handle_connections env rfds wfds w = handle_connections env rfds' wfds' w.
Proof.
  intros Hok Hag.
  destruct (handle_connections_walk env rfds wfds w Hok) as (w1 & E1 & W1 & _).
  destruct (handle_connections_walk env rfds' wfds' w Hok)
    as (w2 & E2 & W2 & _).
  rewrite E1, E2. f_equal.
  apply (walk_functional rfds' wfds' (queue w) w); [|done].
  apply (walk_agree env rfds wfds); [done | exact (proj1 Hok) |].
  intros p Hp. destruct (proj2 Hok p Hp) as (c & Hc & Hl).
  exists c. split; [done|]. split; [done|]. split; [done|].
  by apply (Hag p).
Qed.

End Agree2.

Section Range.
Context `{Platform}.
Variable L : Listener → Prop.

(** On a reachable store every open descriptor of a linked record lies
    between 0 and FD_SETSIZE; it has a bit in an [fd_set] unless it is
    FD_SETSIZE itself. *)
Lemma reachable_open_valid w :
  reachable L w → no_edge_fd w →
  ∀ p c, p ∈ queue w → heap w !! p = Some c →
    ∀ fd, fd ∈ open_sockets c → fd_valid fd.
Proof.
  intros Hr Hedge p c Hp Hc fd Hfd.
  destruct (reachable_inv L w Hr) as (_ & _ & Hrec).
  destruct (Hrec p c Hc) as (_ & _ & Hcfd & _).
  destruct (reachable_record_shape L w Hr p c Hc) as [Hup _].
  unfold upstream_ok, names_upstream in Hup.
  assert (fd ≠ FD_SETSIZE) as Hne by (intros ->; by apply (Hedge p c)).
  assert (0 ≤ fd ≤ FD_SETSIZE) as Hb.
  { unfold open_sockets in Hfd. destruct (state c); set_solver. }
  unfold fd_valid. lia.
Qed.

(** The records of the list, and the descriptors [fd_set_connections]
    adds for them. *)
Lemma linked_tables_valid w :
  reachable L w → no_edge_fd w →
  ∃ cs, mapM (λ p, heap w !! p) (queue w) = Some cs ∧
        (∀ c fd, c ∈ cs → fd ∈ open_sockets c → fd_valid fd) ∧
        ∀ fd, fd ∈ concat (table_R <$> cs) ++ concat (table_W <$> cs) →
              fd_valid fd.
Proof.
  intros Hr Hedge. destruct (reachable_inv L w Hr) as (_ & Hall & _).
  destruct (linked_records w Hall) as (cs & Hcs & Hin).
  assert (∀ c fd, c ∈ cs → fd ∈ open_sockets c → fd_valid fd) as Hopen.
  { intros c fd Hc Hfd. destruct (Hin c Hc) as (p & Hp & Hpc).
    by apply (reachable_open_valid w Hr Hedge p c). }
  exists cs. split; [done|]. split; [done|].
  intros fd [Hfd|Hfd]%elem_of_app;
    apply elem_of_concat in Hfd as (l0 & Hfd & Hl0);
    apply list_elem_of_fmap in Hl0 as (c & -> & Hc);
    apply (Hopen c fd Hc), table_open_sockets; set_solver.
Qed.

(** X14: on a store the public functions can produce in which no linked
    record has the descriptor FD_SETSIZE itself open, [fd_set_connections]
    returns without writing the store; the two sets only grow; every
    descriptor it adds has a bit in an [fd_set] (it lies between 0 and
    FD_SETSIZE - 1); and the maximum it returns is at least the one passed
    in and at most the larger of that and FD_SETSIZE - 1. *)
Theorem fd_set_connections_in_range w rfds wfds max :
  reachable L w → no_edge_fd w →
  ∃ rfds' wfds' max',
    fd_set_connections rfds wfds max w = Done (rfds', wfds', max') w ∧
    rfds ⊆ rfds' ∧ wfds ⊆ wfds' ∧
    (∀ fd, fd ∈ rfds' ∪ wfds' → fd ∉ rfds ∪ wfds → fd_valid fd) ∧
    max ≤ max' ≤ Z.max max (FD_SETSIZE - 1).
Proof.
  intros Hr Hedge.
  destruct (linked_tables_valid w Hr Hedge) as (cs & Hcs & Hopen & Hadd).
  eexists _, _, _. unfold fd_set_connections, gets.
  erewrite bind_done by reflexivity.
  split; [by apply fd_set_walk_table|].
  split; [set_solver|]. split; [set_solver|].
  split; [intros fd Hfd Hnew; apply Hadd; set_solver|].
  split.
  - assert (max_open max cs ≤ max_open max cs) as Hle by lia.
    unfold max_open at 1 in Hle. by apply foldl_max_le in Hle as [Hm _].
  - apply foldl_max_le. split; [lia|]. apply Forall_forall. intros fd Hfd.
    apply elem_of_concat in Hfd as (l0 & Hfd & Hl0).
    apply list_elem_of_fmap in Hl0 as (c & -> & Hc).
    pose proof (Hopen c fd Hc Hfd) as Hv. unfold fd_valid in Hv. lia.
Qed.

(** X15: on a store the public functions can produce in which no linked
    record has the descriptor FD_SETSIZE itself open, the public functions
    return, with any listener, any readiness sets and any answers of the
    system calls: no NULL or dangling record is dereferenced, no record is
    unlinked that is not linked, and the loops end.  The sets are used
    within their size: [handle_connections] gives the same result on any
    sets with the same bits 0 to FD_SETSIZE - 1, and [fd_set_connections]
    adds only descriptors that have a bit. *)
Theorem reachable_never_faults w env l rfds wfds max :
  reachable L w → no_edge_fd w →
  (∃ w', accept_connection env l w = Done tt w') ∧
  (∃ w', handle_connections env rfds wfds w = Done tt w' ∧
         ∀ rfds' wfds', same_bits rfds rfds' → same_bits wfds wfds' →
           handle_connections env rfds' wfds' w = Done tt w') ∧
  (∃ r, fd_set_connections rfds wfds max w = Done r w ∧
        ∀ fd, fd ∈ r.1.1 ∪ r.1.2 → fd ∉ rfds ∪ wfds → fd_valid fd) ∧
  (∃ w', free_connections w = Done tt w').
Proof.
  intros Hr Hedge. pose proof (reachable_inv L w Hr) as Hinv.
  pose proof (inv_linked_ok L w Hinv) as Hok.
  split; [|split; [|split]].
  - destruct (accept_connection_cases env l w) as (w' & E & _). eauto.
  - destruct (inv_handle_connections L env rfds wfds w Hinv) as (w' & E & _).
    exists w'. split; [done|]. intros rfds' wfds' Hsr Hsw. rewrite <- E.
    symmetry. apply handle_connections_agree; [done|].
    intros p c Hp Hc fd Hfd.
    pose proof (reachable_open_valid w Hr Hedge p c Hp Hc fd Hfd) as Hv.
    unfold agree_at, FD_ISSET. split; apply bool_decide_ext; auto.
  - destruct (linked_tables_valid w Hr Hedge) as (cs & Hcs & _ & Hadd).
    eexists. unfold fd_set_connections, gets.
    erewrite bind_done by reflexivity.
    split; [by apply fd_set_walk_table|]. cbn [fst snd].
    intros fd Hfd Hnew. apply Hadd. set_solver.
  - destruct (inv_free_connections L w Hinv) as (w' & E & _). eauto.
Qed.

End Range.

Lemma fd_set_walk_grows q : ∀ acc w,
  (∀ p, p ∈ q → is_Some (heap w !! p)) →
  ∃ r, fd_set_walk q acc w = Done r w ∧ acc.1.1 ⊆ r.1.1.
Proof.
  induction q as [|p q IH]; intros [[rfds wfds] max] w Hall.
  - eexists. split; [reflexivity | done].
  - destruct (Hall p) as [c Hc]; [left|]. cbn [fd_set_walk].
    rewrite (bind_done _ _ _ _ _ (deref_done _ _ _ Hc)).
    rewrite fd_set_connection_table.
    destruct (IH (list_to_set (table_R c) ∪ rfds,
                  list_to_set (table_W c) ∪ wfds,
                  foldl Z.max max (open_sockets c)) w)
      as (r & E & Hsub); [intros; apply Hall; by right|].
    exists r. split; [done|]. cbn [fst] in *. set_solver.
Qed.

Section Edge.
Context `{Platform}.
Variable L : Listener → Prop.

(** X18: the test of [accept_connection] lets the descriptor FD_SETSIZE
    itself through.  When [accept] returns exactly FD_SETSIZE the record is
    linked, ACCEPTED, with that descriptor, and the next
    [fd_set_connections] passes FD_SETSIZE to [FD_SET], although an
    [fd_set] has bits for 0 to FD_SETSIZE - 1 only. *)
Theorem fd_setsize_gets_through env l w :
  reachable L w → L l → 0 ≤ FD_SETSIZE → (0 < BUFFER_CAPACITY)%nat →
  env_alloc env (clock w) = true →
  env_alloc env (S (clock w)) = true →
  env_alloc env (S (S (clock w))) = true →
  (env_accept env (3 + clock w) (l_sockfd l)).1 = FD_SETSIZE →
  ∃ w' p c, accept_connection env l w = Done tt w' ∧ reachable L w' ∧
    head (queue w') = Some p ∧ heap w' !! p = Some c ∧
    state c = ACCEPTED ∧ sockfd (client c) = FD_SETSIZE ∧
    ¬ fd_valid (sockfd (client c)) ∧
    ∃ r, fd_set_connections ∅ ∅ 0 w' = Done r w' ∧ FD_SETSIZE ∈ r.1.1.
Proof.
  intros Hr Hl Hpos Hcap A0 A1 A2 Hfd.
  pose proof (accept_after_alloc env l w A0 A1 A2) as E. cbv zeta in E.
  rewrite Hfd in E.
  destruct (FD_SETSIZE <? 0) eqn:E1; [lia|].
  destruct (FD_SETSIZE >? FD_SETSIZE) eqn:E2; [lia|].
  set (c := accepted_record l FD_SETSIZE
              (env_accept env (3 + clock w) (l_sockfd l)).2) in *.
  set (w' := set_queue _ _) in E.
  assert (reachable L w') as Hr' by by apply (reach_accept L env l w).
  exists w', (fresh_ptr w), c. split; [done|]. split; [done|].
  split; [done|]. split; [apply lookup_insert_eq|].
  split; [done|]. split; [done|].
  split; [unfold fd_valid; cbn; lia|].
  destruct (reachable_inv L w' Hr') as (_ & Hall & _).
  unfold fd_set_connections, gets. erewrite bind_done by reflexivity.
  change (queue w') with (fresh_ptr w :: queue w). cbn [fd_set_walk].
  erewrite bind_done by (apply deref_done, lookup_insert_eq).
  rewrite fd_set_connection_table.
  destruct (fd_set_walk_grows (queue w)
              (list_to_set (table_R c) ∪ ∅, list_to_set (table_W c) ∪ ∅,
               foldl Z.max 0 (open_sockets c)) w')
    as (r & Er & Hsub); [intros q Hq; apply Hall; by right|].
  exists r. split; [done|]. apply Hsub. cbn [fst].
  unfold table_R, buffer_room, buffer_len. cbn.
  destruct BUFFER_CAPACITY; [lia|]. cbn. set_solver.
Qed.

End Edge.

(** ** Bytes in transit *)

Lemma buffer_recv_appended b o : appended b (buffer_recv b o).2.
Proof.
  destruct o as [bs|e]; (split; [done|]); cbn; [|done].
  by apply prefix_app_r.
Qed.

Lemma buffer_send_consumed b o : consumed b (buffer_send b o).2.
Proof.
  destruct o as [k|e]; (split; [done|]); cbn; [|done]. apply suffix_drop.
Qed.

Section Relay.
Context `{Platform}.
Variable env : Env.

(** The store a transfer step leaves: the record written once, the other
    records as they were. *)
Lemma transfer_result (cond : bool) p c' e w :
  p ∈ queue w →
  ∃ a w', (if cond then Done 1 (put p c' [] (io_world e w))
           else (move_to_head_of_queue p;; mret 0) (put p c' [] (io_world e w)))
            = Done a w' ∧
          heap w' !! p = Some c' ∧
          ∀ q, q ≠ p → heap w' !! q = heap w !! q.
Proof.
  intros Hq.
  destruct (transfer_shape p cond c' e w (λ _ x, x = c') Hq eq_refl eq_refl)
    as (a & c'' & evs & w0 & E & Hh & _ & ->).
  exists a, (put p c' evs w0). split; [done|]. split; [apply put_lookup|].
  intros q Hne. by rewrite put_lookup_ne, Hh.
Qed.

(** X16: the four transfer steps keep the bytes in transit in order, each
    on its own side.  A receive from the server only adds bytes at the end
    of the server buffer and a receive from the client (on a record past
    ACCEPTED) only at the end of the client buffer; a send to the client
    only takes bytes from the front of the server buffer and a send to the
    server only from the front of the client buffer.  The step changes
    nothing else in the record (state, descriptors, addresses, hostname,
    listener and the other buffer) and no other record, whatever the
    system call answers. *)
Theorem transfer_steps_keep_order p c w :
  heap w !! p = Some c → p ∈ queue w →
  (∃ r w' b, handle_connection_server_rx env p w = Done r w' ∧
     heap w' !! p = Some (with_server (with_buffer b (server c)) c) ∧
     appended (buffer (server c)) b ∧
     ∀ q, q ≠ p → heap w' !! q = heap w !! q) ∧
  (∃ r w' b, handle_connection_server_tx env p w = Done r w' ∧
     heap w' !! p = Some (with_client (with_buffer b (client c)) c) ∧
     consumed (buffer (client c)) b ∧
     ∀ q, q ≠ p → heap w' !! q = heap w !! q) ∧
  (∃ r w' b, handle_connection_client_tx env p w = Done r w' ∧
     heap w' !! p = Some (with_server (with_buffer b (server c)) c) ∧
     consumed (buffer (server c)) b ∧
     ∀ q, q ≠ p → heap w' !! q = heap w !! q) ∧
  (state c ≠ ACCEPTED →
   ∃ r w' b, handle_connection_client_rx env p w = Done r w' ∧
     heap w' !! p = Some (with_client (with_buffer b (client c)) c) ∧
     appended (buffer (client c)) b ∧
     ∀ q, q ≠ p → heap w' !! q = heap w !! q).
Proof.
  intros Hc Hq. split; [|split; [|split]].
  - rewrite (server_rx_run env p c w Hc). cbv zeta.
    set (r := buffer_recv (buffer (server c)) _).
    set (c1 := with_server (with_buffer r.2 (server c)) c).
    destruct (_ && _);
      [destruct (transfer_result true p c1 r.1.2 w Hq) as (a & w' & E & ? & ?)
      |destruct (_ =? 0);
       [destruct (transfer_result true p c1 r.1.2 w Hq) as (a & w' & E & ? & ?)
       |destruct (transfer_result false p c1 r.1.2 w Hq)
          as (a & w' & E & ? & ?)]];
      exists a, w', r.2; (split; [exact E|]); (split; [done|]);
      (split; [apply buffer_recv_appended | done]).
  - rewrite (server_tx_run env p c w Hc). cbv zeta.
    set (r := buffer_send (buffer (client c)) _).
    set (c1 := with_client (with_buffer r.2 (client c)) c).
    destruct (_ && _);
      [destruct (transfer_result true p c1 r.1.2 w Hq) as (a & w' & E & ? & ?)
      |destruct (transfer_result false p c1 r.1.2 w Hq)
         as (a & w' & E & ? & ?)];
      exists a, w', r.2; (split; [exact E|]); (split; [done|]);
      (split; [apply buffer_send_consumed | done]).
  - rewrite (client_tx_run env p c w Hc). cbv zeta.
    set (r := buffer_send (buffer (server c)) _).
    set (c1 := with_server (with_buffer r.2 (server c)) c).
    destruct (_ && _);
      [destruct (transfer_result true p c1 r.1.2 w Hq) as (a & w' & E & ? & ?)
      |destruct (transfer_result false p c1 r.1.2 w Hq)
         as (a & w' & E & ? & ?)];
      exists a, w', r.2; (split; [exact E|]); (split; [done|]);
      (split; [apply buffer_send_consumed | done]).
  - intros Hs. rewrite (client_rx_run env p c w Hc). cbv zeta.
    rewrite decide_False by done.
    set (r := buffer_recv (buffer (client c)) _).
    set (c1 := with_client (with_buffer r.2 (client c)) c).
    destruct (_ && _);
      [destruct (transfer_result true p c1 r.1.2 w Hq) as (a & w' & E & ? & ?)
      |destruct (_ =? 0);
       [destruct (transfer_result true p c1 r.1.2 w Hq) as (a & w' & E & ? & ?)
       |destruct (transfer_result false p c1 r.1.2 w Hq)
          as (a & w' & E & ? & ?)]];
      exists a, w', r.2; (split; [exact E|]); (split; [done|]);
      (split; [apply buffer_recv_appended | done]).
Qed.

End Relay.

(** ** Leaks *)

Section Leaks.
Context `{Platform}.
Variable env : Env.

(** X17: no record leaks.  On a well-formed store in which every allocated
    record is linked, [accept_connection] and [handle_connections] return a
    store in which every allocated record is still linked, and
    [free_connections] returns a store with no record left allocated. *)
Theorem connections_never_leak l rfds wfds w :
  linked_ok w → no_leak w →
  (∃ w', accept_connection env l w = Done tt w' ∧ no_leak w') ∧
  (∃ w', handle_connections env rfds wfds w = Done tt w' ∧ no_leak w') ∧
  (∃ w', free_connections w = Done tt w' ∧ heap w' = ∅ ∧ queue w' = []).
Proof.
  intros Hok Hnl. split; [|split].
  - destruct (accept_connection_cases env l w) as (w' & E & _ & Hcases).
    exists w'. split; [done|]. intros p Hp.
    destruct Hcases as [[Hq Hh] | (q & fd & a & Hq & _ & Hh & _)];
      rewrite Hq; rewrite Hh in Hp; [by apply Hnl|].
    destruct (decide (p = q)) as [-> | Hne]; [left|].
    rewrite lookup_insert_ne in Hp by done. right. by apply Hnl.
  - destruct (handle_connections_walk env rfds wfds w Hok) as (w' & E & _ & _).
    exists w'. split; [done|]. intros p [c' Hc'].
    destruct (decide (p ∈ queue w)) as [Hp|Hp].
    + destruct (proj2 Hok p Hp) as (c & Hc & _).
      pose proof (handle_connections_at env rfds wfds w w' p c Hok E Hp Hc)
        as Hat.
      destruct (decide (state c = CLOSED)).
      * destruct Hat as [Hn _]. congruence.
      * by destruct Hat as (? & _ & _ & ?).
    + destruct (handle_connections_unlinked env rfds wfds w w' p Hok E Hp)
        as [Eh _].
      rewrite Eh in Hc'. destruct Hp. apply Hnl. by eexists.
  - unfold free_connections, gets. erewrite bind_done by reflexivity.
    destruct (free_connections_loop_run (length (queue w)) w)
      as (w' & E & Hq & Hh); [done | exact (proj1 Hok) | |].
    { intros p Hp. destruct (proj2 Hok p Hp) as (c & -> & _). by eexists. }
    exists w'. split; [done|]. split; [|done]. apply map_eq. intros p.
    rewrite Hh, lookup_empty. destruct (decide (p ∈ queue w)); [done|].
    destruct (heap w !! p) as [c|] eqn:Hc; [|done].
    exfalso. apply n, Hnl. by eexists.
Qed.

End Leaks.

(** * The scenario, continued *)

Section MoreExamples.
Local Existing Instance linux_glibc.

Lemma close_connection_idempotent_witness :
  heap w_connected !! 1%positive = Some c_connected ∧
  ∃ w' c', close_connection 1%positive w_connected = Done tt w' ∧
    heap w' !! 1%positive = Some c' ∧
    (state c_connected = NEW → w' = w_connected) ∧
    (state c_connected ≠ NEW → state c' = CLOSED) ∧
    (∀ q, q ≠ 1%positive → heap w' !! q = heap w_connected !! q) ∧
    queue w' = queue w_connected ∧
    close_connection 1%positive w' = Done tt w'.
Proof.
  split; [reflexivity|].
  apply (close_connection_idempotent 1%positive c_connected w_connected).
  reflexivity.
Defined.

Lemma pair_NoDup : NoDup (queue w_pair).
Proof.
  apply NoDup_cons. split; [|apply NoDup_singleton].
  by intros [=]%list_elem_of_singleton.
Qed.

Lemma free_connections_releases_all_witness :
  NoDup (queue w_pair) ∧
  mapM (λ p, heap w_pair !! p) (queue w_pair)
    = Some [c_accepted; c_connected] ∧
  ∃ w', free_connections w_pair = Done tt w' ∧ queue w' = [] ∧
        (∀ q, heap w' !! q = if decide (q ∈ queue w_pair) then None
                             else heap w_pair !! q) ∧
        trace w' = trace w_pair ++
          concat (zip_with release_events [c_accepted; c_connected]
                    (queue w_pair)).
Proof.
  split; [exact pair_NoDup|]. split; [reflexivity|].
  apply (free_connections_releases_all w_pair [c_accepted; c_connected]);
    [exact pair_NoDup | reflexivity].
Defined.

Lemma accept_failure_closes_nothing_witness :
  env_alloc env_refused (clock w_connected) = true ∧
  env_alloc env_refused (S (clock w_connected)) = true ∧
  env_alloc env_refused (S (S (clock w_connected))) = true ∧
  (env_accept env_refused (3 + clock w_connected) (l_sockfd sni_listener)).1
    < 0 ∧
  ∃ w', accept_connection env_refused sni_listener w_connected = Done tt w' ∧
        heap w' = heap w_connected ∧ queue w' = queue w_connected ∧
        trace w' = trace w_connected ++ [EvFreeConn (fresh_ptr w_connected)].
Proof.
  do 4 (split; [reflexivity|]).
  apply (accept_failure_closes_nothing env_refused sni_listener w_connected);
    reflexivity.
Defined.

Lemma move_to_head_permutes_witness :
  NoDup (queue w_pair) ∧ 1%positive ∈ queue w_pair ∧
  ∃ w', move_to_head_of_queue 1%positive w_pair = Done tt w' ∧
        queue w' = 1%positive :: tailq_remove 1%positive (queue w_pair) ∧
        queue w' ≡ₚ queue w_pair ∧ NoDup (queue w') ∧
        heap w' = heap w_pair ∧
        move_to_head_of_queue 1%positive w' = Done tt w'.
Proof.
  split; [exact pair_NoDup|]. split; [right; left|].
  apply (move_to_head_permutes 1%positive w_pair);
    [exact pair_NoDup | right; left].
Defined.

Lemma hello_rejects_large_upstream_fd_witness :
  heap w_hello !! 1%positive = Some c_hello ∧ state c_hello = ACCEPTED ∧
  listener c_hello = Some sni_listener ∧
  let bytes := buffer_peek (buffer (client c_hello)) 1460 in
  let parsed := parse_packet sni_listener bytes in
  let fd := env_lookup env_far (clock w_hello) parsed.2 in
  0 ≤ parsed.1 ∧ 0 ≤ fd ∧ fd > FD_SETSIZE ∧
  ∃ w' c', handle_connection_client_hello env_far 1%positive w_hello
             = Done tt w' ∧
    heap w' !! 1%positive = Some c' ∧ state c' = CLOSED ∧
    hostname c' = hostname c_hello ∧ queue w' = queue w_hello ∧
    trace w' = trace w_hello ++
                 [EvParse bytes; EvLookup parsed.2; EvClose fd;
                  EvClose (sockfd (client c_hello))]
                 ++ str_frees parsed.2.
Proof.
  do 3 (split; [reflexivity|]). cbv zeta.
  split; [by vm_compute|]. split; [by vm_compute|]. split; [reflexivity|].
  apply (hello_rejects_large_upstream_fd env_far 1%positive c_hello
           sni_listener w_hello);
    [reflexivity | reflexivity | reflexivity | by vm_compute | by vm_compute
    | reflexivity].
Defined.

Lemma hello_leaves_client_side_witness :
  heap w_hello !! 1%positive = Some c_hello ∧ state c_hello = ACCEPTED ∧
  listener c_hello = Some sni_listener ∧
  let parsed :=
    parse_packet sni_listener (buffer_peek (buffer (client c_hello)) 1460) in
  ∃ w' c', handle_connection_client_hello env_data 1%positive w_hello
             = Done tt w' ∧
    heap w' !! 1%positive = Some c' ∧
    client c' = client c_hello ∧
    buffer (server c') = buffer (server c_hello) ∧
    listener c' = listener c_hello ∧ queue w' = queue w_hello ∧
    (∀ q, q ≠ 1%positive → heap w' !! q = heap w_hello !! q) ∧
    (c' = c_hello ∨
     (state c' = CLOSED ∧ hostname c' = hostname c_hello) ∨
     (state c' = CONNECTED ∧ 0 ≤ sockfd (server c') ≤ FD_SETSIZE ∧
      0 ≤ parsed.1 ∧ hostname c' = parsed.2)).
Proof.
  do 3 (split; [reflexivity|]).
  apply (hello_leaves_client_side env_data 1%positive c_hello sni_listener
           w_hello); reflexivity.
Defined.

Lemma accepted_linked : linked_ok w_accepted.
Proof. apply linked_okb_sound. vm_compute. reflexivity. Qed.

Lemma handle_connections_follows_fsm_witness :
  linked_ok w_accepted ∧ 1%positive ∈ queue w_accepted ∧
  heap w_accepted !! 1%positive = Some c_accepted ∧
  state c_accepted ≠ CLOSED ∧
  ∃ w' c', handle_connections env_data {[5]} ∅ w_accepted = Done tt w' ∧
           heap w' !! 1%positive = Some c' ∧ 1%positive ∈ queue w' ∧
           tick_edge (state c_accepted) (state c').
Proof.
  split; [exact accepted_linked|]. split; [exact one_linked|].
  split; [reflexivity|]. split; [discriminate|].
  apply (handle_connections_follows_fsm env_data {[5]} ∅ w_accepted
           1%positive c_accepted);
    [exact accepted_linked | exact one_linked | reflexivity | discriminate].
Defined.

Lemma connected_linked : linked_ok w_connected.
Proof. apply linked_okb_sound. vm_compute. reflexivity. Qed.

Lemma handle_connections_keeps_identity_witness :
  linked_ok w_connected ∧ 1%positive ∈ queue w_connected ∧
  heap w_connected !! 1%positive = Some c_connected ∧
  state c_connected ≠ CLOSED ∧
  ∃ w' c', handle_connections env_data {[7]} {[7]} w_connected = Done tt w' ∧
           heap w' !! 1%positive = Some c' ∧
           listener c' = listener c_connected ∧
           sockfd (client c') = sockfd (client c_connected) ∧
           addr (client c') = addr (client c_connected) ∧
           (state c_connected ≠ ACCEPTED →
            sockfd (server c') = sockfd (server c_connected) ∧
            addr (server c') = addr (server c_connected) ∧
            hostname c' = hostname c_connected).
Proof.
  split; [exact connected_linked|]. split; [exact one_linked|].
  split; [reflexivity|]. split; [discriminate|].
  apply (handle_connections_keeps_identity env_data {[7]} {[7]} w_connected
           1%positive c_connected);
    [exact connected_linked | exact one_linked | reflexivity | discriminate].
Defined.

Lemma client_closed_linked : linked_ok w_client_closed.
Proof. apply linked_okb_sound. vm_compute. reflexivity. Qed.

Lemma client_closed_drains_witness :
  linked_ok w_client_closed ∧ 1%positive ∈ queue w_client_closed ∧
  heap w_client_closed !! 1%positive = Some c_client_closed ∧
  state c_client_closed = CLIENT_CLOSED ∧
  ∃ w', run_ticks env_again [(∅, {[7]}); (∅, ∅)] w_client_closed
          = Done tt w' ∧
    match heap w' !! 1%positive with
    | None => True
    | Some c' =>
        buffer (server c') = buffer (server c_client_closed) ∧
        (buffer_len (buffer (client c')) ≤
           buffer_len (buffer (client c_client_closed)))%nat ∧
        (state c' = CLIENT_CLOSED ∨ state c' = CLOSED) ∧
        ([(∅, {[7]}); (∅, ∅)] ≠ ([] : list (fd_set * fd_set)) →
         state c' = CLIENT_CLOSED →
         (0 < buffer_len (buffer (client c')))%nat)
    end.
Proof.
  split; [exact client_closed_linked|]. split; [exact one_linked|].
  split; [reflexivity|]. split; [reflexivity|].
  apply (client_closed_drains env_again [(∅, {[7]}); (∅, ∅)]
           w_client_closed 1%positive c_client_closed);
    [exact client_closed_linked | exact one_linked | reflexivity
    | reflexivity].
Defined.

Lemma reachable_accepted_is_blank_witness :
  reachable (λ _, True) w_accepted ∧
  heap w_accepted !! 1%positive = Some c_accepted ∧
  state c_accepted = ACCEPTED ∧
  hostname c_accepted = None ∧ sockfd (server c_accepted) = 0 ∧
  addr (server c_accepted) = [] ∧
  buffer_len (buffer (server c_accepted)) = 0%nat.
Proof.
  split; [by apply reachable_accepted|]. do 2 (split; [reflexivity|]).
  apply (reachable_accepted_is_blank (λ _, True) w_accepted 1%positive
           c_accepted); [by apply reachable_accepted | reflexivity..].
Defined.

Lemma reachable_server_fd_bounded_witness :
  reachable (λ _, True) w_connected ∧
  heap w_connected !! 1%positive = Some c_connected ∧
  (state c_connected = CONNECTED ∨ state c_connected = CLIENT_CLOSED ∨
   state c_connected = SERVER_CLOSED) ∧
  0 ≤ sockfd (server c_connected) ≤ FD_SETSIZE.
Proof.
  split; [by apply reachable_connected|]. split; [reflexivity|].
  split; [by left|].
  apply (reachable_server_fd_bounded (λ _, True) w_connected 1%positive
           c_connected); [by apply reachable_connected | reflexivity | by left].
Defined.

Lemma connected_no_edge : no_edge_fd w_connected.
Proof.
  intros p c Hp Hc. apply list_elem_of_singleton in Hp as ->.
  injection Hc as <-. cbn. set_solver.
Qed.

Lemma fd_set_connections_in_range_witness :
  reachable (λ _, True) w_connected ∧ no_edge_fd w_connected ∧
  ∃ rfds' wfds' max',
    fd_set_connections {[3]} ∅ 3 w_connected
      = Done (rfds', wfds', max') w_connected ∧
    {[3]} ⊆ rfds' ∧ ∅ ⊆ wfds' ∧
    (∀ fd, fd ∈ rfds' ∪ wfds' → fd ∉ ({[3]} : fd_set) ∪ ∅ → fd_valid fd) ∧
    3 ≤ max' ≤ Z.max 3 (FD_SETSIZE - 1).
Proof.
  split; [by apply reachable_connected|]. split; [exact connected_no_edge|].
  apply (fd_set_connections_in_range (λ _, True) w_connected {[3]} ∅ 3);
    [by apply reachable_connected | exact connected_no_edge].
Defined.

Lemma reachable_never_faults_witness :
  reachable (λ _, True) w_connected ∧ no_edge_fd w_connected ∧
  (∃ w', accept_connection env_data sni_listener w_connected = Done tt w') ∧
  (∃ w', handle_connections env_data {[5; 7]} {[5; 7]} w_connected
           = Done tt w' ∧
         ∀ rfds' wfds', same_bits {[5; 7]} rfds' → same_bits {[5; 7]} wfds' →
           handle_connections env_data rfds' wfds' w_connected = Done tt w') ∧
  (∃ r, fd_set_connections {[5; 7]} {[5; 7]} 0 w_connected
          = Done r w_connected ∧
        ∀ fd, fd ∈ r.1.1 ∪ r.1.2 → fd ∉ ({[5; 7]} : fd_set) ∪ {[5; 7]} →
              fd_valid fd) ∧
  (∃ w', free_connections w_connected = Done tt w').
Proof.
  split; [by apply reachable_connected|]. split; [exact connected_no_edge|].
  apply (reachable_never_faults (λ _, True) w_connected env_data sni_listener
           {[5; 7]} {[5; 7]} 0);
    [by apply reachable_connected | exact connected_no_edge].
Defined.

Lemma fd_setsize_gets_through_witness :
  reachable (λ _, True) empty_world ∧ 0 ≤ FD_SETSIZE ∧
  (0 < BUFFER_CAPACITY)%nat ∧
  env_alloc env_edge (clock empty_world) = true ∧
  env_alloc env_edge (S (clock empty_world)) = true ∧
  env_alloc env_edge (S (S (clock empty_world))) = true ∧
  (env_accept env_edge (3 + clock empty_world) (l_sockfd sni_listener)).1
    = FD_SETSIZE ∧
  ∃ w' p c, accept_connection env_edge sni_listener empty_world
              = Done tt w' ∧
    reachable (λ _, True) w' ∧
    head (queue w') = Some p ∧ heap w' !! p = Some c ∧
    state c = ACCEPTED ∧ sockfd (client c) = FD_SETSIZE ∧
    ¬ fd_valid (sockfd (client c)) ∧
    ∃ r, fd_set_connections ∅ ∅ 0 w' = Done r w' ∧ FD_SETSIZE ∈ r.1.1.
Proof.
  split; [apply reach_start|]. split; [by vm_compute|].
  split; [cbn; lia|]. do 4 (split; [reflexivity|]).
  apply (fd_setsize_gets_through (λ _, True) env_edge sni_listener
           empty_world);
    [apply reach_start | done | by vm_compute | cbn; lia | reflexivity..].
Defined.

Lemma transfer_steps_keep_order_witness :
  heap w_connected !! 1%positive = Some c_connected ∧
  1%positive ∈ queue w_connected ∧
  (∃ r w' b, handle_connection_server_rx env_data 1%positive w_connected
               = Done r w' ∧
     heap w' !! 1%positive
       = Some (with_server (with_buffer b (server c_connected)) c_connected) ∧
     appended (buffer (server c_connected)) b ∧
     ∀ q, q ≠ 1%positive → heap w' !! q = heap w_connected !! q) ∧
  (∃ r w' b, handle_connection_server_tx env_data 1%positive w_connected
               = Done r w' ∧
     heap w' !! 1%positive
       = Some (with_client (with_buffer b (client c_connected)) c_connected) ∧
     consumed (buffer (client c_connected)) b ∧
     ∀ q, q ≠ 1%positive → heap w' !! q = heap w_connected !! q) ∧
  (∃ r w' b, handle_connection_client_tx env_data 1%positive w_connected
               = Done r w' ∧
     heap w' !! 1%positive
       = Some (with_server (with_buffer b (server c_connected)) c_connected) ∧
     consumed (buffer (server c_connected)) b ∧
     ∀ q, q ≠ 1%positive → heap w' !! q = heap w_connected !! q) ∧
  (state c_connected ≠ ACCEPTED →
   ∃ r w' b, handle_connection_client_rx env_data 1%positive w_connected
               = Done r w' ∧
     heap w' !! 1%positive
       = Some (with_client (with_buffer b (client c_connected)) c_connected) ∧
     appended (buffer (client c_connected)) b ∧
     ∀ q, q ≠ 1%positive → heap w' !! q = heap w_connected !! q).
Proof.
  split; [reflexivity|]. split; [exact one_linked|].
  apply (transfer_steps_keep_order env_data 1%positive c_connected
           w_connected); [reflexivity | exact one_linked].
Defined.

Lemma accepted_no_leak : no_leak w_accepted.
Proof.
  intros p [c Hc]. destruct (decide (p = 1%positive)) as [-> | Hne]; [left|].
  unfold w_accepted, world_of in Hc. cbn in Hc.
  by rewrite lookup_singleton_ne in Hc.
Qed.

Lemma connections_never_leak_witness :
  linked_ok w_accepted ∧ no_leak w_accepted ∧
  (∃ w', accept_connection env_data sni_listener w_accepted = Done tt w' ∧
         no_leak w') ∧
  (∃ w', handle_connections env_data {[5]} ∅ w_accepted = Done tt w' ∧
         no_leak w') ∧
  (∃ w', free_connections w_accepted = Done tt w' ∧ heap w' = ∅ ∧
         queue w' = []).
Proof.
  split; [exact accepted_linked|]. split; [exact accepted_no_leak|].
  apply (connections_never_leak env_data sni_listener {[5]} ∅ w_accepted);
    [exact accepted_linked | exact accepted_no_leak].
Defined.

End MoreExamples.
